(** * st2: key escaping for the document store, and the generic resource commands

    Two source files are embedded here.

    - [st2common/util/mongoescape.py]: [escape_chars] / [unescape_chars]
      rewrite the reserved characters of mapping keys.  Module
      [MongoEscape] has the pass as a function on documents, module
      [InPlace] has it as the source writes it, a work-list loop that
      rewrites [dict] objects in a store.
    - [st2client/commands/resource.py]: the list / get / create / update /
      delete commands, their identifier resolution and their error
      handling (module [Resource]).

    Definitions come first; the properties follow, in [MongoEscapeFacts],
    [InPlaceFacts] (the loop in the store computes the function on
    documents) and [ResourceFacts]. *)

From Stdlib Require Import Ascii String Permutation.
From stdpp Require Import base decidable option list numbers strings sets gmap
  pretty.

#[local] Set Warnings "-register-all,-clear-no-such-hyp".

(* ===================================================================== *)
(** * mongoescape.py *)
(* ===================================================================== *)

Module MongoEscape.

(** ** Strings

    Keys are Python unicode strings: sequences of code points. *)

Definition char := N.
Definition ustring := list char.

(** The four characters of the translation tables. *)
Definition FULL_STOP : char := 46%N.                  (* '.'      U+002E *)
Definition DOLLAR_SIGN : char := 36%N.                (* '$'      U+0024 *)
Definition FULLWIDTH_FULL_STOP : char := 65294%N.     (* u'．'       *)
Definition FULLWIDTH_DOLLAR_SIGN : char := 65284%N.   (* u'＄'       *)

(** [UNESCAPED = ['.', '$']], [ESCAPED = [u'．', u'＄']] and the
    two dictionaries built with [dict(zip(..))].  Every string of the tables
    has length one, so a table entry is a pair of characters; a table is
    listed in the order [six.iteritems] enumerates it. *)
Definition UNESCAPED : list char := [FULL_STOP; DOLLAR_SIGN].
Definition ESCAPED : list char := [FULLWIDTH_FULL_STOP; FULLWIDTH_DOLLAR_SIGN].
Definition ESCAPE_TRANSLATION : list (char * char) := zip UNESCAPED ESCAPED.
Definition UNESCAPE_TRANSLATION : list (char * char) := zip ESCAPED UNESCAPED.

(** [s.replace(old, new)] for one-character [old] and [new]. *)
Definition str_replace (s : ustring) (old new : char) : ustring :=
  (fun c => if decide (c = old) then new else c) <$> s.

(** Lines 35-37:
<<
    newkey = oldkey
    for t_k, t_v in six.iteritems(translation):
        newkey = newkey.replace(t_k, t_v)
>> *)
Definition translate_key (translation : list (char * char)) (oldkey : ustring)
  : ustring :=
  fold_left (fun newkey t => str_replace newkey t.1 t.2) translation oldkey.

(** ** Dictionaries

    A Python [dict] is an association list without repeated keys, in
    insertion order.  [items] is the snapshot [six.iteritems] is copied
    into, [setitem] is [d[k] = v] (overwrite in place, or append) and
    [delitem] is [del d[k]].

    A [dict] of Python 2 enumerates its entries in an order of its own.
    The properties below hold for every list of entries, so for every
    order a [dict] given to a pass may have; for the order a [dict] has
    after a pass see [translate_order_independent], and for the order of
    the tables [translation_order]. *)

Section Dict.
Context {V : Type}.

Definition dict := list (ustring * V).

Definition keys (d : dict) : list ustring := d.*1.
Definition items (d : dict) : list (ustring * V) := d.

Fixpoint getitem (d : dict) (k : ustring) : option V :=
  match d with
  | [] => None
  | (k', v') :: r => if decide (k' = k) then Some v' else getitem r k
  end.

Fixpoint setitem (d : dict) (k : ustring) (v : V) : dict :=
  match d with
  | [] => [(k, v)]
  | (k', v') :: r =>
      if decide (k' = k) then (k', v) :: r else (k', v') :: setitem r k v
  end.

(** [del d[k]] raises [KeyError] on a missing key.  The only deletion of
    the source removes a key that is present (lemma
    [oldkey_present_at_del]; module [InPlace] has the [KeyError] and
    [InPlaceFacts.translate_chars_holds] shows it is not raised), so here
    the missing case is left as the identity. *)
Fixpoint delitem (d : dict) (k : ustring) : dict :=
  match d with
  | [] => []
  | (k', v') :: r => if decide (k' = k) then r else (k', v') :: delitem r k
  end.
End Dict.
Arguments dict : clear implicits.

(** ** Documents

    What a decoder produces: scalars, sequences and mappings, nested at
    will. *)

#[local] Unset Elimination Schemes.
Inductive doc : Type :=
| DNull
| DBool (b : bool)
| DNum (z : Z)
| DStr (s : ustring)
| DSeq (l : list doc)
| DMap (m : dict doc).
#[local] Set Elimination Schemes.

Definition is_map (d : doc) : bool :=
  match d with DMap _ => true | _ => false end.

Definition is_seq (d : doc) : bool :=
  match d with DSeq _ => true | _ => false end.

(** A document is well formed when no mapping in it, at any depth, repeats
    a key: what every Python [dict] satisfies. *)
Fixpoint wf (d : doc) : bool :=
  match d with
  | DMap m => bool_decide (NoDup (keys m)) && forallb (fun kv => wf kv.2) m
  | DSeq l => forallb wf l
  | _ => true
  end.

(** ** The transformation *)

Section Translate.
Variable translation : list (char * char).

(** One turn of the [while] loop on the mapping [work_field], for the work
    item [(oldkey, value, work_field)] (lines 31-40). *)
Definition rename_item {V} (work_field : dict V) (item : ustring * V)
  : dict V :=
  let oldkey := item.1 in
  let value := item.2 in
  let newkey := translate_key translation oldkey in
  if decide (newkey <> oldkey)
  then delitem (setitem work_field newkey value) oldkey
  else work_field.

(** All the work items of one mapping, in the order of the snapshot taken
    when the mapping was queued (lines 29 and 42). *)
Definition rename_keys {V} (field : dict V) : dict V :=
  fold_left rename_item (items field) field.

(** [_translate_chars(field, translation)].

    The source walks the mappings breadth first with a work list and
    rewrites each of them in place; the work items of a mapping are the
    entries it had when it was queued, and a value that is itself a
    mapping is queued with its own entries (lines 41-43).  On a
    tree-shaped document the turns that belong to different mappings do
    not interfere, so the result is: every mapping reachable through
    mapping values has [rename_keys] applied to it.  Values that are not
    mappings, sequences among them, are never looked into.

    Module [InPlace] below has the loop itself, on a store of [dict]
    objects; [InPlaceFacts.in_place_is_translate] and
    [InPlaceFacts.in_place_represents] show that it computes this
    function. *)
Fixpoint _translate_chars (field : doc) : doc :=
  match field with
  | DMap m =>
      DMap (rename_keys ((fun kv => (kv.1, _translate_chars kv.2)) <$> m))
  | _ => field
  end.
End Translate.

Definition escape_chars (field : doc) : doc :=
  _translate_chars ESCAPE_TRANSLATION field.

Definition unescape_chars (field : doc) : doc :=
  _translate_chars UNESCAPE_TRANSLATION field.

(** ** Observations on documents *)

(** Equality of documents as Python's [==] sees it: mappings are compared
    key by key, whatever the order of their entries. *)
Inductive doc_equiv : doc -> doc -> Prop :=
| equiv_other d : is_map d = false -> doc_equiv d d
| equiv_map m1 m2 :
    (forall k, option_Forall2 doc_equiv (getitem m1 k) (getitem m2 k)) ->
    doc_equiv (DMap m1) (DMap m2).

(** The values reachable from a document through mapping nesting only (the
    document itself included). *)
Fixpoint reachable (d : doc) : list doc :=
  d :: match d with
       | DMap m => concat ((fun kv => reachable kv.2) <$> m)
       | _ => []
       end.

(** The keys of the mappings reachable through mapping nesting. *)
Fixpoint reachable_keys (d : doc) : list ustring :=
  match d with
  | DMap m => keys m ++ concat ((fun kv => reachable_keys kv.2) <$> m)
  | _ => []
  end.

(** A key carries a substitute (resp. reserved) character. *)
Definition has_substitute (k : ustring) : bool :=
  bool_decide (Exists (fun c => c ∈ ESCAPED) k).

Definition has_reserved (k : ustring) : bool :=
  bool_decide (Exists (fun c => c ∈ UNESCAPED) k).

(** No key reachable through mapping nesting carries a substitute. *)
Definition substitute_free (d : doc) : bool :=
  forallb (fun k => negb (has_substitute k)) (reachable_keys d).

(** The spelling a key gets from each pass. *)
Definition esc_key : ustring -> ustring := translate_key ESCAPE_TRANSLATION.
Definition unesc_key : ustring -> ustring := translate_key UNESCAPE_TRANSLATION.

(** What the loop of lines 36-37 does to one character. *)
Definition translate_char (tr : list (char * char)) (c : char) : char :=
  fold_left (fun c t => if decide (c = t.1) then t.2 else c) tr c.

(** No mapping reachable through mapping nesting has two keys that the
    table rewrites to the same spelling. *)
Fixpoint collision_free (tr : list (char * char)) (d : doc) : bool :=
  match d with
  | DMap m =>
      bool_decide (NoDup (translate_key tr <$> keys m))
      && forallb (fun kv => collision_free tr kv.2) m
  | _ => true
  end.

(** The entries of [m'] are those of [m], each under its escaped key and
    with its value escaped in turn, in some order. *)
Definition entries_escaped (m m' : dict doc) : Prop :=
  m' ≡ₚ (fun kv => (esc_key kv.1, escape_chars kv.2)) <$> m.

(** ** Induction on documents *)

Section DocInd.
Variable P : doc -> Prop.
Hypothesis Hnull : P DNull.
Hypothesis Hbool : forall b, P (DBool b).
Hypothesis Hnum : forall z, P (DNum z).
Hypothesis Hstr : forall s, P (DStr s).
Hypothesis Hseq : forall l, Forall P l -> P (DSeq l).
Hypothesis Hmap : forall m, Forall (fun kv => P kv.2) m -> P (DMap m).

Fixpoint doc_ind (d : doc) : P d :=
  match d with
  | DNull => Hnull
  | DBool b => Hbool b
  | DNum z => Hnum z
  | DStr s => Hstr s
  | DSeq l =>
      Hseq l ((fix go (l : list doc) : Forall P l :=
                 match l with
                 | [] => Forall_nil_2 P
                 | d :: l' => Forall_cons_2 P d l' (doc_ind d) (go l')
                 end) l)
  | DMap m =>
      Hmap m ((fix go (m : dict doc) : Forall (fun kv => P kv.2) m :=
                 match m with
                 | [] => Forall_nil_2 _
                 | kv :: m' => Forall_cons_2 _ kv m' (doc_ind kv.2) (go m')
                 end) m)
  end.
End DocInd.

(** ** Sample documents *)

(** [{"a.b": 1, "c": {"$d": [{".": null}]}}] *)
Definition sample_doc : doc :=
  DMap [([97; 46; 98]%N, DNum 1);
        ([99]%N, DMap [([36; 100]%N, DSeq [DMap [([46]%N, DNull)]])])].

(** [{u"．": 1}]: a key that already spells a substitute. *)
Definition substitute_doc : doc :=
  DMap [([FULLWIDTH_FULL_STOP], DNum 1)].

(** [{".": 1, u"．": 2}]: two keys with one escaped spelling. *)
Definition colliding_doc : doc :=
  DMap [([FULL_STOP], DNum 1); ([FULLWIDTH_FULL_STOP], DNum 2)].

(** [{u"．": [{"a.b": 1}], ".": 5}]: a sequence under a key that another
    key is escaped to. *)
Definition overwritten_sequence_doc : doc :=
  DMap [([FULLWIDTH_FULL_STOP], DSeq [DMap [([97; 46; 98]%N, DNum 1)]]);
        ([FULL_STOP], DNum 5)].

End MongoEscape.

(* ===================================================================== *)
(** * mongoescape.py, statement by statement *)
(* ===================================================================== *)

(** The source does not rebuild the document: it rewrites the [dict]
    objects in place, driven by a work list.  This module follows it
    statement by statement on a store of [dict] objects; module
    [InPlaceFacts] shows that, run on a tree-shaped document, it computes
    [MongoEscape._translate_chars]. *)

Module InPlace.
Import MongoEscape.

(** A [dict] object is known by its location in the store; a value is a
    scalar, a list of values or a reference to a [dict]. *)
Definition loc := nat.

#[local] Unset Elimination Schemes.
Inductive value : Type :=
| VNull
| VBool (b : bool)
| VNum (z : Z)
| VStr (s : ustring)
| VList (l : list value)
| VDict (r : loc).
#[local] Set Elimination Schemes.

Abbreviation heap := (gmap loc (dict value)).

(** How a run ends: with a result, with the [KeyError] of [del], on a
    reference to no object (no Python state has one), or not within the
    turns it was given. *)
Inductive result (A : Type) : Type :=
| Returns (a : A)
| KeyError (k : ustring)
| Dangling (r : loc)
| OutOfFuel.
Arguments Returns {A} a.
Arguments KeyError {A} k.
Arguments Dangling {A} r.
Arguments OutOfFuel {A}.

(** A work item: [(oldkey, value, work_field)]. *)
Definition work_item : Type := ustring * value * loc.

(** [[(k, v, field) for k, v in six.iteritems(field)]], for the [dict] at
    [r]. *)
Definition work_items_of (d : dict value) (r : loc) : list work_item :=
  (fun kv => (kv.1, kv.2, r)) <$> items d.

(** Lines 41-43: the items a value adds to the work list. *)
Definition nested_work_items (h : heap) (value : value)
  : result (list work_item) :=
  match value with
  | VDict r =>
      match h !! r with
      | Some d => Returns (work_items_of d r)
      | None => Dangling r
      end
  | _ => Returns []
  end.

(** Lines 35-40: the key is rewritten and, when that changed it, the value
    is stored under the new key and the old key is deleted. *)
Definition rename_in_place (translation : list (char * char)) (h : heap)
    (item : work_item) : result heap :=
  let '(oldkey, value, work_field) := item in
  let newkey := translate_key translation oldkey in
  if decide (newkey <> oldkey) then
    match h !! work_field with
    | Some d =>
        let d := setitem d newkey value in
        if decide (oldkey ∈ keys d)
        then Returns (<[work_field := delitem d oldkey]> h)
        else KeyError oldkey
    | None => Dangling work_field
    end
  else Returns h.

(** The [while] loop of lines 30-43, one turn per unit of fuel:
<<
    while len(work_items) > 0:
        work_item = work_items.pop(0)
        ...
        if isinstance(value, dict):
            nested_work_items = [(k, v, value) for k, v in six.iteritems(value)]
            work_items.extend(nested_work_items)
>> *)
Fixpoint work_loop (fuel : nat) (translation : list (char * char))
    (work_items : list work_item) (h : heap) : result heap :=
  match work_items with
  | [] => Returns h
  | work_item :: work_items =>
      match fuel with
      | O => OutOfFuel
      | S fuel =>
          match rename_in_place translation h work_item with
          | Returns h =>
              match nested_work_items h work_item.1.2 with
              | Returns nested =>
                  work_loop fuel translation (work_items ++ nested) h
              | KeyError k => KeyError k
              | Dangling r => Dangling r
              | OutOfFuel => OutOfFuel
              end
          | e => e
          end
      end
  end.

(** [_translate_chars(field, translation)]: the value returned is [field]
    itself, and the store is what the loop made of it. *)
Definition _translate_chars (fuel : nat) (translation : list (char * char))
    (field : value) (h : heap) : result (value * heap) :=
  match field with
  | VDict r =>
      match h !! r with
      | Some d =>
          match work_loop fuel translation (work_items_of d r) h with
          | Returns h => Returns (field, h)
          | KeyError k => KeyError k
          | Dangling r => Dangling r
          | OutOfFuel => OutOfFuel
          end
      | None => Dangling r
      end
  | _ => Returns (field, h)
  end.

Definition escape_chars (fuel : nat) (field : value) (h : heap) :=
  _translate_chars fuel ESCAPE_TRANSLATION field h.

Definition unescape_chars (fuel : nat) (field : value) (h : heap) :=
  _translate_chars fuel UNESCAPE_TRANSLATION field h.

(** ** Documents in the store

    A document whose mappings are tagged with the locations of the [dict]
    objects that hold them. *)

#[local] Unset Elimination Schemes.
Inductive ldoc : Type :=
| LNull
| LBool (b : bool)
| LNum (z : Z)
| LStr (s : ustring)
| LSeq (l : list ldoc)
| LMap (r : loc) (m : dict ldoc).
#[local] Set Elimination Schemes.

(** The value that stands for a tagged document. *)
Fixpoint val_of (t : ldoc) : value :=
  match t with
  | LNull => VNull
  | LBool b => VBool b
  | LNum z => VNum z
  | LStr s => VStr s
  | LSeq l => VList (val_of <$> l)
  | LMap r _ => VDict r
  end.

(** The document it is, tags forgotten. *)
Fixpoint erase (t : ldoc) : doc :=
  match t with
  | LNull => DNull
  | LBool b => DBool b
  | LNum z => DNum z
  | LStr s => DStr s
  | LSeq l => DSeq (erase <$> l)
  | LMap _ m => DMap ((fun kv => (kv.1, erase kv.2)) <$> m)
  end.

(** The [dict] objects of a tagged document, each with what it holds:
    those of its mappings at any depth, inside sequences too. *)
Fixpoint nodes (t : ldoc) : list (loc * dict value) :=
  match t with
  | LSeq l => concat (nodes <$> l)
  | LMap r m =>
      (r, (fun kv => (kv.1, val_of kv.2)) <$> m)
      :: concat ((fun kv => nodes kv.2) <$> m)
  | _ => []
  end.

Definition locs (t : ldoc) : list loc := (nodes t).*1.

(** The store holds the tagged document. *)
Definition holds (h : heap) (t : ldoc) : Prop :=
  Forall (fun n => h !! n.1 = Some n.2) (nodes t).

(** The store [h] has, at [v], the tree-shaped document [d]: no [dict]
    object is reached twice. *)
Definition represents (h : heap) (v : value) (d : doc) : Prop :=
  exists t, val_of t = v /\ erase t = d /\ holds h t /\ NoDup (locs t).

(** Tagging a document with fresh locations, from [n] on; the result comes
    with the next free location. *)
Definition label_list {A B} (f : A -> loc -> B * loc)
  : list A -> loc -> list B * loc :=
  fix go (l : list A) (n : loc) : list B * loc :=
    match l with
    | [] => ([], n)
    | x :: l =>
        let '(t, n) := f x n in
        let '(ts, n) := go l n in (t :: ts, n)
    end.

Fixpoint label (d : doc) (n : loc) : ldoc * loc :=
  match d with
  | DNull => (LNull, n)
  | DBool b => (LBool b, n)
  | DNum z => (LNum z, n)
  | DStr s => (LStr s, n)
  | DSeq l => let '(l', n') := label_list label l n in (LSeq l', n')
  | DMap m =>
      let '(m', n') :=
        label_list (fun kv n => let '(t, n) := label kv.2 n in ((kv.1, t), n))
                   m (S n) in
      (LMap n m', n')
  end.

(** The store that holds a tagged document and nothing else. *)
Definition store_of (t : ldoc) : heap := list_to_map (nodes t).

(** Reading a document back from the store, to the depth given. *)
Fixpoint read (depth : nat) (h : heap) (v : value) : option doc :=
  match depth with
  | O => None
  | S depth =>
      match v with
      | VNull => Some DNull
      | VBool b => Some (DBool b)
      | VNum z => Some (DNum z)
      | VStr s => Some (DStr s)
      | VList l => DSeq <$> mapM (read depth h) l
      | VDict r =>
          d ← h !! r;
          DMap <$> mapM (fun kv => pair kv.1 <$> read depth h kv.2) d
      end
  end.

(** Nesting depth, and the number of work items a document gives rise
    to. *)
Fixpoint depth (d : doc) : nat :=
  match d with
  | DSeq l => S (foldr (fun d n => depth d `max` n) 0 l)
  | DMap m => S (foldr (fun kv n => depth kv.2 `max` n) 0 m)
  | _ => 1
  end.

Fixpoint turns (d : doc) : nat :=
  match d with
  | DMap m => foldr (fun kv n => S (turns kv.2) + n) 0 m
  | _ => 0
  end.

(** The whole journey: the document is put in a fresh store, the pass runs
    there, the result is read back. *)
Definition run_on (translation : list (char * char)) (d : doc) : option doc :=
  let t := (label d 0).1 in
  match _translate_chars (turns d) translation (val_of t) (store_of t) with
  | Returns (v, h) => read (depth d) h v
  | _ => None
  end.

(** ** What the loop has still to do

    The pass on tagged documents, and work items with the tagged document
    their value stands for. *)

Fixpoint ltranslate (translation : list (char * char)) (t : ldoc) : ldoc :=
  match t with
  | LMap r m =>
      LMap r (rename_keys translation
                ((fun kv => (kv.1, ltranslate translation kv.2)) <$> m))
  | _ => t
  end.

Definition aitem : Type := ustring * ldoc * loc.

Definition conc (a : aitem) : work_item := (a.1.1, val_of a.1.2, a.2).

(** The work items a tagged document adds when its turn comes. *)
Definition children (t : ldoc) : list aitem :=
  match t with
  | LMap r m => (fun kv => (kv.1, kv.2, r)) <$> m
  | _ => []
  end.

(** The [dict] objects the work list has not reached yet. *)
Definition pend (w : list aitem) : list (loc * dict value) :=
  concat ((fun a => nodes a.1.2) <$> w).

(** The items of the work list that rewrite the [dict] at [r], in order. *)
Definition items_for (r : loc) (w : list aitem) : dict value :=
  (fun a => (a.1.1, val_of a.1.2)) <$> filter (fun a => a.2 = r) w.

(** The turns a work list takes. *)
Definition weight (w : list aitem) : nat :=
  sum_list_with (fun a => S (turns (erase a.1.2))) w.

(** What holds of the work list [w] and the store [h] before each turn:
    the objects not reached yet are in the store as the documents tell, no
    object is reached twice, no object under rewriting is among those not
    reached yet, the keys that are still to be rewritten in an object are
    keys of it, each once, and no mapping repeats a key. *)
Definition loop_inv (w : list aitem) (h : heap) : Prop :=
  Forall (fun n => h !! n.1 = Some n.2) (pend w) /\
  NoDup ((pend w).*1) /\
  (forall r, r ∈ w.*2 -> r ∉ (pend w).*1) /\
  (forall r, r ∈ w.*2 ->
     exists d, h !! r = Some d /\ NoDup (keys d) /\
               NoDup (keys (items_for r w)) /\
               keys (items_for r w) ⊆ keys d) /\
  Forall (fun a => wf (erase a.1.2) = true) w.

(** What the loop leaves, started from [w] and [h]: the documents of the
    work list are in the store, translated, and an object outside them has
    had the items that were for it applied in order. *)
Definition loop_post (translation : list (char * char)) (w : list aitem)
    (h h' : heap) : Prop :=
  Forall (fun a => holds h' (ltranslate translation a.1.2)) w /\
  (forall r, r ∉ (pend w).*1 ->
     h' !! r = fold_left (rename_item translation) (items_for r w) <$> h !! r).

Section LDocInd.
Variable P : ldoc -> Prop.
Hypothesis Hnull : P LNull.
Hypothesis Hbool : forall b, P (LBool b).
Hypothesis Hnum : forall z, P (LNum z).
Hypothesis Hstr : forall s, P (LStr s).
Hypothesis Hseq : forall l, Forall P l -> P (LSeq l).
Hypothesis Hmap : forall r m, Forall (fun kv => P kv.2) m -> P (LMap r m).

Fixpoint ldoc_ind (t : ldoc) : P t :=
  match t with
  | LNull => Hnull
  | LBool b => Hbool b
  | LNum z => Hnum z
  | LStr s => Hstr s
  | LSeq l =>
      Hseq l ((fix go (l : list ldoc) : Forall P l :=
                 match l with
                 | [] => Forall_nil_2 P
                 | t :: l' => Forall_cons_2 P t l' (ldoc_ind t) (go l')
                 end) l)
  | LMap r m =>
      Hmap r m ((fix go (m : dict ldoc) : Forall (fun kv => P kv.2) m :=
                   match m with
                   | [] => Forall_nil_2 _
                   | kv :: m' => Forall_cons_2 _ kv m' (ldoc_ind kv.2) (go m')
                   end) m)
  end.
End LDocInd.

End InPlace.

(* ===================================================================== *)
(** * resource.py *)
(* ===================================================================== *)

Module Resource.

(** ** Python values *)

Inductive pyval : Type :=
| PNone
| PBool (b : bool)
| PInt (z : Z)
| PStr (s : string).

#[global] Instance pyval_eq_dec : EqDecision pyval.
Proof. solve_decision. Defined.

(** Truth value, as [if x] and [not x] take it. *)
Definition truthy (v : pyval) : bool :=
  match v with
  | PNone => false
  | PBool b => b
  | PInt z => negb (z =? 0)%Z
  | PStr s => negb (bool_decide (s = ""))
  end.

(** [a != b]; a [bool] compares as the integer it is. *)
Definition as_int (v : pyval) : option Z :=
  match v with
  | PBool b => Some (if b then 1 else 0)%Z
  | PInt z => Some z
  | _ => None
  end.

Definition py_ne (a b : pyval) : bool :=
  match as_int a, as_int b with
  | Some x, Some y => negb (x =? y)%Z
  | _, _ => negb (bool_decide (a = b))
  end.

(** ['%s' % v] *)
Definition py_str (v : pyval) : string :=
  match v with
  | PNone => "None"
  | PBool true => "True"
  | PBool false => "False"
  | PInt z => pretty z
  | PStr s => s
  end.

Definition dquote : string := String "034"%char "".
Definition newline : string := String "010"%char "".

(** [s.lower()] on ASCII. *)
Definition lower_ascii (c : ascii) : ascii :=
  let n := nat_of_ascii c in
  if (65 <=? n)%nat && (n <=? 90)%nat then ascii_of_nat (n + 32) else c.

Fixpoint lower (s : string) : string :=
  match s with
  | EmptyString => EmptyString
  | String c s' => String (lower_ascii c) (lower s')
  end.

(** An object with attributes (a resource instance), and keyword arguments. *)
Abbreviation instance := (gmap string pyval).
Abbreviation kwargs := (gmap string pyval).

(** [getattr(obj, name, None)] *)
Definition getattr (obj : instance) (name : string) : pyval :=
  default PNone (obj !! name).

(** [obj.name = v] *)
Definition setattr (obj : instance) (name : string) (v : pyval) : instance :=
  <[name := v]> obj.

(** The parsed command line.  Every option a parser of this file declares
    is a field; an option that was not given holds [PNone]. *)
Record Namespace : Type := {
  ns_token : pyval;
  ns_json : bool;
  ns_attr : list string;
  ns_width : option (list Z);
  ns_pack : pyval;
  ns_file : string;
  ns_name_or_id : pyval;
  ns_ref_or_id : pyval;
}.

(** [getattr(args, self.pk_argument_name, None)] *)
Definition getattr_pk (args : Namespace) (pk_argument_name : string) : pyval :=
  if decide (pk_argument_name = "name_or_id") then ns_name_or_id args
  else if decide (pk_argument_name = "ref_or_id") then ns_ref_or_id args
  else PNone.

(** ** Exceptions and effects *)

Inductive exn : Type :=
| ResourceNotFoundError (msg : string)
| ResourceCommandError (msg : string)
| Exception (msg : string)
| AttributeError (name : string)
| Foreign (tag : string).   (* whatever a collaborator raises *)

Inductive outcome (A : Type) : Type :=
| Ok (a : A)
| Raise (e : exn).
Arguments Ok {A} a.
Arguments Raise {A} e.

(** The operations of a resource manager. *)
Inductive call : Type :=
| GetByName (name : pyval) (kw : kwargs)
| GetById (id : pyval) (kw : kwargs)
| GetByRefOrId (ref_or_id : pyval) (kw : kwargs)
| GetAll (kw : kwargs)
| Create (i : instance) (kw : kwargs)
| Update (i : instance) (kw : kwargs)
| Delete (i : instance) (kw : kwargs).

Inductive table : Type := MultiColumnTable | PropertyValueTable.

(** What [print_output] is asked to render. *)
Record rendering : Type := {
  r_subject : list instance;
  r_table : table;
  r_attributes : list string;
  r_widths : option (list Z);
  r_json : bool;
  r_attribute_display_order : option (list string);
}.

(** What a command does that the outside sees, in the order it does it. *)
Inductive event : Type :=
| EvIsFile (path : string)       (* os.path.isfile *)
| EvOpen (path : string)         (* open(path, 'r') *)
| EvRead (path : string)         (* f.read() *)
| EvClose (path : string)        (* leaving the with block *)
| EvBackend (c : call)           (* a call on self.manager *)
| EvPrint (s : string)           (* print *)
| EvOutput (r : rendering).      (* self.print_output *)

Definition trace := list event.

(** A computation runs from the events so far and ends, with a value or an
    exception, having added its own events. *)
Definition M (A : Type) : Type := trace -> outcome A * trace.

Definition ret {A} (a : A) : M A := fun t => (Ok a, t).
Definition raise {A} (e : exn) : M A := fun t => (Raise e, t).

Definition bind {A B} (m : M A) (k : A -> M B) : M B :=
  fun t =>
    match m t with
    | (Ok a, t') => k a t'
    | (Raise e, t') => (Raise e, t')
    end.

Declare Scope prog_scope.
Delimit Scope prog_scope with prog.
Notation "'let!' x := c1 'in' c2" := (bind c1 (fun x => c2))
  (at level 10, x name, c1 at level 100, c2 at level 200,
   format "'[v' 'let!'  x  :=  c1  'in' '/' c2 ']'") : prog_scope.
Open Scope prog_scope.

(** [try: body / except <matching>: handler]; [handler e] is [None] for an
    exception the clause does not catch. *)
Definition try_except {A} (body : M A) (handler : exn -> option (M A)) : M A :=
  fun t =>
    match body t with
    | (Ok a, t') => (Ok a, t')
    | (Raise e, t') =>
        match handler e with
        | Some h => h t'
        | None => (Raise e, t')
        end
    end.

(** [try: body / finally: cleanup] *)
Definition try_finally {A} (body : M A) (cleanup : trace -> trace) : M A :=
  fun t => let '(r, t') := body t in (r, cleanup t').

(** A collaborator is asked: the request is recorded, the answer is the
    collaborator's, which may depend on all that happened before. *)
Definition ask {A} (e : event) (answer : trace -> outcome A) : M A :=
  fun t => (answer t, t ++ [e]).

Definition lift {A} (r : outcome A) : M A := fun t => (r, t).

(** ** Collaborators *)

(** The resource type: [get_display_name], [get_plural_display_name],
    [get_alias] and [deserialize]. *)
Record ResourceType : Type := {
  get_display_name : string;
  get_plural_display_name : string;
  get_alias : string;
  deserialize : MongoEscape.doc -> outcome instance;
}.

(** [self.manager] *)
Record Manager : Type := {
  get_by_name : trace -> pyval -> kwargs -> outcome (option instance);
  get_by_id : trace -> pyval -> kwargs -> outcome (option instance);
  get_by_ref_or_id : trace -> pyval -> kwargs -> outcome (option instance);
  get_all : trace -> kwargs -> outcome (list instance);
  create : trace -> instance -> kwargs -> outcome instance;
  update : trace -> instance -> kwargs -> outcome instance;
  delete : trace -> instance -> kwargs -> outcome unit;
}.

(** The file system, the JSON decoder and the renderer. *)
Record Host : Type := {
  isfile : trace -> string -> bool;
  open : trace -> string -> outcome unit;
  read : trace -> string -> outcome string;
  json_loads : string -> outcome MongoEscape.doc;
  print_output : trace -> rendering -> outcome unit;
}.

(** What every command object holds: [self.resource], [self.manager] and
    the host it runs on. *)
Record Self : Type := {
  resource : ResourceType;
  manager : Manager;
  host : Host;
}.

(** The members a subclass of the get, update and delete commands may
    override: [pk_argument_name] and [get_resource]. *)
Record Class : Type := {
  pk_argument_name : string;
  get_resource : Self -> pyval -> kwargs -> M instance;
}.

(** Calls on the manager. *)
Definition manager_get_by_name (m : Manager) name kw : M (option instance) :=
  ask (EvBackend (GetByName name kw)) (fun t => get_by_name m t name kw).
Definition manager_get_by_id (m : Manager) id kw : M (option instance) :=
  ask (EvBackend (GetById id kw)) (fun t => get_by_id m t id kw).
Definition manager_get_by_ref_or_id (m : Manager) ref kw
  : M (option instance) :=
  ask (EvBackend (GetByRefOrId ref kw)) (fun t => get_by_ref_or_id m t ref kw).
Definition manager_get_all (m : Manager) kw : M (list instance) :=
  ask (EvBackend (GetAll kw)) (fun t => get_all m t kw).
Definition manager_create (m : Manager) i kw : M instance :=
  ask (EvBackend (Create i kw)) (fun t => create m t i kw).
Definition manager_update (m : Manager) i kw : M instance :=
  ask (EvBackend (Update i kw)) (fun t => update m t i kw).
Definition manager_delete (m : Manager) i kw : M unit :=
  ask (EvBackend (Delete i kw)) (fun t => delete m t i kw).

(** Calls on the host. *)
Definition os_path_isfile (h : Host) path : M bool :=
  ask (EvIsFile path) (fun t => Ok (isfile h t path)).
Definition f_read (h : Host) path : M string :=
  ask (EvRead path) (fun t => read h t path).

(** [with open(path, 'r') as f: body]: the file is closed when the block is
    left, by its end, by a [return] or by an exception. *)
Definition with_open {A} (h : Host) (path : string) (body : M A) : M A :=
  let! _ := ask (EvOpen path) (fun t => open h t path) in
  try_finally body (fun t => t ++ [EvClose path]).

(** [print (s)]: the event has the string handed to [print], which ends
    the line after it. *)
Definition print (s : string) : M unit := ask (EvPrint s) (fun _ => Ok tt).

Definition self_print_output (h : Host) (r : rendering) : M unit :=
  ask (EvOutput r) (fun t => print_output h t r).

(** [obj.name] *)
Definition attr (obj : instance) (name : string) : M pyval :=
  match obj !! name with
  | Some v => ret v
  | None => raise (AttributeError name)
  end.

(** ** The decorator

    The decorated function is called with [self] and the namespace; when
    the namespace holds a token that is not empty, the token is added to the
    keyword arguments before the function runs:
<<
        ns = args[1]
        if getattr(ns, 'token', None):
            kwargs['token'] = ns.token
>> *)
Definition add_auth_token_to_kwargs_from_cli {A}
    (func : Self -> Namespace -> kwargs -> M A)
  : Self -> Namespace -> kwargs -> M A :=
  fun self ns kw =>
    let kw := if truthy (ns_token ns) then <["token" := ns_token ns]> kw
              else kw in
    func self ns kw.

(** ** ResourceCommand *)

Module ResourceCommand.

Definition print_not_found (self : Self) (name : pyval) : M unit :=
  print (get_display_name (resource self) +:+ " " +:+ dquote +:+ py_str name
         +:+ dquote +:+ " is not found." +:+ newline).

Definition get_resource_by_name_or_id (self : Self) (name_or_id : pyval)
    (kw : kwargs) : M instance :=
  let! instance := manager_get_by_name (manager self) name_or_id kw in
  let! instance :=
    match instance with
    | None =>
        try_except (manager_get_by_id (manager self) name_or_id kw)
                   (fun _ => Some (ret instance))
    | Some _ => ret instance
    end in
  match instance with
  | None =>
      let message := "Resource with id or name " +:+ dquote
                     +:+ py_str name_or_id +:+ dquote +:+ " doesn't exist." in
      raise (ResourceNotFoundError message)
  | Some instance => ret instance
  end.

Definition get_resource_by_ref_or_id (self : Self) (ref_or_id : pyval)
    (kw : kwargs) : M instance :=
  let! instance := manager_get_by_ref_or_id (manager self) ref_or_id kw in
  match instance with
  | None =>
      let message := "Resource with id or reference " +:+ dquote
                     +:+ py_str ref_or_id +:+ dquote +:+ " doesn't exist." in
      raise (ResourceNotFoundError message)
  | Some instance => ret instance
  end.

(** [get_resource] as [ResourceCommand] defines it. *)
Definition get_resource (self : Self) (name_or_id : pyval) (kw : kwargs)
  : M instance :=
  get_resource_by_name_or_id self name_or_id kw.

End ResourceCommand.

(** ** ResourceListCommand *)

Module ResourceListCommand.

Definition display_attributes : list string := ["id"; "name"; "description"].

Definition run : Self -> Namespace -> kwargs -> M (list instance) :=
  add_auth_token_to_kwargs_from_cli
    (fun self args kw => manager_get_all (manager self) kw).

(** [run_and_print], for any [run] a subclass may put in its place. *)
Definition run_and_print_with
    (run : Self -> Namespace -> kwargs -> M (list instance))
    (self : Self) (args : Namespace) (kw : kwargs) : M unit :=
  let! instances := run self args kw in
  self_print_output (host self)
    {| r_subject := instances; r_table := MultiColumnTable;
       r_attributes := ns_attr args; r_widths := ns_width args;
       r_json := ns_json args; r_attribute_display_order := None |}.

Definition run_and_print := run_and_print_with run.

End ResourceListCommand.

Module ContentPackResourceListCommand.

Definition run : Self -> Namespace -> kwargs -> M (list instance) :=
  add_auth_token_to_kwargs_from_cli
    (fun self args kw =>
       let filters : kwargs := {["pack" := ns_pack args]} in
       manager_get_all (manager self) filters).

Definition run_and_print := ResourceListCommand.run_and_print_with run.

End ContentPackResourceListCommand.

(** ** ResourceGetCommand *)

Module ResourceGetCommand.

Definition display_attributes : list string := ["all"].
Definition attribute_display_order : list string :=
  ["id"; "name"; "description"].

Definition class : Class := {|
  pk_argument_name := "name_or_id";
  get_resource := ResourceCommand.get_resource;
|}.

Definition run (cls : Class) : Self -> Namespace -> kwargs -> M instance :=
  add_auth_token_to_kwargs_from_cli
    (fun self args kw =>
       let resource_id := getattr_pk args (pk_argument_name cls) in
       get_resource cls self resource_id kw).

(** [run_and_print], for the [attribute_display_order] of the class. *)
Definition run_and_print_with (attribute_display_order : list string)
    (cls : Class) (self : Self) (args : Namespace) (kw : kwargs) : M unit :=
  try_except
    (let! instance := run cls self args kw in
     self_print_output (host self)
       {| r_subject := [instance]; r_table := PropertyValueTable;
          r_attributes := ns_attr args; r_widths := None;
          r_json := ns_json args;
          r_attribute_display_order := Some attribute_display_order |})
    (fun e =>
       match e with
       | ResourceNotFoundError _ =>
           Some (let resource_id := getattr_pk args (pk_argument_name cls) in
                 ResourceCommand.print_not_found self resource_id)
       | _ => None
       end).

Definition run_and_print := run_and_print_with attribute_display_order class.

End ResourceGetCommand.

Module ContentPackResourceGetCommand.

Definition attribute_display_order : list string :=
  ["id"; "pack"; "name"; "description"].

Definition class : Class := {|
  pk_argument_name := "ref_or_id";
  get_resource := ResourceCommand.get_resource_by_ref_or_id;
|}.

Definition run := ResourceGetCommand.run class.
Definition run_and_print :=
  ResourceGetCommand.run_and_print_with attribute_display_order class.

End ContentPackResourceGetCommand.

(** ** ResourceCreateCommand *)

Module ResourceCreateCommand.

Definition run : Self -> Namespace -> kwargs -> M instance :=
  add_auth_token_to_kwargs_from_cli
    (fun self args kw =>
       let! is_file := os_path_isfile (host self) (ns_file args) in
       if negb is_file
       then raise (Exception ("File " +:+ dquote +:+ ns_file args +:+ dquote
                              +:+ " does not exist."))
       else
         with_open (host self) (ns_file args)
           (let! content := f_read (host self) (ns_file args) in
            let! data := lift (json_loads (host self) content) in
            let! instance := lift (deserialize (resource self) data) in
            manager_create (manager self) instance kw)).

Definition run_and_print (self : Self) (args : Namespace) (kw : kwargs)
  : M unit :=
  let! instance := run self args kw in
  self_print_output (host self)
    {| r_subject := [instance]; r_table := PropertyValueTable;
       r_attributes := ["all"]; r_widths := None; r_json := ns_json args;
       r_attribute_display_order := None |}.

End ResourceCreateCommand.

(** ** ResourceUpdateCommand *)

Module ResourceUpdateCommand.

Definition class : Class := {|
  pk_argument_name := "name_or_id";
  get_resource := ResourceCommand.get_resource;
|}.

Definition mismatch_message (self : Self) : string :=
  "The value for the " +:+ lower (get_display_name (resource self))
  +:+ " id in the JSON file does not match the ID provided in the command line arguments.".

Definition run (cls : Class) : Self -> Namespace -> kwargs -> M instance :=
  add_auth_token_to_kwargs_from_cli
    (fun self args kw =>
       let! is_file := os_path_isfile (host self) (ns_file args) in
       if negb is_file
       then raise (Exception ("File " +:+ dquote +:+ ns_file args +:+ dquote
                              +:+ " does not exist."))
       else
         let resource_id := getattr_pk args (pk_argument_name cls) in
         let! instance := get_resource cls self resource_id kw in
         with_open (host self) (ns_file args)
           (let! content := f_read (host self) (ns_file args) in
            let! data := lift (json_loads (host self) content) in
            let! modified_instance := lift (deserialize (resource self) data) in
            let! modified_instance :=
              if negb (truthy (getattr modified_instance "id"))
              then
                let! id := attr instance "id" in
                ret (setattr modified_instance "id" id)
              else
                let! modified_id := attr modified_instance "id" in
                let! id := attr instance "id" in
                if py_ne modified_id id
                then raise (Exception (mismatch_message self))
                else ret modified_instance in
            manager_update (manager self) modified_instance kw)).

Definition run_and_print (cls : Class) (self : Self) (args : Namespace)
    (kw : kwargs) : M unit :=
  let! instance := run cls self args kw in
  self_print_output (host self)
    {| r_subject := [instance]; r_table := PropertyValueTable;
       r_attributes := ["all"]; r_widths := None; r_json := ns_json args;
       r_attribute_display_order := None |}.

End ResourceUpdateCommand.

Module ContentPackResourceUpdateCommand.

(** Only [pk_argument_name] is overridden; [get_resource] is the inherited
    one. *)
Definition class : Class := {|
  pk_argument_name := "ref_or_id";
  get_resource := ResourceCommand.get_resource;
|}.

End ContentPackResourceUpdateCommand.

(** ** ResourceDeleteCommand *)

Module ResourceDeleteCommand.

Definition class : Class := {|
  pk_argument_name := "name_or_id";
  get_resource := ResourceCommand.get_resource;
|}.

Definition run (cls : Class) : Self -> Namespace -> kwargs -> M unit :=
  add_auth_token_to_kwargs_from_cli
    (fun self args kw =>
       let resource_id := getattr_pk args (pk_argument_name cls) in
       let! instance := get_resource cls self resource_id kw in
       manager_delete (manager self) instance kw).

Definition run_and_print (cls : Class) (self : Self) (args : Namespace)
    (kw : kwargs) : M unit :=
  try_except (run cls self args kw)
    (fun e =>
       match e with
       | ResourceNotFoundError _ =>
           Some (let resource_id := getattr_pk args (pk_argument_name cls) in
                 ResourceCommand.print_not_found self resource_id)
       | _ => None
       end).

End ResourceDeleteCommand.

Module ContentPackResourceDeleteCommand.

(** Only [pk_argument_name] is overridden. *)
Definition class : Class := {|
  pk_argument_name := "ref_or_id";
  get_resource := ResourceCommand.get_resource;
|}.

End ContentPackResourceDeleteCommand.

(** ** Observations on traces *)

(** The calls made on the manager, in order. *)
Definition backend_calls (t : trace) : list call :=
  omap (fun e => match e with EvBackend c => Some c | _ => None end) t.

(** The calls that only look a resource up. *)
Definition is_lookup (c : call) : bool :=
  match c with
  | GetByName _ _ | GetById _ _ | GetByRefOrId _ _ => true
  | _ => false
  end.

(** What C8 asks of the events of one invocation: whenever a call is made on
    the manager, the file has been opened, read and closed before. *)
Definition file_released_before_backend (path : string) (evs : trace) : Prop :=
  forall pre c post,
    evs = pre ++ EvBackend c :: post ->
    EvOpen path ∈ pre /\ EvRead path ∈ pre /\ EvClose path ∈ pre.

(** After the events [t] the file [f] opens, and what is read from it is
    decoded and deserialized to the instance [i], each step without
    error. *)
Definition file_yields (self : Self) (f : string) (t : trace) (i : instance)
  : Prop :=
  open (host self) t f = Ok tt /\
  exists content data,
    read (host self) (t ++ [EvOpen f]) f = Ok content /\
    json_loads (host self) content = Ok data /\
    deserialize (resource self) data = Ok i.

(** What C3 asks: no call at all on the manager. *)
Definition no_backend_call (evs : trace) : Prop := backend_calls evs = [].

(** The message of [ResourceNotFoundError] in name-or-id resolution. *)
Definition not_found_message (name_or_id : pyval) : string :=
  "Resource with id or name " +:+ dquote +:+ py_str name_or_id +:+ dquote
  +:+ " doesn't exist.".

(** What [print_not_found] prints. *)
Definition not_found_line (self : Self) (name : pyval) : string :=
  get_display_name (resource self) +:+ " " +:+ dquote +:+ py_str name
  +:+ dquote +:+ " is not found." +:+ newline.

(** The keyword arguments a decorated [run] hands to its body. *)
Definition with_token (args : Namespace) (kw : kwargs) : kwargs :=
  if truthy (ns_token args) then <["token" := ns_token args]> kw else kw.

(** ** A sample installation

    One resource type, "Alert"; the backend holds one alert, named
    [alertA], with id [507f]; the file [alert.json] exists and decodes to
    the document given. *)

Definition ustr (s : string) : MongoEscape.ustring :=
  (fun c => N_of_ascii c) <$> list_ascii_of_string s.

Definition str_of_ustr (k : MongoEscape.ustring) : string :=
  string_of_list_ascii ((fun n => ascii_of_N n) <$> k).

Definition scalar_of_doc (d : MongoEscape.doc) : pyval :=
  match d with
  | MongoEscape.DBool b => PBool b
  | MongoEscape.DNum z => PInt z
  | MongoEscape.DStr s => PStr (str_of_ustr s)
  | _ => PNone
  end.

Definition sample_resource : ResourceType := {|
  get_display_name := "Alert";
  get_plural_display_name := "Alerts";
  get_alias := "Alert";
  deserialize := fun d =>
    match d with
    | MongoEscape.DMap m =>
        Ok (list_to_map ((fun kv => (str_of_ustr kv.1, scalar_of_doc kv.2))
                           <$> m))
    | _ => Raise (Foreign "TypeError")
    end;
|}.

Definition alertA : instance :=
  <["id" := PStr "507f"]> (<["name" := PStr "alertA"]> ∅).

Definition sample_manager : Manager := {|
  get_by_name := fun _ name _ =>
    Ok (if decide (name = PStr "alertA") then Some alertA else None);
  get_by_id := fun _ id _ =>
    if decide (id = PStr "507f") then Ok (Some alertA)
    else Raise (Foreign "HTTPError 404");
  get_by_ref_or_id := fun _ ref _ =>
    Ok (if decide (ref = PStr "core.alertA" \/ ref = PStr "507f")
        then Some alertA else None);
  get_all := fun _ _ => Ok [alertA];
  create := fun _ i _ => Ok (<["id" := PStr "60aa"]> i);
  update := fun _ i _ => Ok i;
  delete := fun _ _ _ => Ok tt;
|}.

Definition sample_host (d : MongoEscape.doc) : Host := {|
  isfile := fun _ path => bool_decide (path = "alert.json");
  open := fun _ _ => Ok tt;
  read := fun _ _ => Ok "...";
  json_loads := fun _ => Ok d;
  print_output := fun _ _ => Ok tt;
|}.

Definition sample_self (d : MongoEscape.doc) : Self := {|
  resource := sample_resource;
  manager := sample_manager;
  host := sample_host d;
|}.

Definition sample_args : Namespace := {|
  ns_token := PStr "s3cret";
  ns_json := false;
  ns_attr := ["all"];
  ns_width := None;
  ns_pack := PStr "core";
  ns_file := "alert.json";
  ns_name_or_id := PStr "alertA";
  ns_ref_or_id := PStr "core.alertA";
|}.

Definition delete_nonexistent_args : Namespace := {|
  ns_token := PNone; ns_json := false; ns_attr := []; ns_width := None;
  ns_pack := PNone; ns_file := ""; ns_name_or_id := PStr "nonexistent";
  ns_ref_or_id := PNone;
|}.

(** [{"name": "renamed"}], [{"id": "other", "name": "renamed"}] *)
Definition doc_without_id : MongoEscape.doc :=
  MongoEscape.DMap [(ustr "name", MongoEscape.DStr (ustr "renamed"))].
Definition doc_with_other_id : MongoEscape.doc :=
  MongoEscape.DMap [(ustr "id", MongoEscape.DStr (ustr "other"));
                    (ustr "name", MongoEscape.DStr (ustr "renamed"))].

End Resource.

(* ===================================================================== *)
(** * More of mongoescape.py: what the properties below speak of *)
(* ===================================================================== *)

Module MongoEscapeMore.
Import MongoEscape InPlace.

(** No key reachable through mapping nesting carries a reserved
    character. *)
Definition reserved_free (d : doc) : bool :=
  forallb (fun k => negb (has_reserved k)) (reachable_keys d).

(** What the escaping (resp. unescaping) pass makes of one character. *)
Definition escaped_char (c : char) : char :=
  if decide (c = FULL_STOP) then FULLWIDTH_FULL_STOP
  else if decide (c = DOLLAR_SIGN) then FULLWIDTH_DOLLAR_SIGN
  else c.

Definition unescaped_char (c : char) : char :=
  if decide (c = FULLWIDTH_FULL_STOP) then FULL_STOP
  else if decide (c = FULLWIDTH_DOLLAR_SIGN) then DOLLAR_SIGN
  else c.

(** [isinstance(value, dict)] *)
Definition is_dict (v : value) : bool :=
  match v with VDict _ => true | _ => false end.

(** [{u"a．b": 1, "c": {u"＄d": [{".": null}]}}]: a document as the store
    returns it. *)
Definition stored_doc : doc :=
  DMap [([97; 65294; 98]%N, DNum 1);
        ([99]%N, DMap [([65284; 100]%N, DSeq [DMap [([46]%N, DNull)]])])].

End MongoEscapeMore.

(* ===================================================================== *)
(** * More of resource.py: what the properties below speak of *)
(* ===================================================================== *)

Module ResourceMore.
Import Resource.

(** The keyword arguments a call on the manager was made with. *)
Definition call_kwargs (c : call) : kwargs :=
  match c with
  | GetByName _ kw | GetById _ kw | GetByRefOrId _ kw | GetAll kw
  | Create _ kw | Update _ kw | Delete _ kw => kw
  end.

(** The trace [r] continues the trace [t], and every call on the manager
    made since [t] satisfies [P]. *)
Definition calls_since (P : call -> Prop) (t r : trace) : Prop :=
  exists evs, r = t ++ evs /\ Forall P (backend_calls evs).

Definition is_get_by_ref_or_id (c : call) : bool :=
  match c with GetByRefOrId _ _ => true | _ => false end.

(** The two resolutions a class of this file has for [get_resource]. *)
Definition resolves_as_declared (cls : Class) : Prop :=
  get_resource cls = ResourceCommand.get_resource \/
  get_resource cls = ResourceCommand.get_resource_by_ref_or_id.

(** The message of [ResourceNotFoundError] in reference-or-id resolution. *)
Definition ref_not_found_message (ref_or_id : pyval) : string :=
  "Resource with id or reference " +:+ dquote +:+ py_str ref_or_id +:+ dquote
  +:+ " doesn't exist.".

(** The message of the error for a file that is not there. *)
Definition no_file_message (path : string) : string :=
  "File " +:+ dquote +:+ path +:+ dquote +:+ " does not exist.".

Definition is_not_found (e : exn) : bool :=
  match e with ResourceNotFoundError _ => true | _ => false end.

(** What the commands hand to [print_output]. *)
Definition list_rendering (args : Namespace) (instances : list instance)
  : rendering :=
  {| r_subject := instances; r_table := MultiColumnTable;
     r_attributes := ns_attr args; r_widths := ns_width args;
     r_json := ns_json args; r_attribute_display_order := None |}.

Definition get_rendering (order : list string) (args : Namespace)
    (i : instance) : rendering :=
  {| r_subject := [i]; r_table := PropertyValueTable;
     r_attributes := ns_attr args; r_widths := None;
     r_json := ns_json args; r_attribute_display_order := Some order |}.

Definition write_rendering (args : Namespace) (i : instance) : rendering :=
  {| r_subject := [i]; r_table := PropertyValueTable;
     r_attributes := ["all"]; r_widths := None; r_json := ns_json args;
     r_attribute_display_order := None |}.

(** ** More of the sample installation *)

(** [alertA] again, with a file that asks for a new name and carries the
    id of [alertA]. *)
Definition doc_with_same_id : MongoEscape.doc :=
  MongoEscape.DMap [(ustr "id", MongoEscape.DStr (ustr "507f"));
                    (ustr "name", MongoEscape.DStr (ustr "renamed"))].

(** A command line that names a file that is not there, one that names no
    resource of the backend, and one with an empty token. *)
Definition missing_file_args : Namespace := {|
  ns_token := PNone; ns_json := false; ns_attr := ["all"]; ns_width := None;
  ns_pack := PNone; ns_file := "missing.json";
  ns_name_or_id := PStr "alertA"; ns_ref_or_id := PStr "core.alertA";
|}.

Definition unknown_resource_args : Namespace := {|
  ns_token := PNone; ns_json := false; ns_attr := ["all"]; ns_width := None;
  ns_pack := PNone; ns_file := "alert.json";
  ns_name_or_id := PStr "nonexistent"; ns_ref_or_id := PStr "core.nothing";
|}.

Definition empty_token_args : Namespace := {|
  ns_token := PStr ""; ns_json := true; ns_attr := ["name"];
  ns_width := Some [10%Z]; ns_pack := PNone; ns_file := "alert.json";
  ns_name_or_id := PStr "alertA"; ns_ref_or_id := PStr "core.alertA";
|}.

(** A backend that has lost the resource between lookup and deletion, and
    one that is down. *)
Definition racing_manager : Manager := {|
  get_by_name := get_by_name sample_manager;
  get_by_id := get_by_id sample_manager;
  get_by_ref_or_id := get_by_ref_or_id sample_manager;
  get_all := get_all sample_manager;
  create := create sample_manager;
  update := update sample_manager;
  delete := fun _ _ _ => Raise (ResourceNotFoundError "gone");
|}.

Definition failing_manager : Manager := {|
  get_by_name := fun _ _ _ => Raise (Foreign "ConnectionError");
  get_by_id := fun _ _ _ => Raise (Foreign "ConnectionError");
  get_by_ref_or_id := fun _ _ _ => Raise (Foreign "ConnectionError");
  get_all := fun _ _ => Raise (Foreign "ConnectionError");
  create := fun _ _ _ => Raise (Foreign "ConnectionError");
  update := fun _ _ _ => Raise (Foreign "ConnectionError");
  delete := fun _ _ _ => Raise (Foreign "ConnectionError");
|}.

Definition self_with (m : Manager) (d : MongoEscape.doc) : Self := {|
  resource := sample_resource;
  manager := m;
  host := sample_host d;
|}.

(** ** ResourceBranch

    The part of [__init__] that deals with the command classes (lines
    61-80).  [commands] is the dictionary the caller passes (or the one
    default dictionary of the function), from subcommand name to command
    class; [self.commands] is the dictionary of the branch, from subcommand
    name to command object.  Both are objects the constructor writes to, so
    both are given and returned.  A command object is known by the class it
    was made from. *)

Module ResourceBranch.

Inductive command_class : Type :=
| ResourceListCommand
| ResourceGetCommand
| ResourceCreateCommand
| ResourceUpdateCommand
| ResourceDeleteCommand
| Subclass (name : string).   (* whatever class the caller passes *)

(** The object a class makes when called with the arguments
    [self.resource, self.app, self.subparsers]. *)
Inductive command : Type := New (cls : command_class).

(** [if key not in commands: commands[key] = cls] *)
Definition if_not_in (key : string) (cls : command_class)
    (commands : gmap string command_class) : gmap string command_class :=
  match commands !! key with
  | None => <[key := cls]> commands
  | Some _ => commands
  end.

(** [self.commands[key]] is set to the object made by the class
    [commands[key]]; [None] is the [KeyError] of [commands[key]]. *)
Definition instantiate (key : string) (commands : gmap string command_class)
    (self_commands : gmap string command) : option (gmap string command) :=
  cls ← commands !! key; Some (<[key := New cls]> self_commands).

Definition __init__ (read_only : bool) (commands : gmap string command_class)
    (self_commands : gmap string command)
  : option (gmap string command_class * gmap string command) :=
  (* Resolves if commands need to be overridden. *)
  let commands := if_not_in "list" ResourceListCommand commands in
  let commands := if_not_in "get" ResourceGetCommand commands in
  let commands := if_not_in "create" ResourceCreateCommand commands in
  let commands := if_not_in "update" ResourceUpdateCommand commands in
  let commands := if_not_in "delete" ResourceDeleteCommand commands in
  (* Instantiate commands. *)
  self_commands ← instantiate "list" commands self_commands;
  self_commands ← instantiate "get" commands self_commands;
  self_commands ←
    (if negb read_only then
       self_commands ← instantiate "create" commands self_commands;
       self_commands ← instantiate "update" commands self_commands;
       instantiate "delete" commands self_commands
     else Some self_commands);
  Some (commands, self_commands).

(** The class a subcommand gets when the caller names none. *)
Definition default_class (key : string) : option command_class :=
  if decide (key = "list") then Some ResourceListCommand
  else if decide (key = "get") then Some ResourceGetCommand
  else if decide (key = "create") then Some ResourceCreateCommand
  else if decide (key = "update") then Some ResourceUpdateCommand
  else if decide (key = "delete") then Some ResourceDeleteCommand
  else None.

Definition writes (key : string) : bool :=
  bool_decide (key ∈ ["create"; "update"; "delete"]).

End ResourceBranch.

End ResourceMore.

(* ===================================================================== *)
(** * Properties of mongoescape.py *)
(* ===================================================================== *)

Module MongoEscapeFacts.
Import MongoEscape.

(** ** Key rewriting, character by character *)

Lemma translate_key_fmap tr k :
  translate_key tr k = translate_char tr <$> k.
Proof.
  revert k. induction tr as [|t tr IH]; intros k; simpl.
  - by rewrite list_fmap_id.
  - unfold translate_key in *. simpl. rewrite IH. unfold str_replace.
    by rewrite <- list_fmap_compose.
Qed.

Ltac char_cases :=
  unfold translate_char, ESCAPE_TRANSLATION, UNESCAPE_TRANSLATION, ESCAPED,
    UNESCAPED, FULL_STOP, DOLLAR_SIGN, FULLWIDTH_FULL_STOP,
    FULLWIDTH_DOLLAR_SIGN in *;
  simpl in *; repeat case_decide; subst; try done; try lia.

Lemma esc_char_idemp c :
  translate_char ESCAPE_TRANSLATION (translate_char ESCAPE_TRANSLATION c)
  = translate_char ESCAPE_TRANSLATION c.
Proof. char_cases. Qed.

Lemma unesc_char_idemp c :
  translate_char UNESCAPE_TRANSLATION (translate_char UNESCAPE_TRANSLATION c)
  = translate_char UNESCAPE_TRANSLATION c.
Proof. char_cases. Qed.

Lemma unesc_esc_char c :
  c ∉ ESCAPED ->
  translate_char UNESCAPE_TRANSLATION (translate_char ESCAPE_TRANSLATION c) = c.
Proof.
  intros Hc.
  assert (c <> FULLWIDTH_FULL_STOP /\ c <> FULLWIDTH_DOLLAR_SIGN) as [H1 H2].
  { split; intros ->; apply Hc; unfold ESCAPED; set_solver. }
  clear Hc. char_cases.
Qed.

Lemma esc_key_idemp k : esc_key (esc_key k) = esc_key k.
Proof.
  unfold esc_key. rewrite !translate_key_fmap, <- list_fmap_compose.
  apply list_fmap_ext. intros _ c _. apply esc_char_idemp.
Qed.

Lemma unesc_key_idemp k : unesc_key (unesc_key k) = unesc_key k.
Proof.
  unfold unesc_key. rewrite !translate_key_fmap, <- list_fmap_compose.
  apply list_fmap_ext. intros _ c _. apply unesc_char_idemp.
Qed.

Lemma unesc_esc_key k : has_substitute k = false -> unesc_key (esc_key k) = k.
Proof.
  unfold has_substitute. rewrite bool_decide_eq_false, Exists_exists.
  intros Hk. unfold esc_key, unesc_key.
  rewrite !translate_key_fmap, <- list_fmap_compose.
  rewrite <- (list_fmap_id k) at 2. apply list_fmap_ext.
  intros i c Hc. simpl. apply unesc_esc_char.
  intros Hin. apply Hk. exists c. split; [|done].
  by eapply list_elem_of_lookup_2.
Qed.

(** The two entries of a table may be enumerated either way. *)
Lemma translation_order k :
  translate_key (reverse ESCAPE_TRANSLATION) k = esc_key k /\
  translate_key (reverse UNESCAPE_TRANSLATION) k = unesc_key k.
Proof.
  unfold esc_key, unesc_key. rewrite !translate_key_fmap.
  split; apply list_fmap_ext; intros _ c _; char_cases.
Qed.

(** ** Dictionaries *)

Section DictFacts.
Context {V : Type}.
Implicit Types (d : dict V) (k : ustring) (v : V).

Lemma setitem_fresh d k v : k ∉ keys d -> setitem d k v = d ++ [(k, v)].
Proof.
  unfold keys. induction d as [|[k' v'] d IH]; simpl; [done|].
  rewrite not_elem_of_cons. intros [Hne Hnin].
  rewrite decide_False by done. by rewrite IH.
Qed.

Lemma keys_setitem_present d k v : k ∈ keys d -> keys (setitem d k v) = keys d.
Proof.
  unfold keys. induction d as [|[k' v'] d IH]; simpl.
  - by rewrite elem_of_nil.
  - rewrite elem_of_cons. intros Hin. case_decide; simpl; [done|].
    f_equal. apply IH. naive_solver.
Qed.

Lemma keys_setitem d k v :
  keys (setitem d k v) = if decide (k ∈ keys d) then keys d else keys d ++ [k].
Proof.
  case_decide.
  - by apply keys_setitem_present.
  - rewrite setitem_fresh by done. unfold keys. by rewrite fmap_app.
Qed.

Lemma NoDup_keys_setitem d k v :
  NoDup (keys d) -> NoDup (keys (setitem d k v)).
Proof.
  intros Hd. rewrite keys_setitem. case_decide; [done|].
  apply NoDup_app. split_and!; [done| |apply NoDup_singleton].
  intros x Hx. rewrite list_elem_of_singleton. by intros ->.
Qed.

Lemma values_setitem d k v x : x ∈ (setitem d k v).*2 -> x = v \/ x ∈ d.*2.
Proof.
  induction d as [|[k' v'] d IH]; simpl.
  - rewrite list_elem_of_singleton. auto.
  - case_decide; simpl; rewrite !elem_of_cons; naive_solver.
Qed.

Lemma delitem_sublist d k : delitem d k `sublist_of` d.
Proof.
  induction d as [|[k' v'] d IH]; simpl; [done|].
  case_decide; [by apply sublist_cons | by apply sublist_skip].
Qed.

Lemma keys_delitem_sublist d k : keys (delitem d k) `sublist_of` keys d.
Proof. unfold keys. apply fmap_sublist, delitem_sublist. Qed.

Lemma NoDup_keys_delitem d k : NoDup (keys d) -> NoDup (keys (delitem d k)).
Proof. intros Hd. eapply sublist_NoDup; [done|apply keys_delitem_sublist]. Qed.

Lemma keys_delitem_gone d k : NoDup (keys d) -> k ∉ keys (delitem d k).
Proof.
  unfold keys. induction d as [|[k' v'] d IH]; simpl.
  - intros _. apply not_elem_of_nil.
  - rewrite NoDup_cons. intros [Hk' Hd]. case_decide; subst; simpl; [done|].
    rewrite not_elem_of_cons. auto.
Qed.

Lemma keys_delitem_other d k k' :
  k' <> k -> k' ∈ keys d -> k' ∈ keys (delitem d k).
Proof.
  unfold keys. intros Hne. induction d as [|[k0 v0] d IH]; simpl; [done|].
  rewrite elem_of_cons. intros Hin. case_decide; subst; simpl.
  - naive_solver.
  - rewrite elem_of_cons. naive_solver.
Qed.

Lemma delitem_app_l d d' k :
  k ∈ keys d -> delitem (d ++ d') k = delitem d k ++ d'.
Proof.
  unfold keys. induction d as [|[k0 v0] d IH]; simpl.
  - by rewrite elem_of_nil.
  - rewrite elem_of_cons. intros Hin. case_decide; simpl; [done|].
    f_equal. apply IH. naive_solver.
Qed.

Lemma delitem_Permutation d k v :
  NoDup (keys d) -> (k, v) ∈ d -> d ≡ₚ (k, v) :: delitem d k.
Proof.
  unfold keys. induction d as [|[k0 v0] d IH]; simpl.
  - by rewrite elem_of_nil.
  - rewrite NoDup_cons, elem_of_cons. intros [Hk0 Hd] Hin. case_decide; subst.
    + destruct Hin as [[= <-]|Hin]; [done|].
      exfalso. apply Hk0. apply list_elem_of_fmap. by exists (k, v).
    + destruct Hin as [[= -> ->]|Hin]; [done|].
      rewrite (IH Hd Hin) at 1. apply Permutation_swap.
Qed.

Lemma getitem_None d k : getitem d k = None <-> k ∉ keys d.
Proof.
  unfold keys. induction d as [|[k0 v0] d IH]; simpl.
  - split; [intros _; apply not_elem_of_nil | done].
  - rewrite not_elem_of_cons. case_decide; subst; naive_solver.
Qed.

Lemma getitem_Some d k v :
  NoDup (keys d) -> getitem d k = Some v <-> (k, v) ∈ d.
Proof.
  unfold keys. induction d as [|[k0 v0] d IH]; simpl.
  - intros _. rewrite elem_of_nil. naive_solver.
  - rewrite NoDup_cons, elem_of_cons. intros [Hk0 Hd]. case_decide; subst.
    + split; [naive_solver|]. intros [[= ->]|Hin]; [done|].
      exfalso. apply Hk0. apply list_elem_of_fmap. by exists (k, v).
    + rewrite (IH Hd). naive_solver.
Qed.

Lemma getitem_Permutation d d' k :
  NoDup (keys d) -> d ≡ₚ d' -> getitem d k = getitem d' k.
Proof.
  intros Hd Hp.
  assert (NoDup (keys d')) as Hd' by (unfold keys; by rewrite <- Hp).
  destruct (getitem d k) as [v|] eqn:E; symmetry.
  - apply getitem_Some; [done|]. rewrite <- Hp. by apply getitem_Some.
  - apply getitem_None. apply getitem_None in E. unfold keys. by rewrite <- Hp.
Qed.

End DictFacts.

Lemma getitem_fmap {V W} (h : V -> W) (d : dict V) k :
  getitem ((fun kv => (kv.1, h kv.2)) <$> d) k = h <$> getitem d k.
Proof.
  induction d as [|[k0 v0] d IH]; simpl; [done|]. by case_decide.
Qed.

Lemma getitem_fmap_key {V} (f : ustring -> ustring) (d : dict V) k :
  (forall k1 k2, k1 ∈ keys d -> k2 ∈ keys d -> f k1 = f k2 -> k1 = k2) ->
  k ∈ keys d ->
  getitem ((fun kv => (f kv.1, kv.2)) <$> d) (f k) = getitem d k.
Proof.
  unfold keys. induction d as [|[k0 v0] d IH]; simpl; [done|].
  intros Hinj Hk. repeat case_decide; subst; try done.
  - exfalso. apply H0. apply Hinj; [set_solver..|done].
  - apply IH; [|set_solver]. intros k1 k2 H1 H2. apply Hinj; set_solver.
Qed.

(** ** The rewriting of one mapping *)

Lemma setitem_fmap {V W} (h : V -> W) (d : dict V) k v :
  setitem ((fun kv => (kv.1, h kv.2)) <$> d) k (h v)
  = (fun kv => (kv.1, h kv.2)) <$> setitem d k v.
Proof.
  induction d as [|[k0 v0] d IH]; simpl; [done|].
  case_decide; simpl; [done|]. f_equal. apply IH.
Qed.

Lemma delitem_fmap {V W} (h : V -> W) (d : dict V) k :
  delitem ((fun kv => (kv.1, h kv.2)) <$> d) k
  = (fun kv => (kv.1, h kv.2)) <$> delitem d k.
Proof.
  induction d as [|[k0 v0] d IH]; simpl; [done|].
  case_decide; simpl; [done|]. f_equal. apply IH.
Qed.

Section RenameFacts.
Variable tr : list (char * char).
#[local] Abbreviation f := (translate_key tr).

Lemma rename_item_fixed {V} (acc : dict V) kv :
  f kv.1 = kv.1 -> rename_item tr acc kv = acc.
Proof. intros Hk. unfold rename_item. by rewrite decide_False by naive_solver. Qed.

Lemma rename_item_changed {V} (acc : dict V) kv :
  f kv.1 <> kv.1 ->
  rename_item tr acc kv = delitem (setitem acc (f kv.1) kv.2) kv.1.
Proof. intros Hk. unfold rename_item. by rewrite decide_True. Qed.

Lemma rename_item_fmap {V W} (h : V -> W) (acc : dict V) kv :
  rename_item tr ((fun kv => (kv.1, h kv.2)) <$> acc) (kv.1, h kv.2)
  = (fun kv => (kv.1, h kv.2)) <$> rename_item tr acc kv.
Proof.
  unfold rename_item. simpl. case_decide; [|done].
  by rewrite setitem_fmap, delitem_fmap.
Qed.

(** Rewriting keys commutes with any change of the values: the loop moves
    values around without looking at them. *)
Lemma rename_keys_fmap {V W} (h : V -> W) (m : dict V) :
  rename_keys tr ((fun kv => (kv.1, h kv.2)) <$> m)
  = (fun kv => (kv.1, h kv.2)) <$> rename_keys tr m.
Proof.
  unfold rename_keys, items. generalize m at 2 4 as acc.
  induction m as [|kv m IH]; intros acc; simpl; [done|].
  by rewrite rename_item_fmap, IH.
Qed.

Lemma rename_keys_fixed {V} (m : dict V) :
  Forall (fun k => f k = k) (keys m) -> rename_keys tr m = m.
Proof.
  unfold rename_keys, items, keys. generalize m at 3 4 as acc.
  induction m as [|kv m IH]; intros acc; simpl; [done|].
  rewrite Forall_cons. intros [Hk Hm]. rewrite rename_item_fixed by done. auto.
Qed.

Lemma rename_item_values {V} (acc : dict V) kv x :
  x ∈ (rename_item tr acc kv).*2 -> x = kv.2 \/ x ∈ acc.*2.
Proof.
  unfold rename_item. case_decide; [|auto].
  intros Hx. eapply values_setitem.
  eapply elem_of_sublist; [done|]. apply fmap_sublist, delitem_sublist.
Qed.

(** No value is invented: whatever the result holds was a value of the
    mapping. *)
Lemma rename_keys_values {V} (m : dict V) x :
  x ∈ (rename_keys tr m).*2 -> x ∈ m.*2.
Proof.
  unfold rename_keys, items.
  enough (forall todo acc, x ∈ (fold_left (rename_item tr) todo acc).*2 ->
                          x ∈ todo.*2 \/ x ∈ acc.*2) as H.
  { intros Hx. destruct (H _ _ Hx); done. }
  induction todo as [|kv todo IH]; intros acc; simpl; [auto|].
  intros [Hx|Hx]%IH; [set_solver|].
  apply rename_item_values in Hx. set_solver.
Qed.

Lemma keys_setitem_mono {V} (d : dict V) k v k' :
  k' ∈ keys d -> k' ∈ keys (setitem d k v).
Proof.
  intros Hk'. rewrite keys_setitem. case_decide; [done|].
  apply elem_of_app. by left.
Qed.

Lemma rename_item_keeps {V} (acc : dict V) kv k :
  k <> kv.1 -> k ∈ keys acc -> k ∈ keys (rename_item tr acc kv).
Proof.
  intros Hne Hk. unfold rename_item. case_decide; [|done].
  by apply keys_delitem_other, keys_setitem_mono.
Qed.

Lemma fold_rename_keeps {V} (done acc : dict V) k :
  k ∉ keys done -> k ∈ keys acc ->
  k ∈ keys (fold_left (rename_item tr) done acc).
Proof.
  revert acc. induction done as [|kv done IH]; intros acc; simpl; [done|].
  rewrite not_elem_of_cons. intros [Hne Hnin] Hk.
  by apply IH, rename_item_keeps.
Qed.

(** The deletion of line 40 finds its key: [oldkey] is still a key of
    [work_field] when its turn comes, whatever the turns before it did. *)
Lemma oldkey_present_at_del {V} (m done todo : dict V) oldkey value :
  NoDup (keys m) ->
  m = done ++ (oldkey, value) :: todo ->
  oldkey ∈ keys (setitem (fold_left (rename_item tr) done m)
                         (f oldkey) value).
Proof.
  intros Hm ->. apply keys_setitem_mono, fold_rename_keeps.
  - unfold keys in *. rewrite fmap_app, fmap_cons in Hm.
    apply NoDup_app in Hm as (_ & Hm & _). intros Hin.
    apply (Hm _ Hin). simpl. apply elem_of_cons. by left.
  - unfold keys. rewrite fmap_app, fmap_cons. simpl. set_solver.
Qed.

(** From here on the rewriting of keys is idempotent, as both tables make
    it (lemmas [esc_key_idemp] and [unesc_key_idemp]). *)
Hypothesis f_idemp : forall k, f (f k) = f k.

Lemma rename_item_image {V} (acc : dict V) kv todo :
  NoDup (keys acc) ->
  (forall k, k ∈ keys acc -> f k = k \/ k ∈ keys (kv :: todo)) ->
  NoDup (keys (rename_item tr acc kv)) /\
  (forall k, k ∈ keys (rename_item tr acc kv) -> f k = k \/ k ∈ keys todo).
Proof.
  intros Hnd Hacc. destruct (decide (f kv.1 = kv.1)) as [Hfix|Hch].
  - rewrite rename_item_fixed by done. split; [done|].
    intros k [Hk|Hk]%Hacc; [by left|].
    unfold keys in Hk. rewrite fmap_cons, elem_of_cons in Hk.
    destruct Hk as [->|Hk]; [by left|by right].
  - rewrite rename_item_changed by done.
    pose proof (NoDup_keys_setitem acc (f kv.1) kv.2 Hnd) as Hnd'.
    split; [by apply NoDup_keys_delitem|].
    intros k Hk. destruct (decide (k = kv.1)) as [->|Hne].
    { by apply keys_delitem_gone in Hk. }
    eapply elem_of_sublist in Hk; [|apply keys_delitem_sublist].
    rewrite keys_setitem in Hk. case_decide.
    + apply Hacc in Hk as [Hk|Hk]; [by left|].
      unfold keys in Hk. rewrite fmap_cons, elem_of_cons in Hk. naive_solver.
    + rewrite elem_of_app, list_elem_of_singleton in Hk.
      destruct Hk as [Hk| ->]; [|by left].
      apply Hacc in Hk as [Hk|Hk]; [by left|].
      unfold keys in Hk. rewrite fmap_cons, elem_of_cons in Hk. naive_solver.
Qed.

Lemma fold_rename_image {V} (todo acc : dict V) :
  NoDup (keys acc) ->
  (forall k, k ∈ keys acc -> f k = k \/ k ∈ keys todo) ->
  NoDup (keys (fold_left (rename_item tr) todo acc)) /\
  Forall (fun k => f k = k) (keys (fold_left (rename_item tr) todo acc)).
Proof.
  revert acc. induction todo as [|kv todo IH]; intros acc Hnd Hacc; simpl.
  - split; [done|]. apply Forall_forall. intros k [Hk|Hk]%Hacc; [done|].
    by apply elem_of_nil in Hk.
  - destruct (rename_item_image acc kv todo Hnd Hacc) as [Hnd' Hacc'].
    by apply IH.
Qed.

(** After the rewriting every key is one the rewriting leaves alone. *)
Lemma rename_keys_image {V} (m : dict V) :
  NoDup (keys m) ->
  NoDup (keys (rename_keys tr m)) /\
  Forall (fun k => f k = k) (keys (rename_keys tr m)).
Proof. intros Hm. apply fold_rename_image; auto. Qed.

Lemma keys_fmap_key {V} (g : ustring -> ustring) (d : dict V) :
  keys ((fun kv => (g kv.1, kv.2)) <$> d) = g <$> keys d.
Proof. unfold keys. rewrite <- !list_fmap_compose. done. Qed.

Lemma keys_fmap_entries {V W} (g : ustring -> ustring) (h : V -> W)
    (d : dict V) :
  keys ((fun kv => (g kv.1, h kv.2)) <$> d) = g <$> keys d.
Proof. unfold keys. rewrite <- !list_fmap_compose. done. Qed.

Lemma fold_rename_Permutation {V} (todo done acc : dict V) :
  NoDup (keys acc) ->
  NoDup (f <$> keys (done ++ todo)) ->
  acc ≡ₚ ((fun kv => (f kv.1, kv.2)) <$> done) ++ todo ->
  fold_left (rename_item tr) todo acc
  ≡ₚ (fun kv => (f kv.1, kv.2)) <$> (done ++ todo).
Proof.
  revert done acc.
  induction todo as [|[k v] todo IH]; intros done acc Hnd Hinj Hacc; simpl.
  - by rewrite app_nil_r in *.
  - rewrite cons_middle, (assoc_L (++)) in Hinj |- *.
    apply IH; clear IH; [|done|].
    { destruct (decide (f k = k)) as [Hfix|Hch].
      - by rewrite rename_item_fixed.
      - rewrite rename_item_changed by done.
        by apply NoDup_keys_delitem, NoDup_keys_setitem. }
    rewrite fmap_app. simpl.
    destruct (decide (f k = k)) as [Hfix|Hch].
    { rewrite rename_item_fixed by done. rewrite Hacc, Hfix.
      by rewrite <- (assoc_L (++)). }
    rewrite rename_item_changed by done. simpl.
    (* the new key is fresh *)
    assert (f k ∉ keys acc) as Hfresh.
    { unfold keys in *. rewrite Hacc, fmap_app, fmap_cons. simpl.
      rewrite <- (assoc_L (++)), !fmap_app in Hinj. simpl in Hinj.
      apply NoDup_app in Hinj as (_ & Hdisj & Hinj).
      apply NoDup_cons in Hinj as [Hk _].
      rewrite elem_of_app, elem_of_cons. intros [Hin|[Heq|Hin]].
      - pose proof (keys_fmap_key f done) as E. unfold keys in E.
        rewrite E in Hin. apply (Hdisj _ Hin). set_solver.
      - done.
      - apply Hk. rewrite <- f_idemp. by apply list_elem_of_fmap_2. }
    rewrite setitem_fresh by done.
    assert ((k, v) ∈ acc) as Hkv by (rewrite Hacc; set_solver).
    rewrite delitem_app_l
      by (apply list_elem_of_fmap; by exists (k, v)).
    pose proof (delitem_Permutation acc k v Hnd Hkv) as Hdel.
    rewrite Hacc in Hdel at 1.
    rewrite <- Permutation_middle in Hdel.
    apply Permutation_cons_inv in Hdel. rewrite <- Hdel.
    rewrite <- !(assoc_L (++)). apply Permutation_app_head.
    apply Permutation_app_comm.
Qed.

(** When no two keys of a mapping are rewritten to the same spelling, the
    rewriting keeps one entry per entry: the key rewritten and the value as
    it was.  Only the order may differ. *)
Lemma rename_keys_Permutation {V} (m : dict V) :
  NoDup (keys m) -> NoDup (f <$> keys m) ->
  rename_keys tr m ≡ₚ (fun kv => (f kv.1, kv.2)) <$> m.
Proof.
  intros Hm Hinj. apply (fold_rename_Permutation m [] m); done.
Qed.

End RenameFacts.

(** ** Whole documents *)

Lemma forallb_Forall {A} (p : A -> bool) (l : list A) :
  forallb p l = true <-> Forall (fun x => p x = true) l.
Proof.
  induction l as [|x l IH]; simpl.
  - split; [constructor|done].
  - rewrite andb_true_iff, Forall_cons, IH. done.
Qed.

Lemma wf_DMap m :
  wf (DMap m) = true <->
  NoDup (keys m) /\ Forall (fun kv => wf kv.2 = true) m.
Proof.
  simpl. by rewrite andb_true_iff, bool_decide_eq_true, forallb_Forall.
Qed.

Lemma collision_free_DMap tr m :
  collision_free tr (DMap m) = true <->
  NoDup (translate_key tr <$> keys m) /\
  Forall (fun kv => collision_free tr kv.2 = true) m.
Proof.
  simpl. by rewrite andb_true_iff, bool_decide_eq_true, forallb_Forall.
Qed.

Lemma elem_of_concat {A} (x : A) (ls : list (list A)) :
  x ∈ concat ls <-> exists l, x ∈ l /\ l ∈ ls.
Proof.
  induction ls as [|l0 ls IH]; simpl.
  - split; [by intros ?%elem_of_nil|]. by intros (l & _ & ?%elem_of_nil).
  - rewrite elem_of_app, IH. split.
    + intros [H|(l & H1 & H2)]; [exists l0|exists l]; set_solver.
    + intros (l & H1 & [->|H2]%elem_of_cons); eauto.
Qed.

Lemma elem_of_reachable_DMap m x :
  x ∈ reachable (DMap m) <->
  x = DMap m \/ exists kv, kv ∈ m /\ x ∈ reachable kv.2.
Proof.
  simpl. rewrite elem_of_cons. apply or_iff_compat_l.
  rewrite elem_of_concat. split.
  - intros (l & Hx & (kv & -> & Hkv)%list_elem_of_fmap). eauto.
  - intros (kv & Hkv & Hx). eexists. split; [done|].
    apply list_elem_of_fmap. eauto.
Qed.

Lemma Forall_reachable_keys_DMap (P : ustring -> Prop) m :
  Forall P (reachable_keys (DMap m)) <->
  Forall P (keys m) /\ Forall (fun kv => Forall P (reachable_keys kv.2)) m.
Proof.
  simpl. rewrite Forall_app. apply and_iff_compat_l.
  induction m as [|kv m IH]; simpl.
  - split; constructor.
  - rewrite Forall_app, Forall_cons, IH. done.
Qed.

Section TranslateFacts.
Variable tr : list (char * char).
#[local] Abbreviation f := (translate_key tr).
#[local] Abbreviation T := (_translate_chars tr).

Lemma translate_not_map d : is_map d = false -> T d = d.
Proof. by destruct d. Qed.

(** The entries of the result, read the other way round: keys are
    rewritten, then the values that remain are translated. *)
Lemma translate_DMap m :
  T (DMap m) = DMap ((fun kv => (kv.1, T kv.2)) <$> rename_keys tr m).
Proof.
  rewrite <- rename_keys_fmap. reflexivity.
Qed.

Lemma translate_fixed D :
  Forall (fun k => f k = k) (reachable_keys D) -> T D = D.
Proof.
  induction D as [| | | | |m IH] using doc_ind; try done.
  rewrite Forall_reachable_keys_DMap. intros [Hk Hv]. simpl. f_equal.
  assert (((fun kv => (kv.1, T kv.2)) <$> m) = m) as ->.
  { clear Hk. induction m as [|[k v] m IHm]; [done|].
    apply Forall_cons in IH as [IH1 IH2]. apply Forall_cons in Hv as [Hv1 Hv2].
    rewrite fmap_cons. simpl in *. rewrite IH1 by done. f_equal. auto. }
  by apply rename_keys_fixed.
Qed.

(** A value that is not a mapping and shows in the result was in the
    input, as it is. *)
Lemma translate_reachable_inv D x :
  is_map x = false -> x ∈ reachable (T D) -> x ∈ reachable D.
Proof.
  intros Hx. induction D as [| | | | |m IH] using doc_ind; try done.
  rewrite translate_DMap, !elem_of_reachable_DMap.
  intros [->|(kv & Hkv & Hin)]; [done|]. right.
  apply list_elem_of_fmap in Hkv as ([k v] & -> & Hkv). simpl in Hin.
  assert (v ∈ m.*2) as Hv.
  { apply rename_keys_values with tr. apply list_elem_of_fmap.
    by exists (k, v). }
  apply list_elem_of_fmap in Hv as (kv & -> & Hkv').
  exists kv. split; [done|].
  rewrite Forall_forall in IH. by apply IH.
Qed.

Hypothesis f_idemp : forall k, f (f k) = f k.

Lemma wf_translate D : wf D = true -> wf (T D) = true.
Proof.
  induction D as [| | | | |m IH] using doc_ind; try done.
  rewrite translate_DMap, !wf_DMap. intros [Hk Hv].
  destruct (rename_keys_image tr f_idemp m Hk) as [Hnd _]. split.
  - unfold keys in *. rewrite <- list_fmap_compose. done.
  - apply Forall_fmap, Forall_forall. intros [k v] Hkv. simpl.
    assert (v ∈ m.*2) as Hin.
    { apply rename_keys_values with tr. apply list_elem_of_fmap.
      by exists (k, v). }
    apply list_elem_of_fmap in Hin as (kv & -> & Hkv').
    rewrite Forall_forall in IH, Hv. by apply IH, Hv.
Qed.

(** After a pass, no key reachable through mapping nesting is one the pass
    would rewrite. *)
Lemma translate_image D :
  wf D = true -> Forall (fun k => f k = k) (reachable_keys (T D)).
Proof.
  induction D as [| | | | |m IH] using doc_ind; try (intros; constructor).
  rewrite translate_DMap, wf_DMap, Forall_reachable_keys_DMap.
  intros [Hk Hv].
  destruct (rename_keys_image tr f_idemp m Hk) as [_ Hfix]. split.
  - unfold keys in *. rewrite <- list_fmap_compose. done.
  - apply Forall_fmap, Forall_forall. intros [k v] Hkv. simpl.
    assert (v ∈ m.*2) as Hin.
    { apply rename_keys_values with tr. apply list_elem_of_fmap.
      by exists (k, v). }
    apply list_elem_of_fmap in Hin as (kv & -> & Hkv').
    rewrite Forall_forall in IH, Hv. by apply IH, Hv.
Qed.

Lemma translate_idemp D : wf D = true -> T (T D) = T D.
Proof. intros HD. by apply translate_fixed, translate_image. Qed.

(** The entries of a mapping whose keys do not collide. *)
Lemma translate_entries m :
  NoDup (keys m) -> NoDup (f <$> keys m) ->
  exists m', T (DMap m) = DMap m' /\
             m' ≡ₚ (fun kv => (f kv.1, T kv.2)) <$> m.
Proof.
  intros Hk Hinj. eexists. split; [apply translate_DMap|].
  rewrite (rename_keys_Permutation tr f_idemp m Hk Hinj).
  by rewrite <- list_fmap_compose.
Qed.

(** Without collisions nothing is lost either: a value that is not a
    mapping stays reachable. *)
Lemma translate_reachable D x :
  wf D = true -> collision_free tr D = true -> is_map x = false ->
  x ∈ reachable D -> x ∈ reachable (T D).
Proof.
  intros HD HC Hx. induction D as [| | | | |m IH] using doc_ind; try done.
  apply wf_DMap in HD as [Hk Hv].
  apply collision_free_DMap in HC as [Hinj HC].
  destruct (translate_entries m Hk Hinj) as (m' & -> & Hm').
  rewrite !elem_of_reachable_DMap.
  intros [->|(kv & Hkv & Hin)]; [done|]. right.
  exists (f kv.1, T kv.2). split.
  - rewrite Hm'. apply list_elem_of_fmap. by exists kv.
  - rewrite Forall_forall in IH, Hv, HC. simpl. apply IH; auto.
Qed.

End TranslateFacts.

(** ** The two passes *)

Lemma substitute_free_DMap m :
  substitute_free (DMap m) = true <->
  Forall (fun k => has_substitute k = false) (keys m) /\
  Forall (fun kv => substitute_free kv.2 = true) m.
Proof.
  unfold substitute_free. rewrite forallb_Forall, Forall_reachable_keys_DMap.
  setoid_rewrite forallb_Forall. setoid_rewrite negb_true_iff. done.
Qed.

Lemma esc_key_NoDup ks :
  Forall (fun k => has_substitute k = false) ks ->
  NoDup ks -> NoDup (esc_key <$> ks).
Proof.
  rewrite Forall_forall. intros Hks. apply NoDup_fmap_2_strong.
  intros k1 k2 H1 H2 Heq.
  rewrite <- (unesc_esc_key k1), <- (unesc_esc_key k2) by auto.
  by rewrite Heq.
Qed.

(** C10.  [escape_chars] and [unescape_chars] are each idempotent: a second
    pass of the same kind changes nothing, since what a pass writes is never
    a character that pass replaces. *)
Theorem escape_unescape_idempotent D :
  wf D = true ->
  escape_chars (escape_chars D) = escape_chars D /\
  unescape_chars (unescape_chars D) = unescape_chars D.
Proof.
  intros HD. split.
  - apply translate_idemp; [apply esc_key_idemp|done].
  - apply translate_idemp; [apply unesc_key_idemp|done].
Qed.

Lemma escape_unescape_idempotent_witness :
  wf sample_doc = true /\
  (escape_chars (escape_chars sample_doc) = escape_chars sample_doc /\
   unescape_chars (unescape_chars sample_doc) = unescape_chars sample_doc).
Proof.
  split; [reflexivity|].
  apply (escape_unescape_idempotent sample_doc). reflexivity.
Defined.

(** C1, as stated, fails on a key that already spells a substitute:
    [{u"．": 1}] comes back as [{".": 1}]. *)
Lemma roundtrip_counterexample :
  wf substitute_doc = true /\
  unescape_chars (escape_chars substitute_doc) = DMap [([FULL_STOP], DNum 1)] /\
  ~ doc_equiv (unescape_chars (escape_chars substitute_doc)) substitute_doc.
Proof.
  split; [reflexivity|]. split; [reflexivity|].
  assert (forall a b, doc_equiv a b ->
            a = DMap [([FULL_STOP], DNum 1)] -> b = substitute_doc -> False)
    as G.
  { intros a b [d Hd|m1 m2 Hk] Ha Hb.
    - subst. discriminate Hb.
    - injection Ha as ->. injection Hb as ->.
      specialize (Hk [FULLWIDTH_FULL_STOP]). inversion Hk. }
  intros H. by eapply G.
Qed.

(** ** The order of enumeration

    A [dict] of Python 2 enumerates its entries in an order of its own.
    Where keys do not collide the order does not matter: two documents
    that are equal as Python compares them are translated to documents
    that are equal as Python compares them. *)

Lemma getitem_elem_of {V} (d : dict V) k v : getitem d k = Some v -> (k, v) ∈ d.
Proof.
  induction d as [|[k0 v0] d IH]; simpl; [done|].
  case_decide; [intros [= ->]; subst; by left|]. intros ?. right. auto.
Qed.

Lemma doc_equiv_refl d : doc_equiv d d.
Proof.
  induction d as [| | | | |m IH] using doc_ind; try (by apply equiv_other).
  apply equiv_map. intros k. destruct (getitem m k) as [v|] eqn:E;
    constructor.
  apply getitem_elem_of in E. rewrite Forall_forall in IH. by apply (IH (k, v)).
Qed.

Lemma doc_equiv_keys m1 m2 :
  doc_equiv (DMap m1) (DMap m2) -> forall k, k ∈ keys m1 <-> k ∈ keys m2.
Proof.
  intros H k. inversion H as [? Hd|? ? Hk]; subst; [done|].
  specialize (Hk k).
  destruct (getitem m1 k) eqn:E1, (getitem m2 k) eqn:E2; inversion Hk.
  - split; intros _.
    + apply getitem_elem_of in E2. apply list_elem_of_fmap. by eexists (_, _).
    + apply getitem_elem_of in E1. apply list_elem_of_fmap. by eexists (_, _).
  - apply getitem_None in E1, E2. tauto.
Qed.

Theorem translate_order_independent tr d1 :
  (forall k, translate_key tr (translate_key tr k) = translate_key tr k) ->
  forall d2,
    wf d1 = true -> wf d2 = true -> collision_free tr d1 = true ->
    doc_equiv d1 d2 ->
    doc_equiv (_translate_chars tr d1) (_translate_chars tr d2).
Proof.
  intros Hidem.
  induction d1 as [| | | | |m1 IH] using doc_ind; intros d2 Hwf1 Hwf2 Hcf Heq;
    try (inversion Heq; subst; by apply equiv_other).
  inversion Heq as [? Hd|? m2 Hk]; subst; [done|].
  apply wf_DMap in Hwf1 as [Hk1 Hv1]. apply wf_DMap in Hwf2 as [Hk2 Hv2].
  apply collision_free_DMap in Hcf as [Hinj1 Hcf].
  assert (keys m1 ≡ₚ keys m2) as Hperm.
  { apply NoDup_Permutation; [done..|]. by apply doc_equiv_keys. }
  assert (NoDup (translate_key tr <$> keys m2)) as Hinj2 by by rewrite <- Hperm.
  destruct (translate_entries tr Hidem m1 Hk1 Hinj1) as (m1' & E1 & Hm1).
  destruct (translate_entries tr Hidem m2 Hk2 Hinj2) as (m2' & E2 & Hm2).
  assert (NoDup (keys m1')) as W1.
  { assert (wf (DMap m1') = true) as W
      by (rewrite <- E1; apply wf_translate; [done|by apply wf_DMap]).
    by apply wf_DMap in W as [? _]. }
  assert (NoDup (keys m2')) as W2.
  { assert (wf (DMap m2') = true) as W
      by (rewrite <- E2; apply wf_translate; [done|by apply wf_DMap]).
    by apply wf_DMap in W as [? _]. }
  rewrite E1, E2. apply equiv_map. intros k'.
  rewrite (getitem_Permutation m1' _ k' W1 Hm1),
    (getitem_Permutation m2' _ k' W2 Hm2).
  destruct (decide (k' ∈ translate_key tr <$> keys m1)) as [Hin|Hnin].
  - apply list_elem_of_fmap in Hin as (k & -> & Hin).
    assert (k ∈ keys m2) as Hin2 by by rewrite <- Hperm.
    pose proof (Hk k) as Hkk.
    assert (forall (m : dict doc), NoDup (translate_key tr <$> keys m) ->
              k ∈ keys m ->
              getitem ((fun kv => (translate_key tr kv.1,
                                   _translate_chars tr kv.2)) <$> m)
                      (translate_key tr k)
              = _translate_chars tr <$> getitem m k) as Hget.
    { clear. intros m Hinj Hk. unfold keys in *.
      induction m as [|[k0 v0] m IHm]; simpl; [done|].
      simpl in Hinj. apply NoDup_cons in Hinj as [Hk0 Hinj].
      destruct (decide (k0 = k)) as [->|Hne].
      - by rewrite decide_True.
      - rewrite decide_False.
        + apply IHm; [done|]. simpl in Hk. apply elem_of_cons in Hk.
          by destruct Hk.
        + intros Heq. apply Hk0. rewrite Heq. apply list_elem_of_fmap_2.
          simpl in Hk. apply elem_of_cons in Hk. by destruct Hk. }
    rewrite !Hget by done.
    destruct (getitem m1 k) as [v1|] eqn:G1, (getitem m2 k) as [v2|] eqn:G2;
      inversion Hkk; subst; constructor.
    apply getitem_elem_of in G1, G2.
    rewrite Forall_forall in IH, Hv1, Hv2, Hcf.
    apply (IH (k, v1) G1 v2);
      [by apply (Hv1 (k, v1))|by apply (Hv2 (k, v2))|by apply (Hcf (k, v1))|
       done].
  - assert (forall (m : dict doc), k' ∉ translate_key tr <$> keys m ->
              getitem ((fun kv => (translate_key tr kv.1,
                                   _translate_chars tr kv.2)) <$> m) k'
              = None) as Hnone.
    { intros m Hm. apply getitem_None. by rewrite keys_fmap_entries. }
    rewrite !Hnone; [constructor| |done]. by rewrite <- Hperm.
Qed.

Lemma doc_equiv_sym d1 : forall d2, doc_equiv d1 d2 -> doc_equiv d2 d1.
Proof.
  induction d1 as [| | | | |m1 IH] using doc_ind; intros d2 Heq;
    try (inversion Heq; subst; by apply equiv_other).
  inversion Heq as [? Hd|? m2 Hk]; subst; [done|].
  apply equiv_map. intros k. specialize (Hk k).
  destruct (getitem m1 k) as [v1|] eqn:G1, (getitem m2 k) as [v2|] eqn:G2;
    inversion Hk; subst; constructor.
  apply getitem_elem_of in G1. rewrite Forall_forall in IH.
  by apply (IH (k, v1) G1).
Qed.

Lemma doc_equiv_trans d1 :
  forall d2 d3, doc_equiv d1 d2 -> doc_equiv d2 d3 -> doc_equiv d1 d3.
Proof.
  induction d1 as [| | | | |m1 IH] using doc_ind; intros d2 d3 H12 H23;
    try (inversion H12; subst; done).
  inversion H12 as [? Hd|? m2 Hk]; subst; [done|].
  inversion H23 as [? Hd|? m3 Hk']; subst; [done|].
  apply equiv_map. intros k. specialize (Hk k). specialize (Hk' k).
  destruct (getitem m1 k) as [v1|] eqn:G1, (getitem m2 k) as [v2|] eqn:G2,
    (getitem m3 k) as [v3|] eqn:G3;
    inversion Hk; inversion Hk'; subst; constructor.
  apply getitem_elem_of in G1. rewrite Forall_forall in IH.
  by apply (IH (k, v1) G1 v2).
Qed.

Lemma collision_free_escape d :
  wf d = true -> substitute_free d = true ->
  collision_free UNESCAPE_TRANSLATION (escape_chars d) = true.
Proof.
  induction d as [| | | | |m IH] using doc_ind; try done.
  intros Hwf Hfree. apply wf_DMap in Hwf as [Hk Hwf].
  apply substitute_free_DMap in Hfree as [Hsub Hfree].
  destruct (translate_entries ESCAPE_TRANSLATION esc_key_idemp m Hk)
    as (m1 & E1 & Hm1); [by apply esc_key_NoDup|].
  unfold escape_chars. rewrite E1. apply collision_free_DMap. split.
  - unfold keys. rewrite Hm1.
    fold (keys ((fun kv : ustring * doc =>
                   (translate_key ESCAPE_TRANSLATION kv.1,
                    _translate_chars ESCAPE_TRANSLATION kv.2)) <$> m)).
    rewrite keys_fmap_entries, <- list_fmap_compose.
    erewrite Forall_fmap_ext_1; [by rewrite list_fmap_id|].
    eapply Forall_impl; [exact Hsub|]. intros k. apply unesc_esc_key.
  - rewrite Hm1. apply Forall_fmap, Forall_forall. intros kv Hkv. simpl.
    rewrite Forall_forall in IH, Hwf, Hfree. by apply IH; auto.
Qed.

(** C1, amended.  For every well-formed document in which no key reachable
    through mapping nesting contains a substitute character (U+FF0E,
    U+FF04), unescaping the escaped document gives the same keys and the same
    value under each key, at every depth of mapping nesting; values that are
    not mappings, sequences and all they contain among them, come back
    identical.  This holds whatever order the mappings of the escaped
    document enumerate their entries in when the second pass comes. *)
Theorem unescape_escape_roundtrip D :
  wf D = true -> substitute_free D = true ->
  doc_equiv (unescape_chars (escape_chars D)) D /\
  (forall D', wf D' = true -> doc_equiv (escape_chars D) D' ->
              doc_equiv (unescape_chars D') D).
Proof.
  intros Hwf0 Hfree0.
  assert (doc_equiv (unescape_chars (escape_chars D)) D) as Hround.
  { revert Hwf0 Hfree0.
    induction D as [| | | | |m IH] using doc_ind;
      try (intros; by apply equiv_other).
    intros Hwf Hfree.
    pose proof (wf_translate _ unesc_key_idemp _
                  (wf_translate _ esc_key_idemp _ Hwf)) as Hwf2.
    apply wf_DMap in Hwf as [Hk Hwf].
    apply substitute_free_DMap in Hfree as [Hsub Hfree].
    (* the escaping pass *)
    destruct (translate_entries ESCAPE_TRANSLATION esc_key_idemp m Hk)
      as (m1 & E1 & Hm1); [by apply esc_key_NoDup|].
    assert (keys m1 ≡ₚ esc_key <$> keys m) as Hk1.
    { rewrite <- (keys_fmap_entries esc_key escape_chars m).
      unfold keys. by rewrite Hm1. }
    assert (unesc_key <$> keys m1 ≡ₚ keys m) as Hk1'.
    { rewrite Hk1, <- list_fmap_compose.
      rewrite <- (list_fmap_id (keys m)) at 2.
      erewrite Forall_fmap_ext_1; [done|].
      eapply Forall_impl; [exact Hsub|]. intros k. apply unesc_esc_key. }
    (* the unescaping pass *)
    destruct (translate_entries UNESCAPE_TRANSLATION unesc_key_idemp m1)
      as (m2 & E2 & Hm2).
    { rewrite Hk1. by apply esc_key_NoDup. }
    { by rewrite Hk1'. }
    unfold escape_chars, unescape_chars. rewrite E1, E2.
    apply equiv_map. intros k.
    assert (m2 ≡ₚ (fun kv => (unesc_key (esc_key kv.1),
                               unescape_chars (escape_chars kv.2))) <$> m)
      as Hp.
    { rewrite Hm2, Hm1, <- list_fmap_compose. done. }
    assert (NoDup (keys m2)) as Hk2.
    { rewrite E1, E2 in Hwf2. by apply wf_DMap in Hwf2 as [? _]. }
    rewrite (getitem_Permutation m2 _ k Hk2 Hp).
    (* key by key *)
    clear -IH Hk Hwf Hsub Hfree.
    induction m as [|[k0 v0] m IHm]; simpl; [constructor|].
    apply Forall_cons in IH as [IH0 IH]. apply Forall_cons in Hwf as [Hwf0 Hwf].
    apply Forall_cons in Hfree as [Hfree0 Hfree].
    unfold keys in *. rewrite fmap_cons in Hk, Hsub.
    apply NoDup_cons in Hk as [_ Hk]. apply Forall_cons in Hsub as [Hsub0 Hsub].
    simpl in *. fold esc_key unesc_key. rewrite (unesc_esc_key k0) by done.
    case_decide; [constructor; by apply IH0|by apply IHm]. }
  split; [done|]. intros D' Hwf' Heq.
  eapply doc_equiv_trans; [|exact Hround].
  apply doc_equiv_sym.
  apply translate_order_independent;
    [apply unesc_key_idemp| |done|by apply collision_free_escape|done].
  by apply wf_translate; [apply esc_key_idemp|].
Qed.

Lemma unescape_escape_roundtrip_witness :
  wf sample_doc = true /\ substitute_free sample_doc = true /\
  doc_equiv (unescape_chars (escape_chars sample_doc)) sample_doc.
Proof.
  split; [reflexivity|]. split; [reflexivity|].
  exact (proj1 (unescape_escape_roundtrip sample_doc eq_refl eq_refl)).
Defined.

(** C6, as stated, fails when the key a sequence is stored under is the
    escaped spelling of another key of the mapping: the sequence, and the
    keys of the mappings in it, are not returned at all.  The loop itself,
    run on a store, returns the same. *)
Lemma sequence_lost_counterexample :
  let l := [DMap [([97; 46; 98]%N, DNum 1)]] in
  let returned := DMap [([FULLWIDTH_FULL_STOP], DNum 5)] in
  wf overwritten_sequence_doc = true /\
  DSeq l ∈ reachable overwritten_sequence_doc /\
  escape_chars overwritten_sequence_doc = returned /\
  InPlace.run_on ESCAPE_TRANSLATION overwritten_sequence_doc = Some returned /\
  DSeq l ∉ reachable (escape_chars overwritten_sequence_doc).
Proof.
  intros l returned. split; [reflexivity|]. split.
  { apply list_elem_of_In. simpl. tauto. }
  split; [reflexivity|]. split; [vm_compute; reflexivity|].
  intros H. apply list_elem_of_In in H. vm_compute in H.
  destruct H as [H|[H|[]]]; discriminate H.
Qed.

(** C6, amended.  Neither pass descends into a sequence.  A sequence given
    as the document is returned as it is; a sequence found in the result, at
    any depth of mapping nesting, is a sequence of the input with all its
    elements (and the keys of the mappings among them) as they were; and in
    a well-formed document where no two keys of one mapping are rewritten to
    one spelling, every sequence of the input reachable through mapping
    nesting is found in the result, with all its elements as they were. *)
Theorem sequences_untouched D l :
  (escape_chars (DSeq l) = DSeq l /\ unescape_chars (DSeq l) = DSeq l) /\
  (DSeq l ∈ reachable (escape_chars D) -> DSeq l ∈ reachable D) /\
  (DSeq l ∈ reachable (unescape_chars D) -> DSeq l ∈ reachable D) /\
  (wf D = true -> DSeq l ∈ reachable D ->
   (collision_free ESCAPE_TRANSLATION D = true ->
    DSeq l ∈ reachable (escape_chars D)) /\
   (collision_free UNESCAPE_TRANSLATION D = true ->
    DSeq l ∈ reachable (unescape_chars D))).
Proof.
  split; [done|]. split; [by apply translate_reachable_inv|].
  split; [by apply translate_reachable_inv|].
  intros Hwf Hin. split; intros Hfree.
  - by apply translate_reachable; [apply esc_key_idemp|..].
  - by apply translate_reachable; [apply unesc_key_idemp|..].
Qed.

Lemma sequences_untouched_witness :
  let l := [DMap [([FULL_STOP], DNull)]] in
  wf sample_doc = true /\
  DSeq l ∈ reachable sample_doc /\
  collision_free ESCAPE_TRANSLATION sample_doc = true /\
  DSeq l ∈ reachable (escape_chars sample_doc).
Proof.
  intros l.
  assert (DSeq l ∈ reachable sample_doc) as Hin.
  { apply list_elem_of_In. simpl. tauto. }
  split; [reflexivity|]. split; [exact Hin|]. split; [reflexivity|].
  destruct (sequences_untouched sample_doc l) as (_ & _ & _ & H).
  destruct (H eq_refl Hin) as [He _]. exact (He eq_refl).
Defined.

(** C9, as stated, fails when two keys of a mapping get the same escaped
    spelling: [{".": 1, u"．": 2}] is returned with one entry. *)
Lemma escape_entries_counterexample :
  wf colliding_doc = true /\
  exists m m', colliding_doc = DMap m /\
               escape_chars colliding_doc = DMap m' /\
               m' = [([FULLWIDTH_FULL_STOP], DNum 1)] /\
               ~ entries_escaped m m'.
Proof.
  split; [reflexivity|]. do 2 eexists.
  split; [reflexivity|]. split; [reflexivity|]. split; [reflexivity|].
  intros H%Permutation_length. discriminate H.
Qed.

(** C9, amended.  [escape_chars] returns a document that is not a mapping
    as it is.  Of a mapping whose keys get pairwise distinct escaped
    spellings it returns exactly one entry per entry, in some order: the key
    escaped, and the value as [escape_chars] returns it in turn (so a value
    that is not a mapping is the same value). *)
Theorem escape_keeps_assignments D :
  (is_map D = false -> escape_chars D = D) /\
  (forall m, D = DMap m ->
     NoDup (keys m) -> NoDup (esc_key <$> keys m) ->
     exists m', escape_chars D = DMap m' /\ entries_escaped m m').
Proof.
  split; [apply translate_not_map|].
  intros m -> Hk Hinj.
  by apply (translate_entries ESCAPE_TRANSLATION esc_key_idemp).
Qed.

Lemma escape_keeps_assignments_witness :
  exists m, sample_doc = DMap m /\
    NoDup (keys m) /\ NoDup (esc_key <$> keys m) /\
    exists m', escape_chars sample_doc = DMap m' /\ entries_escaped m m'.
Proof.
  eexists. split; [reflexivity|].
  assert (forall ks : list ustring, bool_decide (NoDup ks) = true -> NoDup ks)
    as Hdec by (intros ks; apply bool_decide_eq_true).
  assert (NoDup (keys [([97; 46; 98]%N, DNum 1);
            ([99]%N, DMap [([36; 100]%N, DSeq [DMap [([46]%N, DNull)]])])]))
    as H1 by (by apply Hdec).
  assert (NoDup (esc_key <$> keys [([97; 46; 98]%N, DNum 1);
            ([99]%N, DMap [([36; 100]%N, DSeq [DMap [([46]%N, DNull)]])])]))
    as H2 by (by apply Hdec).
  split; [exact H1|]. split; [exact H2|].
  destruct (escape_keeps_assignments sample_doc) as [_ H].
  exact (H _ eq_refl H1 H2).
Defined.

End MongoEscapeFacts.

(* ===================================================================== *)
(** * The in-place pass computes the pass on documents *)
(* ===================================================================== *)

Module InPlaceFacts.
Import MongoEscape InPlace MongoEscapeFacts.

(** ** Tagged documents *)

Lemma val_of_ltranslate tr t : val_of (ltranslate tr t) = val_of t.
Proof. by destruct t. Qed.

Lemma erase_ltranslate tr t :
  erase (ltranslate tr t) = MongoEscape._translate_chars tr (erase t).
Proof.
  induction t as [| | | | |r m IH] using ldoc_ind; try done.
  simpl. f_equal. rewrite <- rename_keys_fmap. f_equal.
  rewrite <- !list_fmap_compose. apply Forall_fmap_ext_1.
  eapply Forall_impl; [exact IH|]. intros [k c] Hc. simpl in *. by rewrite Hc.
Qed.

Lemma pend_app w1 w2 : pend (w1 ++ w2) = pend w1 ++ pend w2.
Proof. unfold pend. by rewrite fmap_app, concat_app. Qed.

Lemma pend_children_LMap r m :
  pend (children (LMap r m)) = concat ((fun kv => nodes kv.2) <$> m).
Proof. unfold pend. simpl. by rewrite <- list_fmap_compose. Qed.

Lemma nodes_LMap r m :
  nodes (LMap r m)
  = (r, (fun kv => (kv.1, val_of kv.2)) <$> m) :: pend (children (LMap r m)).
Proof. by rewrite pend_children_LMap. Qed.

Lemma pend_children_sublist t : pend (children t) `sublist_of` nodes t.
Proof.
  destruct t; try apply sublist_nil_l.
  rewrite nodes_LMap. by apply sublist_cons.
Qed.

Lemma conc_children r m :
  work_items_of ((fun kv => (kv.1, val_of kv.2)) <$> m) r
  = conc <$> children (LMap r m).
Proof.
  unfold work_items_of, items. simpl. by rewrite <- !list_fmap_compose.
Qed.

Lemma nested_work_items_children h t :
  holds h t -> nested_work_items h (val_of t) = Returns (conc <$> children t).
Proof.
  destruct t; try done. unfold holds. rewrite nodes_LMap, Forall_cons.
  intros [Hr _]. simpl in *. by rewrite Hr, conc_children.
Qed.

Lemma weight_children t : weight (children t) = turns (erase t).
Proof.
  destruct t as [| | | | |r m]; try done. unfold weight. simpl.
  induction m as [|[k c] m IH]; simpl; [done|]. do 2 f_equal. apply IH.
Qed.

Lemma children_field t a : a ∈ children t -> exists r m, t = LMap r m /\ a.2 = r.
Proof.
  destruct t; simpl; try (by intros ?%elem_of_nil).
  intros (kv & -> & _)%list_elem_of_fmap. eauto.
Qed.

(** ** The items for one object *)

Lemma items_for_cons r a w :
  items_for r (a :: w)
  = if decide (a.2 = r) then (a.1.1, val_of a.1.2) :: items_for r w
    else items_for r w.
Proof. unfold items_for. rewrite filter_cons. by case_decide. Qed.

Lemma items_for_app r w1 w2 :
  items_for r (w1 ++ w2) = items_for r w1 ++ items_for r w2.
Proof. unfold items_for. by rewrite filter_app, fmap_app. Qed.

Lemma items_for_not_field r w : r ∉ w.*2 -> items_for r w = [].
Proof.
  induction w as [|a w IH]; [done|]. rewrite fmap_cons, not_elem_of_cons.
  intros [Hne Hr]. rewrite items_for_cons, decide_False by done. auto.
Qed.

Lemma items_for_children_self r m :
  items_for r (children (LMap r m)) = (fun kv => (kv.1, val_of kv.2)) <$> m.
Proof.
  simpl. induction m as [|[k c] m IH]; [done|].
  rewrite fmap_cons, items_for_cons. simpl. rewrite decide_True by done.
  by rewrite IH.
Qed.

Lemma items_for_children_other r t :
  (forall m, t <> LMap r m) -> items_for r (children t) = [].
Proof.
  intros Ht. apply items_for_not_field.
  intros (a & -> & (r' & m & -> & Ha)%children_field)%list_elem_of_fmap.
  by apply (Ht m); rewrite Ha.
Qed.

(** ** One turn of the loop *)

Lemma NoDup_submseteq_inv {A} (l k : list A) : l ⊆+ k -> NoDup k -> NoDup l.
Proof.
  intros [k' Hk]%submseteq_Permutation Hnd. rewrite Hk in Hnd.
  by apply NoDup_app in Hnd as [? _].
Qed.

Lemma pend_step_submseteq c rest :
  pend (rest ++ children c) ⊆+ nodes c ++ pend rest.
Proof.
  rewrite pend_app, (comm (++) (pend rest)).
  apply submseteq_app; [|done]. apply sublist_submseteq, pend_children_sublist.
Qed.

Section Loop.
Variable tr : list (char * char).

Lemma rename_in_place_step (h : heap) k v r0 d :
  h !! r0 = Some d -> k ∈ keys d ->
  rename_in_place tr h (k, v, r0)
  = Returns (<[r0 := rename_item tr d (k, v)]> h).
Proof.
  intros Hd Hk. unfold rename_in_place, rename_item. simpl. case_decide.
  - rewrite Hd. by rewrite decide_True by by apply keys_setitem_mono.
  - by rewrite insert_id.
Qed.

Lemma NoDup_keys_rename_item {V} (d : dict V) kv :
  NoDup (keys d) -> NoDup (keys (rename_item tr d kv)).
Proof.
  intros Hd. unfold rename_item. case_decide; [|done].
  by apply NoDup_keys_delitem, NoDup_keys_setitem.
Qed.

Lemma holds_ltranslate_LMap (h : heap) (rc : loc) (m : dict ldoc) :
  h !! rc = Some (rename_keys tr ((fun kv => (kv.1, val_of kv.2)) <$> m)) ->
  Forall (fun kv => holds h (ltranslate tr kv.2)) m ->
  holds h (ltranslate tr (LMap rc m)).
Proof.
  intros Hrc Hm. unfold holds.
  change (ltranslate tr (LMap rc m)) with
    (LMap rc (rename_keys tr
                ((fun kv => (kv.1, ltranslate tr kv.2)) <$> m))).
  rewrite nodes_LMap. constructor.
  - simpl. rewrite Hrc. f_equal. rewrite <- rename_keys_fmap. f_equal.
    rewrite <- list_fmap_compose. apply list_fmap_ext.
    intros i [k c] _. simpl. by rewrite val_of_ltranslate.
  - rewrite pend_children_LMap. apply Forall_forall.
    intros n (l & Hn & (kv & -> & Hkv)%list_elem_of_fmap)%elem_of_concat.
    assert (kv.2 ∈ ((fun kv => (kv.1, ltranslate tr kv.2)) <$> m).*2) as Hv.
    { apply rename_keys_values with tr. by apply list_elem_of_fmap_2. }
    rewrite <- list_fmap_compose in Hv.
    apply list_elem_of_fmap in Hv as (kv0 & Heq & Hkv0). simpl in Heq.
    rewrite Forall_forall in Hm. specialize (Hm kv0 Hkv0).
    rewrite <- Heq in Hm. unfold holds in Hm. rewrite Forall_forall in Hm.
    by apply Hm.
Qed.

Lemma step_inv (k : ustring) (c : ldoc) (r0 : loc) (rest : list aitem)
    (h : heap) :
  loop_inv ((k, c, r0) :: rest) h ->
  exists d, h !! r0 = Some d /\ k ∈ keys d /\
    let h1 := <[r0 := rename_item tr d (k, val_of c)]> h in
    holds h1 c /\ loop_inv (rest ++ children c) h1.
Proof.
  intros (I1 & I2 & I3 & I4 & I5).
  change (pend ((k, c, r0) :: rest)) with (nodes c ++ pend rest) in *.
  destruct (I4 r0) as (d & Hd & Hnd & Hki & Hsub).
  { rewrite fmap_cons. apply elem_of_cons. by left. }
  rewrite items_for_cons in Hki, Hsub. simpl in Hki, Hsub.
  rewrite decide_True in Hki, Hsub by done.
  unfold keys in Hki, Hsub. rewrite fmap_cons in Hki, Hsub. simpl in Hki, Hsub.
  apply NoDup_cons in Hki as [Hk_rest Hki].
  exists d. split; [done|]. split; [apply Hsub; by left|]. intros h1.
  pose proof (pend_step_submseteq c rest) as Hsubm.
  assert (r0 ∉ (nodes c ++ pend rest).*1) as Hr0.
  { apply I3. rewrite fmap_cons. apply elem_of_cons. by left. }
  assert (forall n, n ∈ nodes c ++ pend rest -> h1 !! n.1 = Some n.2) as Hh1.
  { intros n Hn. unfold h1. rewrite lookup_insert_ne.
    - rewrite Forall_forall in I1. by apply I1.
    - intros ->. apply Hr0. by apply list_elem_of_fmap_2. }
  split.
  { apply Forall_forall. intros n Hn. apply Hh1, elem_of_app. by left. }
  split_and!.
  - apply Forall_forall. intros n Hn. apply Hh1.
    by eapply elem_of_submseteq.
  - eapply NoDup_submseteq_inv; [|exact I2]. by apply fmap_submseteq.
  - intros r Hr Hin. rewrite fmap_app, elem_of_app in Hr.
    destruct Hr as [Hr|Hr].
    + apply (I3 r).
      * rewrite fmap_cons. apply elem_of_cons. by right.
      * eapply elem_of_submseteq; [exact Hin|]. by apply fmap_submseteq.
    + apply list_elem_of_fmap in Hr
        as (a & -> & (rc & m & -> & Ha)%children_field).
      rewrite Ha in Hin. rewrite nodes_LMap in I2. simpl in I2.
      apply NoDup_cons in I2 as [I2 _]. apply I2.
      rewrite pend_app, fmap_app in Hin. rewrite fmap_app.
      apply elem_of_app in Hin. apply elem_of_app. tauto.
  - intros r Hr.
    assert ((exists m, c = LMap r m) \/ (forall m, c <> LMap r m)) as [[m ->]|Hc].
    { destruct c as [| | | | |rc m]; try (right; intros; discriminate).
      destruct (decide (rc = r)) as [->|]; [left; eauto|right; congruence]. }
    + (* the object of the value just visited *)
      assert (r ∈ (nodes (LMap r m) ++ pend rest).*1) as Hrin.
      { rewrite nodes_LMap. simpl. apply elem_of_cons. by left. }
      assert (r ∉ ((k, LMap r m, r0) :: rest).*2) as Hnf.
      { intros Hf. by apply (I3 r Hf). }
      rewrite fmap_cons, not_elem_of_cons in Hnf. destruct Hnf as [Hne Hnf].
      simpl in Hne.
      exists ((fun kv => (kv.1, val_of kv.2)) <$> m).
      rewrite items_for_app, (items_for_not_field r rest Hnf),
        items_for_children_self. simpl.
      split.
      { apply (Hh1 (r, _)). rewrite nodes_LMap. apply elem_of_app. left.
        apply elem_of_cons. by left. }
      apply Forall_cons in I5 as [Hwf _]. simpl in Hwf.
      apply andb_true_iff in Hwf as [Hwf _].
      apply bool_decide_eq_true in Hwf.
      unfold keys in *. rewrite <- list_fmap_compose in Hwf.
      rewrite <- list_fmap_compose. done.
    + (* an object that was under rewriting already *)
      rewrite items_for_app, (items_for_children_other r c Hc), app_nil_r.
      assert (r ∈ rest.*2) as Hrest.
      { rewrite fmap_app, elem_of_app in Hr. destruct Hr as [Hr|Hr]; [done|].
        apply list_elem_of_fmap in Hr
          as (a & -> & (rc & m & -> & Ha)%children_field).
        by destruct (Hc m); rewrite Ha. }
      destruct (decide (r0 = r)) as [<-|Hne].
      * exists (rename_item tr d (k, val_of c)). unfold h1.
        rewrite lookup_insert_eq. split; [done|].
        split; [by apply NoDup_keys_rename_item|]. split; [done|].
        intros k' Hk'. apply rename_item_keeps.
        -- simpl. by intros ->.
        -- apply Hsub. apply elem_of_cons. by right.
      * destruct (I4 r) as (dr & Hdr & Hnr & Hkr & Hsr).
        { rewrite fmap_cons. apply elem_of_cons. by right. }
        rewrite items_for_cons in Hkr, Hsr. simpl in Hkr, Hsr.
        rewrite decide_False in Hkr, Hsr by done.
        exists dr. unfold h1. by rewrite lookup_insert_ne.
  - apply Forall_cons in I5 as [Hwf I5]. apply Forall_app. split; [done|].
    destruct c as [| | | | |rc m]; try constructor.
    simpl in Hwf. apply andb_true_iff in Hwf as [_ Hwf].
    apply forallb_Forall in Hwf. rewrite Forall_fmap in Hwf.
    simpl. by rewrite Forall_fmap.
Qed.

Lemma step_post (k : ustring) (c : ldoc) (r0 : loc) (rest : list aitem)
    (h h' : heap) d :
  loop_inv ((k, c, r0) :: rest) h ->
  h !! r0 = Some d ->
  loop_post tr (rest ++ children c)
    (<[r0 := rename_item tr d (k, val_of c)]> h) h' ->
  loop_post tr ((k, c, r0) :: rest) h h'.
Proof.
  intros (I1 & I2 & I3 & I4 & I5) Hd [P1 P2].
  change (pend ((k, c, r0) :: rest)) with (nodes c ++ pend rest) in *.
  assert (r0 ∉ (nodes c ++ pend rest).*1) as Hr0.
  { apply I3. rewrite fmap_cons. apply elem_of_cons. by left. }
  assert (forall r, r ∈ (nodes c ++ pend rest).*1 -> r ∉ rest.*2) as Hnf.
  { intros r Hr Hf. apply (I3 r); [|done].
    rewrite fmap_cons. apply elem_of_cons. by right. }
  apply Forall_app in P1 as [P1r P1c].
  split; [constructor; [|done]|]; simpl.
  - (* the value just visited *)
    destruct c as [| | | | l|rc m];
      try (unfold holds; simpl; by constructor).
    + (* a sequence: its objects were not touched *)
      unfold holds. simpl ltranslate. apply Forall_forall. intros n Hn.
      assert (n.1 ∈ (nodes (LSeq l)).*1) as Hn1 by by apply list_elem_of_fmap_2.
      rewrite fmap_app in I2. apply NoDup_app in I2 as (_ & I2 & _).
      rewrite P2.
      * rewrite items_for_not_field.
        -- simpl. rewrite lookup_insert_ne.
           ++ rewrite Forall_forall in I1. rewrite (I1 n); [done|].
              apply elem_of_app. by left.
           ++ intros ->. apply Hr0. rewrite fmap_app. apply elem_of_app.
              by left.
        -- simpl. rewrite app_nil_r. apply Hnf. rewrite fmap_app.
           apply elem_of_app. by left.
      * simpl. rewrite app_nil_r. by apply I2.
    + (* a mapping: its object has been rewritten, its values translated *)
      apply holds_ltranslate_LMap.
      * assert (rc ∈ (nodes (LMap rc m) ++ pend rest).*1) as Hrc.
        { rewrite nodes_LMap. simpl. apply elem_of_cons. by left. }
        rewrite P2.
        -- rewrite items_for_app, (items_for_not_field rc rest (Hnf _ Hrc)),
             items_for_children_self. simpl.
           rewrite lookup_insert_ne by (intros ->; by apply Hr0).
           rewrite Forall_forall in I1.
           rewrite (I1 (rc, (fun kv => (kv.1, val_of kv.2)) <$> m)); [done|].
           rewrite nodes_LMap. apply elem_of_cons. by left.
        -- rewrite nodes_LMap in I2. simpl in I2.
           apply NoDup_cons in I2 as [I2 _]. intros Hin. apply I2.
           rewrite pend_app, fmap_app in Hin. rewrite fmap_app.
           apply elem_of_app in Hin. apply elem_of_app. tauto.
      * simpl in P1c. by rewrite Forall_fmap in P1c.
  - (* the objects outside *)
    intros r Hr. change (r ∉ (nodes c ++ pend rest).*1) in Hr. rewrite P2.
    2:{ intros Hin. apply Hr. eapply elem_of_submseteq; [exact Hin|].
        apply fmap_submseteq, pend_step_submseteq. }
    rewrite items_for_app, (items_for_children_other r c), app_nil_r.
    2:{ intros m ->. apply Hr. rewrite nodes_LMap. simpl.
        apply elem_of_cons. by left. }
    rewrite items_for_cons. simpl. destruct (decide (r0 = r)) as [<-|Hne].
    + by rewrite lookup_insert_eq, Hd.
    + by rewrite lookup_insert_ne.
Qed.

Lemma work_loop_cons n item items (h : heap) :
  work_loop (S n) tr (item :: items) h
  = match rename_in_place tr h item with
    | Returns h =>
        match nested_work_items h item.1.2 with
        | Returns nested => work_loop n tr (items ++ nested) h
        | KeyError k => KeyError k
        | Dangling r => Dangling r
        | OutOfFuel => OutOfFuel
        end
    | e => e
    end.
Proof. reflexivity. Qed.

(** The loop, given a turn for every work item to come, ends and leaves
    what [loop_post] tells. *)
Lemma work_loop_correct n :
  forall (w : list aitem) (h : heap),
    weight w <= n -> loop_inv w h ->
    exists h', work_loop n tr (conc <$> w) h = Returns h' /\
               loop_post tr w h h'.
Proof.
  assert (forall h : heap, loop_post tr [] h h) as Hnil.
  { intros h. split; [constructor|]. intros r _. simpl.
    by destruct (h !! r). }
  induction n as [|n IH]; intros w h Hw Hinv.
  - destruct w as [|a w]; [|simpl in Hw; lia].
    exists h. split; [done|apply Hnil].
  - destruct w as [|[[k c] r0] w]; [exists h; split; [done|apply Hnil]|].
    destruct (step_inv _ _ _ _ _ Hinv) as (d & Hd & Hk & Hc & Hinv').
    simpl in Hc, Hinv'.
    assert (weight (w ++ children c) <= n) as Hw'.
    { unfold weight in *. rewrite sum_list_with_app.
      fold (weight (children c)). rewrite weight_children.
      simpl in Hw. lia. }
    destruct (IH _ _ Hw' Hinv') as (h' & Hrun & Hpost).
    exists h'. split; [|by eapply step_post].
    rewrite fmap_cons, work_loop_cons.
    change (conc (k, c, r0)) with (k, val_of c, r0).
    rewrite (rename_in_place_step h k (val_of c) r0 d Hd Hk).
    change (k, val_of c, r0).1.2 with (val_of c).
    rewrite (nested_work_items_children _ _ Hc). by rewrite <- fmap_app.
Qed.

(** ** The pass *)

(** On a store that holds a tree-shaped document, the pass ends (given a
    turn for each work item), raises no [KeyError], returns the value it
    was given, and leaves the translated document in the store. *)
Lemma translate_chars_holds fuel (t : ldoc) (h : heap) :
  holds h t -> NoDup (locs t) -> wf (erase t) = true ->
  turns (erase t) <= fuel ->
  exists h', _translate_chars fuel tr (val_of t) h = Returns (val_of t, h') /\
             holds h' (ltranslate tr t).
Proof.
  intros Hh Hnd Hwf Hfuel.
  destruct t as [| | | | l|r m]; try (by exists h).
  unfold holds, locs in Hh, Hnd. rewrite nodes_LMap in Hh, Hnd.
  apply Forall_cons in Hh as [Hr Hh]. simpl in Hr, Hnd.
  apply NoDup_cons in Hnd as [Hrnd Hnd].
  pose proof Hwf as Hwf'. simpl in Hwf'.
  apply andb_true_iff in Hwf' as [Hk Hv]. apply bool_decide_eq_true in Hk.
  apply forallb_Forall in Hv. rewrite Forall_fmap in Hv.
  assert (loop_inv (children (LMap r m)) h) as Hinv.
  { split_and!; try done.
    - intros r' (a & -> & (r'' & m' & [= <- <-] & ->)%children_field)
        %list_elem_of_fmap. done.
    - intros r' (a & -> & (r'' & m' & [= <- <-] & ->)%children_field)
        %list_elem_of_fmap.
      exists ((fun kv => (kv.1, val_of kv.2)) <$> m).
      rewrite items_for_children_self. split; [done|].
      unfold keys in *. rewrite <- list_fmap_compose in Hk.
      rewrite <- list_fmap_compose. done.
    - simpl. by rewrite Forall_fmap. }
  destruct (work_loop_correct fuel (children (LMap r m)) h)
    as (h' & Hrun & [P1 P2]); [by rewrite weight_children|done|].
  exists h'. split.
  - simpl. rewrite Hr, conc_children, Hrun. done.
  - apply holds_ltranslate_LMap.
    + rewrite P2 by done. rewrite Hr, items_for_children_self. done.
    + simpl in P1. by rewrite Forall_fmap in P1.
Qed.

End Loop.

(** ** Putting a document in the store and reading it back *)

Lemma fmap_concat {A B} (f : A -> B) (ls : list (list A)) :
  f <$> concat ls = concat ((fun l : list A => f <$> l) <$> ls).
Proof.
  induction ls as [|l ls IH]; simpl; [done|]. by rewrite fmap_app, IH.
Qed.

Lemma label_list_spec {A B} (f : A -> loc -> B * loc) (P : A -> B -> Prop)
    (locs_of : B -> list loc) (l : list A) :
  Forall (fun x => forall n,
            P x (f x n).1 /\ n <= (f x n).2 /\ NoDup (locs_of (f x n).1) /\
            forall r, r ∈ locs_of (f x n).1 -> n <= r < (f x n).2) l ->
  forall n,
    Forall2 P l (label_list f l n).1 /\ n <= (label_list f l n).2 /\
    NoDup (concat (locs_of <$> (label_list f l n).1)) /\
    forall r, r ∈ concat (locs_of <$> (label_list f l n).1) ->
              n <= r < (label_list f l n).2.
Proof.
  induction 1 as [|x l Hx _ IH]; intros n; simpl.
  - split_and!; [constructor|done|constructor|]. by intros r ?%elem_of_nil.
  - destruct (Hx n) as (HP & Hle & Hnd & Hr).
    destruct (f x n) as [t n1]. simpl in *.
    destruct (IH n1) as (HP' & Hle' & Hnd' & Hr').
    destruct (label_list f l n1) as [ts n2]. simpl in *.
    split_and!; [by constructor|lia| |].
    + apply NoDup_app. split_and!; [done| |done].
      intros r Hin Hin'. apply Hr in Hin. apply Hr' in Hin'. lia.
    + intros r [Hin|Hin]%elem_of_app.
      * apply Hr in Hin. lia.
      * apply Hr' in Hin. lia.
Qed.

Lemma label_spec d :
  forall n,
    erase (label d n).1 = d /\ n <= (label d n).2 /\
    NoDup (locs (label d n).1) /\
    forall r, r ∈ locs (label d n).1 -> n <= r < (label d n).2.
Proof.
  induction d as [| | | |l IH|m IH] using doc_ind; intros n;
    try (split_and!; [done|done|constructor|by intros r ?%elem_of_nil]).
  - destruct (label_list_spec label (fun d t => erase t = d) locs l IH n)
      as (HP & Hle & Hnd & Hr).
    simpl. destruct (label_list label l n) as [ts n']. simpl in *.
    unfold locs in *. simpl. rewrite fmap_concat, <- list_fmap_compose.
    split_and!; try done. f_equal.
    clear -HP. induction HP as [|???? <-]; simpl; [done|]. by f_equal.
  - destruct (label_list_spec
                (fun kv n => let '(t, n) := label kv.2 n in ((kv.1, t), n))
                (fun kv kv' => kv'.1 = kv.1 /\ erase kv'.2 = kv.2)
                (fun kv' => locs kv'.2) m) with (n := S n)
      as (HP & Hle & Hnd & Hr).
    { eapply Forall_impl; [exact IH|]. intros [k d] Hd n0. simpl in *.
      specialize (Hd n0). destruct (label d n0) as [t' n1]. simpl in *.
      destruct Hd as (? & ? & ? & ?). by split_and!. }
    simpl. destruct (label_list _ m (S n)) as [ts n']. simpl in *.
    unfold locs in *. simpl. rewrite fmap_concat, <- !list_fmap_compose.
    split_and!.
    + f_equal. clear -HP.
      induction HP as [|[??] [??] ?? [? ?]]; simpl in *; [done|].
      by simplify_eq.
    + lia.
    + apply NoDup_cons. split; [|done]. intros Hin%Hr. lia.
    + intros r [->|Hin%Hr]%elem_of_cons; lia.
Qed.

Lemma holds_store_of t : NoDup (locs t) -> holds (store_of t) t.
Proof.
  intros Hnd. apply Forall_forall. intros [r d] Hin.
  by apply elem_of_list_to_map_1.
Qed.

Lemma foldr_max_le {A} (g : A -> nat) (l : list A) n :
  foldr (fun x n => g x `max` n) 0 l <= n <-> Forall (fun x => g x <= n) l.
Proof.
  induction l as [|x l IH]; simpl.
  - split; [constructor|lia].
  - rewrite Forall_cons, <- IH. lia.
Qed.

Lemma holds_LSeq (h : heap) l : holds h (LSeq l) <-> Forall (holds h) l.
Proof.
  unfold holds. simpl. induction l as [|t l IH]; simpl.
  - split; constructor.
  - by rewrite Forall_app, Forall_cons, IH.
Qed.

Lemma holds_LMap (h : heap) r m :
  holds h (LMap r m) <->
  h !! r = Some ((fun kv => (kv.1, val_of kv.2)) <$> m) /\
  Forall (fun kv => holds h kv.2) m.
Proof.
  unfold holds. simpl. rewrite Forall_cons. simpl. apply and_iff_compat_l.
  induction m as [|kv m IH]; simpl.
  - split; constructor.
  - by rewrite Forall_app, Forall_cons, IH.
Qed.

Lemma read_holds (h : heap) t :
  forall n, holds h t -> depth (erase t) <= n ->
            read n h (val_of t) = Some (erase t).
Proof.
  induction t as [| | | |l IH|r m IH] using ldoc_ind; intros [|n] Hh Hn;
    simpl in Hn; try lia; try done.
  - apply holds_LSeq in Hh. apply Nat.succ_le_mono in Hn.
    apply foldr_max_le in Hn. rewrite Forall_fmap in Hn. simpl.
    assert (mapM (read n h) (val_of <$> l) = Some (erase <$> l)) as ->; [|done].
    apply mapM_Some. apply Forall2_fmap, Forall_Forall2_diag.
    rewrite Forall_forall in IH, Hh, Hn. apply Forall_forall.
    intros t Ht. apply IH; auto. by apply Hn.
  - apply holds_LMap in Hh as [Hr Hh]. apply Nat.succ_le_mono in Hn.
    apply foldr_max_le in Hn. rewrite Forall_fmap in Hn. simpl.
    rewrite Hr. simpl.
    assert (mapM (fun kv => pair kv.1 <$> read n h kv.2)
              ((fun kv => (kv.1, val_of kv.2)) <$> m)
            = Some ((fun kv => (kv.1, erase kv.2)) <$> m)) as ->; [|done].
    apply mapM_Some. apply Forall2_fmap, Forall_Forall2_diag.
    rewrite Forall_forall in IH, Hh, Hn. apply Forall_forall.
    intros [k c] Hc. simpl. rewrite (IH _ Hc); [done|by apply Hh|].
    by apply (Hn _ Hc).
Qed.

Lemma depth_translate tr d :
  depth (MongoEscape._translate_chars tr d) <= depth d.
Proof.
  induction d as [| | | | |m IH] using doc_ind; try done.
  rewrite translate_DMap. simpl. apply le_n_S.
  apply foldr_max_le, Forall_fmap, Forall_forall. intros [k v] Hkv. simpl.
  assert (v ∈ m.*2) as Hin.
  { apply rename_keys_values with tr. apply list_elem_of_fmap.
    by exists (k, v). }
  apply list_elem_of_fmap in Hin as (kv & -> & Hkv').
  rewrite Forall_forall in IH. etrans; [by apply IH|].
  assert (Forall (fun kv => depth kv.2 <=
            foldr (fun kv n => depth kv.2 `max` n) 0 m) m) as Hall
    by by apply foldr_max_le.
  rewrite Forall_forall in Hall. by apply Hall.
Qed.

(** Put in a fresh store, translated in place and read back, a document
    is the document the pass on documents gives: the in-place loop and
    [MongoEscape._translate_chars] compute the same. *)
Theorem in_place_is_translate tr d :
  wf d = true -> run_on tr d = Some (MongoEscape._translate_chars tr d).
Proof.
  intros Hwf. unfold run_on.
  destruct (label_spec d 0) as (He & _ & Hnd & _).
  set (t := (label d 0).1) in *.
  destruct (translate_chars_holds tr (turns d) t (store_of t))
    as (h' & -> & Hh'); [by apply holds_store_of|done|by rewrite He|
                          by rewrite He|].
  rewrite <- (val_of_ltranslate tr t), <- He.
  rewrite <- erase_ltranslate. apply read_holds; [done|].
  rewrite erase_ltranslate. apply depth_translate.
Qed.

Example in_place_sample :
  run_on ESCAPE_TRANSLATION sample_doc
  = Some (MongoEscape.escape_chars sample_doc).
Proof. reflexivity. Qed.

Example in_place_colliding :
  run_on ESCAPE_TRANSLATION colliding_doc
  = Some (DMap [([FULLWIDTH_FULL_STOP], DNum 1)]).
Proof. reflexivity. Qed.

(** ** One pass after another

    The pass leaves a tree-shaped document in the store, so a second pass
    can run on the store the first one left. *)

Lemma values_setitem_submseteq {V} (d : dict V) k v :
  (setitem d k v).*2 ⊆+ v :: d.*2.
Proof.
  induction d as [|[k0 v0] d IH]; simpl; [done|]. case_decide; simpl.
  - by apply submseteq_skip, submseteq_cons.
  - rewrite (Permutation_swap v0 v). by apply submseteq_skip.
Qed.

Lemma values_rename_submseteq {V} (d : dict V) k k2 v :
  NoDup (keys d) -> (k, v) ∈ d -> k2 <> k ->
  (delitem (setitem d k2 v) k).*2 ⊆+ d.*2.
Proof.
  unfold keys. intros Hnd Hin Hne.
  induction d as [|[k0 v0] d IH]; simpl; [by apply elem_of_nil in Hin|].
  simpl in Hnd. apply NoDup_cons in Hnd as [Hk0 Hnd].
  apply elem_of_cons in Hin as [[= <- <-]|Hin].
  - rewrite decide_False by done. simpl. rewrite decide_True by done.
    apply values_setitem_submseteq.
  - assert (k0 <> k) as Hk.
    { intros ->. apply Hk0. apply list_elem_of_fmap. by exists (k, v). }
    case_decide; simpl; rewrite decide_False by done; simpl.
    + apply submseteq_cons.
      rewrite (delitem_Permutation d k v Hnd Hin) at 2. done.
    + by apply submseteq_skip, IH.
Qed.

Lemma elem_of_setitem_other {V} (d : dict V) k v kv :
  kv ∈ d -> kv.1 <> k -> kv ∈ setitem d k v.
Proof.
  intros Hin Hne. induction d as [|[k0 v0] d IH]; simpl.
  - by apply elem_of_nil in Hin.
  - apply elem_of_cons in Hin as [->|Hin]; case_decide; simplify_eq;
      rewrite elem_of_cons; auto.
Qed.

Lemma elem_of_delitem_other {V} (d : dict V) k kv :
  kv ∈ d -> kv.1 <> k -> kv ∈ delitem d k.
Proof.
  intros Hin Hne. induction d as [|[k0 v0] d IH]; simpl.
  - by apply elem_of_nil in Hin.
  - apply elem_of_cons in Hin as [->|Hin]; case_decide; simplify_eq;
      rewrite ?elem_of_cons; auto.
Qed.

Section Values.
Variable tr : list (char * char).
Hypothesis tr_idemp :
  forall k, translate_key tr (translate_key tr k) = translate_key tr k.

Lemma fold_rename_values_submseteq {V} (todo acc : dict V) :
  NoDup (keys acc) -> NoDup (keys todo) ->
  (forall kv, kv ∈ todo -> translate_key tr kv.1 <> kv.1 -> kv ∈ acc) ->
  (fold_left (rename_item tr) todo acc).*2 ⊆+ acc.*2.
Proof.
  revert acc. induction todo as [|[k v] todo IH]; intros acc Hnd Hk Hin.
  { done. }
  unfold keys in Hk. rewrite fmap_cons in Hk.
  apply NoDup_cons in Hk as [Hk Hk']. simpl in *.
  destruct (decide (translate_key tr k = k)) as [Hfix|Hch].
  - rewrite (rename_item_fixed tr acc (k, v) Hfix). apply IH; [done..|].
    intros kv Hkv. apply Hin. apply elem_of_cons. by right.
  - rewrite (rename_item_changed tr acc (k, v) Hch). simpl.
    assert ((k, v) ∈ acc) as Hkv by (apply Hin; [apply elem_of_cons; by left|done]).
    etrans; [apply IH|by apply values_rename_submseteq].
    + by apply NoDup_keys_delitem, NoDup_keys_setitem.
    + done.
    + intros kv Hkv' Hch'.
      assert (kv.1 <> k) as Hne.
      { intros <-. apply Hk. by apply list_elem_of_fmap_2. }
      apply elem_of_delitem_other; [|done].
      apply elem_of_setitem_other.
      * apply Hin; [apply elem_of_cons; by right|done].
      * intros Heq. apply Hch'. by rewrite Heq, tr_idemp.
Qed.

(** The values of a rewritten mapping are values of the mapping, none
    taken twice. *)
Lemma rename_keys_values_submseteq {V} (m : dict V) :
  NoDup (keys m) -> (rename_keys tr m).*2 ⊆+ m.*2.
Proof. intros Hm. by apply fold_rename_values_submseteq. Qed.

Lemma concat_fmap_submseteq {A B} (g : A -> list B) (l k : list A) :
  l ⊆+ k -> concat (g <$> l) ⊆+ concat (g <$> k).
Proof.
  induction 1 as [|x l k _ IH|x y l|x l k _ IH|l1 l2 l3 _ IH1 _ IH2]; simpl.
  - done.
  - by apply submseteq_skips_l.
  - rewrite !(assoc_L (++)). apply submseteq_app; [|done].
    by rewrite (comm (++)).
  - by apply submseteq_inserts_l.
  - by etrans.
Qed.

Lemma concat_values_submseteq {V B} (g : V -> list B)
    (d1 d2 : list (ustring * V)) :
  d1.*2 ⊆+ d2.*2 ->
  concat ((fun kv => g kv.2) <$> d1) ⊆+ concat ((fun kv => g kv.2) <$> d2).
Proof.
  intros H.
  assert (forall d : list (ustring * V),
            (fun kv => g kv.2) <$> d = g <$> d.*2) as E
    by (intros d; by rewrite <- list_fmap_compose).
  rewrite !E. by apply concat_fmap_submseteq.
Qed.

Lemma locs_ltranslate t :
  wf (erase t) = true -> locs (ltranslate tr t) ⊆+ locs t.
Proof.
  induction t as [| | | | |r m IH] using ldoc_ind; try done.
  intros Hwf. simpl in Hwf. apply andb_true_iff in Hwf as [Hk Hv].
  apply bool_decide_eq_true in Hk. apply forallb_Forall in Hv.
  rewrite Forall_fmap in Hv.
  unfold locs. simpl. apply submseteq_skip.
  rewrite !fmap_concat, <- !list_fmap_compose.
  etrans.
  { apply (concat_values_submseteq locs
             (rename_keys tr ((fun kv => (kv.1, ltranslate tr kv.2)) <$> m))
             ((fun kv => (kv.1, ltranslate tr kv.2)) <$> m)).
    apply rename_keys_values_submseteq.
    unfold keys in *. rewrite <- list_fmap_compose in Hk.
    rewrite <- list_fmap_compose. done. }
  clear Hk. induction m as [|[k c] m IHm]; simpl; [done|].
  apply Forall_cons in IH as [IH1 IH2]. apply Forall_cons in Hv as [Hv1 Hv2].
  apply submseteq_app; auto.
Qed.

Lemma turns_sum (m : list (ustring * doc)) :
  turns (DMap m) = sum_list_with (fun v => S (turns v)) m.*2.
Proof.
  simpl. induction m as [|[k v] m IH]; simpl; [done|]. do 2 f_equal. apply IH.
Qed.

Lemma sum_list_with_submseteq {A} (g : A -> nat) (l k : list A) :
  l ⊆+ k -> sum_list_with g l <= sum_list_with g k.
Proof. induction 1; simpl; lia. Qed.

Lemma turns_translate d :
  wf d = true -> turns (MongoEscape._translate_chars tr d) <= turns d.
Proof.
  induction d as [| | | | |m IH] using doc_ind; try done.
  intros Hwf. apply wf_DMap in Hwf as [Hk Hv].
  change (MongoEscape._translate_chars tr (DMap m)) with
    (DMap (rename_keys tr
       ((fun kv => (kv.1, MongoEscape._translate_chars tr kv.2)) <$> m))).
  rewrite !turns_sum.
  etrans.
  { apply sum_list_with_submseteq, rename_keys_values_submseteq.
    unfold keys in *. rewrite <- list_fmap_compose. done. }
  clear Hk. induction m as [|[k v] m IHm]; simpl; [done|].
  apply Forall_cons in IH as [IH1 IH2]. apply Forall_cons in Hv as [Hv1 Hv2].
  simpl in *. specialize (IH1 Hv1). specialize (IHm IH2 Hv2).
  apply le_n_S, Nat.add_le_mono; [exact IH1|exact IHm].
Qed.

(** The pass in place, on any store that has a tree-shaped document: it
    ends, returns the value it was given and leaves the store with the
    translated document, tree-shaped again. *)
Theorem in_place_represents fuel (h : heap) v d :
  represents h v d -> wf d = true -> turns d <= fuel ->
  exists h', _translate_chars fuel tr v h = Returns (v, h') /\
             represents h' v (MongoEscape._translate_chars tr d).
Proof.
  intros (t & <- & <- & Hh & Hnd) Hwf Hfuel.
  destruct (translate_chars_holds tr fuel t h) as (h' & Hrun & Hh');
    [done..|].
  exists h'. split; [done|]. exists (ltranslate tr t).
  split_and!; [apply val_of_ltranslate|apply erase_ltranslate|done|].
  eapply NoDup_submseteq_inv; [by apply locs_ltranslate|done].
Qed.

End Values.

(** Every well-formed document is in some store. *)
Lemma represents_label d :
  let t := (label d 0).1 in represents (store_of t) (val_of t) d.
Proof.
  intros t. destruct (label_spec d 0) as (He & _ & Hnd & _).
  exists t. split_and!; [done..|by apply holds_store_of|done].
Qed.

(** X10.  Escaping and then unescaping in place, on the same store and
    with the turns the first pass needs, is escaping and then unescaping the
    document: both passes end, raise nothing and return the value given. *)
Theorem in_place_unescape_escape fuel (h : heap) v d :
  represents h v d -> wf d = true -> turns d <= fuel ->
  exists h1 h2,
    escape_chars fuel v h = Returns (v, h1) /\
    unescape_chars fuel v h1 = Returns (v, h2) /\
    represents h2 v
      (MongoEscape.unescape_chars (MongoEscape.escape_chars d)).
Proof.
  intros Hrep Hwf Hfuel.
  destruct (in_place_represents ESCAPE_TRANSLATION esc_key_idemp fuel h v d)
    as (h1 & Hrun1 & Hrep1); [done..|].
  destruct (in_place_represents UNESCAPE_TRANSLATION unesc_key_idemp fuel h1 v
              (MongoEscape.escape_chars d)) as (h2 & Hrun2 & Hrep2).
  - done.
  - by apply wf_translate; [apply esc_key_idemp|].
  - etrans; [|exact Hfuel]. by apply turns_translate; [apply esc_key_idemp|].
  - by exists h1, h2.
Qed.

End InPlaceFacts.

(* ===================================================================== *)
(** * Properties of resource.py *)
(* ===================================================================== *)

Module ResourceFacts.
Import Resource.

Ltac unfold_prog :=
  unfold add_auth_token_to_kwargs_from_cli, with_open, try_finally,
    try_except, manager_get_by_name, manager_get_by_id,
    manager_get_by_ref_or_id, manager_get_all, manager_create,
    manager_update, manager_delete, os_path_isfile, f_read, print,
    self_print_output, attr, lift, ask, bind, ret, raise in *.

(** ** Identifier resolution *)

(** C2.  Name-or-id resolution asks the manager by name first.  A resource
    found by name is returned and nothing else is asked; an error of the
    name lookup is the error of the resolution.  When the name lookup finds
    nothing the manager is asked by id: a resource found is returned, and
    when the id lookup finds nothing, or fails with any error, that error is
    dropped and [ResourceNotFoundError] is raised with a message that quotes
    the identifier. *)
Theorem name_or_id_resolution (self : Self) (name_or_id : pyval)
    (kw : kwargs) (t : trace) :
  let t1 := t ++ [EvBackend (GetByName name_or_id kw)] in
  let t2 := t1 ++ [EvBackend (GetById name_or_id kw)] in
  let resolve := ResourceCommand.get_resource_by_name_or_id self name_or_id kw in
  let not_found := ResourceNotFoundError (not_found_message name_or_id) in
  (forall i, get_by_name (manager self) t name_or_id kw = Ok (Some i) ->
             resolve t = (Ok i, t1)) /\
  (forall e, get_by_name (manager self) t name_or_id kw = Raise e ->
             resolve t = (Raise e, t1)) /\
  (get_by_name (manager self) t name_or_id kw = Ok None ->
   (forall i, get_by_id (manager self) t1 name_or_id kw = Ok (Some i) ->
              resolve t = (Ok i, t2)) /\
   (get_by_id (manager self) t1 name_or_id kw = Ok None ->
    resolve t = (Raise not_found, t2)) /\
   (forall e, get_by_id (manager self) t1 name_or_id kw = Raise e ->
              resolve t = (Raise not_found, t2))).
Proof.
  intros t1 t2 resolve not_found. subst resolve t1 t2 not_found.
  unfold ResourceCommand.get_resource_by_name_or_id, not_found_message.
  unfold_prog.
  split; [|split]; [intros i -> | intros e -> | intros ->]; [done..|].
  split; [|split]; [intros i -> | intros -> | intros e ->]; done.
Qed.

Lemma name_or_id_resolution_witness :
  let self := sample_self doc_without_id in
  let name := PStr "nonexistent" in
  get_by_name (manager self) [] name ∅ = Ok None /\
  get_by_id (manager self) [EvBackend (GetByName name ∅)] name ∅
    = Raise (Foreign "HTTPError 404") /\
  ResourceCommand.get_resource_by_name_or_id self name ∅ []
    = (Raise (ResourceNotFoundError (not_found_message name)),
       [EvBackend (GetByName name ∅); EvBackend (GetById name ∅)]).
Proof.
  intros self name. split; [reflexivity|]. split; [reflexivity|].
  destruct (name_or_id_resolution self name ∅ []) as (_ & _ & H).
  destruct (H eq_refl) as (_ & _ & H'). exact (H' _ eq_refl).
Defined.

Lemma name_or_id_emits_lookups (self : Self) name_or_id kw t r t' :
  ResourceCommand.get_resource_by_name_or_id self name_or_id kw t = (r, t') ->
  exists lookups, t' = t ++ (EvBackend <$> lookups) /\
                  forallb is_lookup lookups = true.
Proof.
  unfold ResourceCommand.get_resource_by_name_or_id. unfold_prog.
  repeat case_match; simplify_eq; intros [= <- <-];
    first [ by exists [GetByName name_or_id kw]
          | exists [GetByName name_or_id kw; GetById name_or_id kw];
            by rewrite <- (assoc_L (++)) ].
Qed.

(** ** Not found *)

(** C4.  In the get and the delete command, [run_and_print] catches the
    [ResourceNotFoundError] that [run] raises and prints
    [<display name> "<identifier>" is not found.] followed by a newline; it
    then returns normally.  In particular, deleting an identifier that
    neither lookup resolves prints that line and ends without error. *)
Theorem not_found_is_printed (order : list string) (cls : Class)
    (self : Self) (args : Namespace) (kw : kwargs) (t : trace) :
  let identifier := getattr_pk args (pk_argument_name cls) in
  let line := get_display_name (resource self) +:+ " " +:+ dquote
              +:+ py_str identifier +:+ dquote +:+ " is not found."
              +:+ newline in
  (forall msg t',
     ResourceGetCommand.run cls self args kw t
       = (Raise (ResourceNotFoundError msg), t') ->
     ResourceGetCommand.run_and_print_with order cls self args kw t
       = (Ok tt, t' ++ [EvPrint line])) /\
  (forall msg t',
     ResourceDeleteCommand.run cls self args kw t
       = (Raise (ResourceNotFoundError msg), t') ->
     ResourceDeleteCommand.run_and_print cls self args kw t
       = (Ok tt, t' ++ [EvPrint line])) /\
  (get_resource cls = ResourceCommand.get_resource ->
   let kw' := with_token args kw in
   let t1 := t ++ [EvBackend (GetByName identifier kw')] in
   let t2 := t1 ++ [EvBackend (GetById identifier kw')] in
   get_by_name (manager self) t identifier kw' = Ok None ->
   (forall i, get_by_id (manager self) t1 identifier kw' <> Ok (Some i)) ->
   ResourceDeleteCommand.run_and_print cls self args kw t
     = (Ok tt, t2 ++ [EvPrint line])).
Proof.
  intros identifier line. subst identifier line.
  split; [|split].
  - intros msg t'.
    unfold ResourceGetCommand.run_and_print_with, ResourceGetCommand.run,
      ResourceCommand.print_not_found.
    unfold_prog. by intros ->.
  - intros msg t'.
    unfold ResourceDeleteCommand.run_and_print, ResourceDeleteCommand.run,
      ResourceCommand.print_not_found.
    unfold_prog. by intros ->.
  - intros Hcls kw' t1 t2 Hname Hid. subst kw' t1 t2.
    unfold ResourceDeleteCommand.run_and_print, ResourceDeleteCommand.run,
      ResourceCommand.print_not_found, with_token in *.
    rewrite Hcls.
    unfold ResourceCommand.get_resource,
      ResourceCommand.get_resource_by_name_or_id.
    unfold_prog. rewrite Hname.
    destruct (get_by_id _ _ _ _) as [[i|]|e] eqn:E; try done.
    by destruct (Hid i).
Qed.

Lemma not_found_is_printed_witness :
  let self := sample_self doc_without_id in
  let name := PStr "nonexistent" in
  get_by_name (manager self) [] name ∅ = Ok None /\
  (forall i, get_by_id (manager self) [EvBackend (GetByName name ∅)] name ∅
             <> Ok (Some i)) /\
  ResourceDeleteCommand.run_and_print ResourceDeleteCommand.class self
    delete_nonexistent_args ∅ []
  = (Ok tt,
     [EvBackend (GetByName name ∅); EvBackend (GetById name ∅);
      EvPrint ("Alert " +:+ dquote +:+ "nonexistent" +:+ dquote
               +:+ " is not found." +:+ newline)]).
Proof.
  intros self name.
  assert (forall i, get_by_id (manager self) [EvBackend (GetByName name ∅)]
                      name ∅ <> Ok (Some i)) as Hid by (intros i; discriminate).
  split; [reflexivity|]. split; [exact Hid|].
  destruct (not_found_is_printed [] ResourceDeleteCommand.class self
              delete_nonexistent_args ∅ []) as (_ & _ & H).
  exact (H eq_refl eq_refl Hid).
Defined.

(** ** Update *)

(** C3, as stated, fails: the identifier is resolved, by a call on the
    manager, before the file is looked into. *)
Lemma update_mismatch_counterexample :
  let self := sample_self doc_with_other_id in
  let t := [EvIsFile "alert.json";
            EvBackend (GetByName (PStr "alertA")
                         {["token" := PStr "s3cret"]});
            EvOpen "alert.json"; EvRead "alert.json"; EvClose "alert.json"] in
  ResourceUpdateCommand.run ResourceUpdateCommand.class self sample_args ∅ []
  = (Raise (Exception (ResourceUpdateCommand.mismatch_message self)), t) /\
  ~ no_backend_call t.
Proof.
  intros self t. split; [vm_compute; reflexivity|].
  intros H. discriminate H.
Qed.

(** C3, amended.  When the instance read from the file carries an id (a
    true value) that differs from the id of the instance the identifier
    resolved to, [run] raises the mismatch error.  After the resolution it
    opens, reads and closes the file and calls the manager no more: update
    is never invoked, and the calls of the invocation are those of the
    resolution, which for name-or-id resolution are lookups only. *)
Theorem update_id_mismatch (cls : Class) (self : Self) (args : Namespace)
    (kw : kwargs) (t t2 : trace) (instance modified : instance)
    (content : string) (data : MongoEscape.doc) (modified_id id : pyval) :
  let f := ns_file args in
  let kw' := with_token args kw in
  let identifier := getattr_pk args (pk_argument_name cls) in
  let after := [EvOpen f; EvRead f; EvClose f] in
  isfile (host self) t f = true ->
  get_resource cls self identifier kw' (t ++ [EvIsFile f])
    = (Ok instance, t2) ->
  open (host self) t2 f = Ok tt ->
  read (host self) (t2 ++ [EvOpen f]) f = Ok content ->
  json_loads (host self) content = Ok data ->
  deserialize (resource self) data = Ok modified ->
  modified !! "id" = Some modified_id -> truthy modified_id = true ->
  instance !! "id" = Some id -> py_ne modified_id id = true ->
  ResourceUpdateCommand.run cls self args kw t
    = (Raise (Exception (ResourceUpdateCommand.mismatch_message self)),
       t2 ++ after) /\
  backend_calls (t2 ++ after) = backend_calls t2 /\
  (get_resource cls = ResourceCommand.get_resource ->
   exists lookups, t2 = t ++ [EvIsFile f] ++ (EvBackend <$> lookups) /\
                   forallb is_lookup lookups = true).
Proof.
  intros f kw' identifier after Hfile Hres Hopen Hread Hjson Hdes Hmid Htrue
    Hid Hne.
  subst f kw' identifier after. split; [|split].
  - unfold ResourceUpdateCommand.run, with_token in *. unfold_prog.
    rewrite Hfile. simpl. rewrite Hres, Hopen, Hread, Hjson, Hdes.
    unfold getattr. rewrite Hmid. simpl. rewrite Htrue. simpl.
    rewrite Hid. simpl. rewrite Hne. by rewrite <- !(assoc_L (++)).
  - unfold backend_calls. rewrite omap_app. simpl. by rewrite app_nil_r.
  - intros Hcls. rewrite Hcls in Hres.
    apply name_or_id_emits_lookups in Hres as (lookups & -> & Hl).
    exists lookups. by rewrite <- (assoc_L (++)).
Qed.

Lemma update_id_mismatch_witness :
  let self := sample_self doc_with_other_id in
  let t2 := [EvIsFile "alert.json";
             EvBackend (GetByName (PStr "alertA")
                          {["token" := PStr "s3cret"]})] in
  ResourceUpdateCommand.run ResourceUpdateCommand.class self sample_args ∅ []
  = (Raise (Exception (ResourceUpdateCommand.mismatch_message self)),
     t2 ++ [EvOpen "alert.json"; EvRead "alert.json"; EvClose "alert.json"]).
Proof.
  intros self t2.
  refine (proj1 (update_id_mismatch ResourceUpdateCommand.class self
                   sample_args ∅ [] t2 alertA _ "..." doc_with_other_id
                   (PStr "other") (PStr "507f") _ _ _ _ _ _ _ _ _ _));
    reflexivity.
Defined.

(** C5.  When the instance read from the file carries no id (none, or a
    false value), [run] copies the id of the instance the identifier
    resolved to onto it, and hands the manager's update that instance, whose
    id is the id of the resolved instance. *)
Theorem update_without_id (cls : Class) (self : Self) (args : Namespace)
    (kw : kwargs) (t t2 : trace) (instance modified : instance)
    (content : string) (data : MongoEscape.doc) (id : pyval) :
  let f := ns_file args in
  let kw' := with_token args kw in
  let identifier := getattr_pk args (pk_argument_name cls) in
  let submitted := setattr modified "id" id in
  isfile (host self) t f = true ->
  get_resource cls self identifier kw' (t ++ [EvIsFile f])
    = (Ok instance, t2) ->
  open (host self) t2 f = Ok tt ->
  read (host self) (t2 ++ [EvOpen f]) f = Ok content ->
  json_loads (host self) content = Ok data ->
  deserialize (resource self) data = Ok modified ->
  truthy (getattr modified "id") = false ->
  instance !! "id" = Some id ->
  ResourceUpdateCommand.run cls self args kw t
    = (update (manager self) (t2 ++ [EvOpen f; EvRead f]) submitted kw',
       t2 ++ [EvOpen f; EvRead f; EvBackend (Update submitted kw');
              EvClose f]) /\
  submitted !! "id" = instance !! "id".
Proof.
  intros f kw' identifier submitted Hfile Hres Hopen Hread Hjson Hdes Hno Hid.
  subst f kw' identifier submitted. split.
  - unfold ResourceUpdateCommand.run, with_token in *. unfold_prog.
    rewrite Hfile. simpl. rewrite Hres, Hopen, Hread, Hjson, Hdes, Hno.
    simpl. rewrite Hid. by rewrite <- !(assoc_L (++)).
  - rewrite Hid. apply lookup_insert_eq.
Qed.

Lemma update_without_id_witness :
  let self := sample_self doc_without_id in
  let kw' : kwargs := {["token" := PStr "s3cret"]} in
  let t2 := [EvIsFile "alert.json";
             EvBackend (GetByName (PStr "alertA") kw')] in
  let submitted : instance :=
    <["id" := PStr "507f"]> {["name" := PStr "renamed"]} in
  ResourceUpdateCommand.run ResourceUpdateCommand.class self sample_args ∅ []
  = (Ok submitted,
     t2 ++ [EvOpen "alert.json"; EvRead "alert.json";
            EvBackend (Update submitted kw'); EvClose "alert.json"]).
Proof.
  intros self kw' t2 submitted.
  refine (proj1 (update_without_id ResourceUpdateCommand.class self
                   sample_args ∅ [] t2 alertA {["name" := PStr "renamed"]}
                   "..." doc_without_id (PStr "507f") _ _ _ _ _ _ _ _));
    reflexivity.
Defined.

(** ** List *)

(** What the two list commands hand to [get_all], for any invocation: the
    plain one the keyword arguments with the token, the pack-scoped one the
    pack filter alone. *)
Lemma list_run_calls (self : Self) (args : Namespace) (kw : kwargs)
    (t : trace) :
  ResourceListCommand.run self args kw t
  = (get_all (manager self) t (with_token args kw),
     t ++ [EvBackend (GetAll (with_token args kw))]) /\
  ContentPackResourceListCommand.run self args kw t
  = (get_all (manager self) t {["pack" := ns_pack args]},
     t ++ [EvBackend (GetAll {["pack" := ns_pack args]})]).
Proof. done. Qed.

(** C7, where the code departs from it.  Called with the token [s3cret] and
    the pack [core], the plain list command passes the token to [get_all];
    the pack-scoped list command passes the pack filter and no token. *)
Theorem pack_list_drops_token :
  let self := sample_self doc_without_id in
  ns_token sample_args = PStr "s3cret" /\
  ResourceListCommand.run self sample_args ∅ []
  = (Ok [alertA], [EvBackend (GetAll {["token" := PStr "s3cret"]})]) /\
  ContentPackResourceListCommand.run self sample_args ∅ []
  = (Ok [alertA], [EvBackend (GetAll {["pack" := PStr "core"]})]) /\
  ({["pack" := PStr "core"]} : kwargs) !! "token" = None.
Proof. intros self. repeat split. Qed.

(** ** Files and backend calls *)

(** C8, as stated, fails: the create call is made while the file is still
    open; the file is closed when the call has returned. *)
Lemma file_scope_counterexample :
  let self := sample_self doc_without_id in
  let kw' : kwargs := {["token" := PStr "s3cret"]} in
  let created : instance := {["name" := PStr "renamed"]} in
  let evs := [EvIsFile "alert.json"; EvOpen "alert.json";
              EvRead "alert.json"; EvBackend (Create created kw');
              EvClose "alert.json"] in
  ResourceCreateCommand.run self sample_args ∅ []
  = (Ok (<["id" := PStr "60aa"]> created), evs) /\
  ~ file_released_before_backend "alert.json" evs.
Proof.
  intros self kw' created evs. split; [vm_compute; reflexivity|].
  intros H.
  destruct (H [EvIsFile "alert.json"; EvOpen "alert.json";
               EvRead "alert.json"] (Create created kw')
              [EvClose "alert.json"] eq_refl) as (_ & _ & Hc).
  repeat (apply elem_of_cons in Hc as [Hc|Hc]; [discriminate Hc|]).
  by apply elem_of_nil in Hc.
Qed.

(** A call that is made only when [Q] holds is not made when [Q] fails. *)
Lemma no_call_unless (Q : call -> Prop) (calls : list call) :
  (forall c, c ∈ calls -> Q c) -> (forall c, ~ Q c) -> calls = [].
Proof.
  intros Hcalls Hno. destruct calls as [|c calls]; [done|].
  destruct (Hno c). apply Hcalls, list_elem_of_here.
Qed.

(** C8, amended.  In create and in update, when a create or update call is
    made on the manager, the file has been opened and read in full before
    it, and the file is closed right after the call has returned; nothing
    else happens in between.  In update the lookups that resolve the
    identifier are made before the file is opened.  A create or update call
    is made only when the file opened and its content was read, decoded and
    deserialized without error, and it submits the instance so obtained (in
    update with, at most, its id set): when opening, reading, decoding or
    deserializing fails, no create or update call is made. *)
Theorem file_read_before_backend_call (self : Self) (args : Namespace)
    (kw : kwargs) (t : trace) :
  let f := ns_file args in
  let kw' := with_token args kw in
  (exists evs,
     (ResourceCreateCommand.run self args kw t).2 = t ++ evs /\
     (forall c, c ∈ backend_calls evs ->
        exists i, c = Create i kw' /\
          evs = [EvIsFile f; EvOpen f; EvRead f; EvBackend c; EvClose f] /\
          isfile (host self) t f = true /\
          file_yields self f (t ++ [EvIsFile f]) i) /\
     ((forall i, ~ file_yields self f (t ++ [EvIsFile f]) i) ->
      backend_calls evs = [])) /\
  (forall pk,
     let cls := {| pk_argument_name := pk;
                   get_resource := ResourceCommand.get_resource |} in
     exists lookups rest,
       let t2 := (t ++ [EvIsFile f]) ++ (EvBackend <$> lookups) in
       (ResourceUpdateCommand.run cls self args kw t).2
         = t ++ [EvIsFile f] ++ (EvBackend <$> lookups) ++ rest /\
       forallb is_lookup lookups = true /\
       (forall c, c ∈ backend_calls rest ->
          exists i modified, c = Update i kw' /\
            rest = [EvOpen f; EvRead f; EvBackend c; EvClose f] /\
            isfile (host self) t f = true /\
            file_yields self f t2 modified /\
            (i = modified \/ exists id, i = setattr modified "id" id)) /\
       ((forall modified, ~ file_yields self f t2 modified) ->
        backend_calls rest = [])).
Proof.
  intros f kw'. subst f kw'. split.
  - assert (exists evs,
              (ResourceCreateCommand.run self args kw t).2 = t ++ evs /\
              forall c, c ∈ backend_calls evs ->
                exists i, c = Create i (with_token args kw) /\
                  evs = [EvIsFile (ns_file args); EvOpen (ns_file args);
                         EvRead (ns_file args); EvBackend c;
                         EvClose (ns_file args)] /\
                  isfile (host self) t (ns_file args) = true /\
                  file_yields self (ns_file args)
                    (t ++ [EvIsFile (ns_file args)]) i)
      as (evs & Htrace & Hcalls).
    { unfold ResourceCreateCommand.run, with_token, file_yields. unfold_prog.
      destruct (isfile _ _ _) eqn:Hfile; simpl.
      2:{ exists [EvIsFile (ns_file args)]. split; [done|].
          intros c Hc. by apply elem_of_nil in Hc. }
      repeat case_match; simplify_eq; simpl;
        rewrite <- ?(assoc_L (++)); simpl;
        (eexists; split; [reflexivity|]); simpl;
        intros c Hc; try (by apply elem_of_nil in Hc);
        apply list_elem_of_singleton in Hc as ->;
        repeat match goal with x : () |- _ => destruct x end;
        eexists; split_and!; eauto 10. }
    exists evs. split; [done|]. split; [done|].
    intros Hno.
    apply (no_call_unless
             (fun c => exists i, file_yields self (ns_file args)
                                   (t ++ [EvIsFile (ns_file args)]) i)).
    + intros c Hc. destruct (Hcalls c Hc) as (i & _ & _ & _ & Hy). by exists i.
    + intros _ [i Hy]. by apply (Hno i).
  - intros pk cls. subst cls.
    assert (exists lookups rest,
              (ResourceUpdateCommand.run
                 {| pk_argument_name := pk;
                    get_resource := ResourceCommand.get_resource |}
                 self args kw t).2
              = t ++ [EvIsFile (ns_file args)] ++ (EvBackend <$> lookups)
                  ++ rest /\
              forallb is_lookup lookups = true /\
              forall c, c ∈ backend_calls rest ->
                exists i modified, c = Update i (with_token args kw) /\
                  rest = [EvOpen (ns_file args); EvRead (ns_file args);
                          EvBackend c; EvClose (ns_file args)] /\
                  isfile (host self) t (ns_file args) = true /\
                  file_yields self (ns_file args)
                    ((t ++ [EvIsFile (ns_file args)])
                       ++ (EvBackend <$> lookups)) modified /\
                  (i = modified \/ exists id, i = setattr modified "id" id))
      as (lookups & rest & Htrace & Hl & Hcalls).
    { unfold ResourceUpdateCommand.run, with_token, file_yields.
      unfold_prog. simpl.
      destruct (isfile _ _ _) eqn:Hfile; simpl.
      2:{ exists [], []. simpl. split; [done|]. split; [done|].
          intros c Hc. by apply elem_of_nil in Hc. }
      unfold ResourceCommand.get_resource.
      destruct (ResourceCommand.get_resource_by_name_or_id _ _ _ _)
        as [r t2] eqn:Hres.
      apply name_or_id_emits_lookups in Hres as (lookups & -> & Hl).
      exists lookups.
      repeat case_match; simplify_eq; simpl;
        rewrite <- ?(assoc_L (++)); simpl;
        first [ eexists; split; [reflexivity|]
              | exists []; split; [by rewrite app_nil_r|] ];
        (split; [done|]); simpl;
        intros c Hc; try (by apply elem_of_nil in Hc);
        apply list_elem_of_singleton in Hc as ->;
        repeat match goal with x : () |- _ => destruct x end;
        eexists _, _; split_and!; eauto 10. }
    exists lookups, rest. simpl. split; [done|]. split; [done|].
    split; [done|]. intros Hno.
    apply (no_call_unless
             (fun c => exists modified,
                file_yields self (ns_file args)
                  ((t ++ [EvIsFile (ns_file args)])
                     ++ (EvBackend <$> lookups)) modified)).
    + intros c Hc.
      destruct (Hcalls c Hc) as (i & modified & _ & _ & _ & Hy & _).
      by exists modified.
    + intros _ [modified Hy]. by apply (Hno modified).
Qed.

Lemma file_read_before_backend_call_witness :
  let self := sample_self doc_without_id in
  let kw' : kwargs := {["token" := PStr "s3cret"]} in
  let c := Create {["name" := PStr "renamed"]} kw' in
  (ResourceCreateCommand.run self sample_args ∅ []).2
  = [EvIsFile "alert.json"; EvOpen "alert.json"; EvRead "alert.json";
     EvBackend c; EvClose "alert.json"].
Proof.
  intros self kw' c.
  destruct (file_read_before_backend_call self sample_args ∅ [])
    as [(evs & Hevs & Hc & _) _].
  rewrite Hevs. simpl.
  assert (c ∈ backend_calls evs) as Hin.
  { simpl in Hevs. rewrite <- Hevs. vm_compute. apply list_elem_of_here. }
  destruct (Hc c Hin) as (i & _ & -> & _). reflexivity.
Defined.

End ResourceFacts.

(* ===================================================================== *)
(** * More properties of mongoescape.py *)
(* ===================================================================== *)

Module MongoEscapeMoreFacts.
Import MongoEscape MongoEscapeMore MongoEscapeFacts.

(** ** Keys *)

Lemma esc_char_spec c : translate_char ESCAPE_TRANSLATION c = escaped_char c.
Proof. unfold escaped_char. char_cases. Qed.

Lemma unesc_char_spec c :
  translate_char UNESCAPE_TRANSLATION c = unescaped_char c.
Proof. unfold unescaped_char. char_cases. Qed.

Lemma not_reserved c : c ∉ UNESCAPED <-> c <> FULL_STOP /\ c <> DOLLAR_SIGN.
Proof. unfold UNESCAPED. set_solver. Qed.

Lemma not_substitute c :
  c ∉ ESCAPED <-> c <> FULLWIDTH_FULL_STOP /\ c <> FULLWIDTH_DOLLAR_SIGN.
Proof. unfold ESCAPED. set_solver. Qed.

Lemma esc_char_fixed c : translate_char ESCAPE_TRANSLATION c = c <-> c ∉ UNESCAPED.
Proof. rewrite not_reserved. split; [intros H|intros [H1 H2]]; char_cases. Qed.

Lemma unesc_char_fixed c :
  translate_char UNESCAPE_TRANSLATION c = c <-> c ∉ ESCAPED.
Proof. rewrite not_substitute. split; [intros H|intros [H1 H2]]; char_cases. Qed.

Lemma fmap_fixed {A} (g : A -> A) (l : list A) :
  g <$> l = l <-> Forall (fun x => g x = x) l.
Proof.
  induction l as [|x l IH]; [by split|].
  rewrite fmap_cons, Forall_cons, <- IH.
  split; [intros [= ? ?]|intros [-> ->]]; done.
Qed.

Lemma esc_key_fixed k : esc_key k = k <-> has_reserved k = false.
Proof.
  unfold has_reserved, esc_key.
  rewrite bool_decide_eq_false, <- Forall_Exists_neg, translate_key_fmap.
  etrans; [apply fmap_fixed|].
  apply Forall_iff. intros c. apply esc_char_fixed.
Qed.

Lemma unesc_key_fixed k : unesc_key k = k <-> has_substitute k = false.
Proof.
  unfold has_substitute, unesc_key.
  rewrite bool_decide_eq_false, <- Forall_Exists_neg, translate_key_fmap.
  etrans; [apply fmap_fixed|].
  apply Forall_iff. intros c. apply unesc_char_fixed.
Qed.

(** X1.  What a pass does to a key is a character-by-character rewriting:
    escaping puts U+FF0E for each full stop and U+FF04 for each dollar sign,
    unescaping does the converse, every other character stays, and the key
    keeps its length.  The two [replace] calls of a pass do not feed one
    another. *)
Theorem key_rewritten_char_by_char k :
  (esc_key k = escaped_char <$> k /\ length (esc_key k) = length k) /\
  (unesc_key k = unescaped_char <$> k /\ length (unesc_key k) = length k).
Proof.
  unfold esc_key, unesc_key. rewrite !translate_key_fmap, !length_fmap.
  repeat split; apply list_fmap_ext; intros _ c _;
    [apply esc_char_spec|apply unesc_char_spec].
Qed.

(** X2.  After the escaping pass over a well-formed document no key
    reachable through mapping nesting contains a full stop or a dollar sign;
    after the unescaping pass none contains a substitute character. *)
Theorem pass_clears_its_characters D :
  wf D = true ->
  reserved_free (escape_chars D) = true /\
  substitute_free (unescape_chars D) = true.
Proof.
  intros Hwf. unfold reserved_free, substitute_free.
  rewrite !forallb_Forall. split.
  - eapply Forall_impl;
      [exact (translate_image ESCAPE_TRANSLATION esc_key_idemp D Hwf)|].
    intros k Hk. apply negb_true_iff, esc_key_fixed, Hk.
  - eapply Forall_impl;
      [exact (translate_image UNESCAPE_TRANSLATION unesc_key_idemp D Hwf)|].
    intros k Hk. apply negb_true_iff, unesc_key_fixed, Hk.
Qed.

Lemma pass_clears_its_characters_witness :
  wf sample_doc = true /\
  reserved_free (escape_chars sample_doc) = true /\
  substitute_free (unescape_chars sample_doc) = true.
Proof.
  split; [reflexivity|]. apply (pass_clears_its_characters sample_doc).
  reflexivity.
Defined.

(** X3.  The documents a pass leaves as they are, are those it has nothing
    to rewrite in: a well-formed document is returned unchanged by the
    escaping pass exactly when no key reachable through mapping nesting
    contains a full stop or a dollar sign, and by the unescaping pass
    exactly when none contains a substitute character. *)
Theorem unchanged_iff_nothing_to_rewrite D :
  wf D = true ->
  (escape_chars D = D <-> reserved_free D = true) /\
  (unescape_chars D = D <-> substitute_free D = true).
Proof.
  intros Hwf. unfold reserved_free, substitute_free.
  rewrite !forallb_Forall. split; split.
  - intros HD.
    pose proof (translate_image ESCAPE_TRANSLATION esc_key_idemp D Hwf) as Hi.
    unfold escape_chars in HD. rewrite HD in Hi.
    eapply Forall_impl; [exact Hi|].
    intros k Hk. apply negb_true_iff, esc_key_fixed, Hk.
  - intros HD. apply translate_fixed.
    eapply Forall_impl; [exact HD|].
    intros k Hk. apply esc_key_fixed, negb_true_iff, Hk.
  - intros HD.
    pose proof (translate_image UNESCAPE_TRANSLATION unesc_key_idemp D Hwf)
      as Hi.
    unfold unescape_chars in HD. rewrite HD in Hi.
    eapply Forall_impl; [exact Hi|].
    intros k Hk. apply negb_true_iff, unesc_key_fixed, Hk.
  - intros HD. apply translate_fixed.
    eapply Forall_impl; [exact HD|].
    intros k Hk. apply unesc_key_fixed, negb_true_iff, Hk.
Qed.

Lemma unchanged_iff_nothing_to_rewrite_witness :
  wf stored_doc = true /\
  (escape_chars stored_doc = stored_doc <-> reserved_free stored_doc = true) /\
  (unescape_chars stored_doc = stored_doc <->
   substitute_free stored_doc = true).
Proof.
  split; [reflexivity|]. apply (unchanged_iff_nothing_to_rewrite stored_doc).
  reflexivity.
Defined.

(** ** Mappings whose keys collide *)

Section DictMore.
Context {V : Type}.
Implicit Types d : dict V.

Lemma keys_setitem_iff d k v x :
  x ∈ keys (setitem d k v) <-> x ∈ keys d \/ x = k.
Proof.
  rewrite keys_setitem. case_decide; [|rewrite elem_of_app]; set_solver.
Qed.

Lemma keys_delitem_iff d k x :
  NoDup (keys d) -> x ∈ keys (delitem d k) <-> x ∈ keys d /\ x <> k.
Proof.
  intros Hd. split.
  - intros Hx. split.
    + eapply elem_of_sublist; [done|apply keys_delitem_sublist].
    + intros ->. by eapply keys_delitem_gone.
  - intros [Hx Hne]. by apply keys_delitem_other.
Qed.

Lemma getitem_setitem d k v k' :
  getitem (setitem d k v) k'
  = (if decide (k = k') then Some v else getitem d k').
Proof.
  induction d as [|[k0 v0] d IH]; simpl.
  - by repeat case_decide.
  - repeat (case_decide; simpl; subst); try done.
    all: rewrite IH; by repeat case_decide.
Qed.

Lemma getitem_delitem_other d k k' :
  k' <> k -> getitem (delitem d k) k' = getitem d k'.
Proof.
  intros Hne. induction d as [|[k0 v0] d IH]; simpl; [done|].
  repeat (case_decide; simpl; subst); done.
Qed.
End DictMore.

Lemma keys_fmap_values {V W} (h : V -> W) (d : dict V) :
  keys ((fun kv => (kv.1, h kv.2)) <$> d) = keys d.
Proof. unfold keys. rewrite <- list_fmap_compose. done. Qed.

Section Collisions.
Variable tr : list (char * char).
#[local] Abbreviation f := (translate_key tr).
Hypothesis f_idemp : forall k, f (f k) = f k.

Lemma fold_rename_key_set {V} (todo : dict V) :
  forall done acc : dict V,
    NoDup (keys acc) -> NoDup (keys (done ++ todo)) ->
    (forall x, x ∈ keys acc <-> x ∈ f <$> keys done \/ x ∈ keys todo) ->
    forall x, x ∈ keys (fold_left (rename_item tr) todo acc)
              <-> x ∈ f <$> keys (done ++ todo).
Proof.
  induction todo as [|[k v] todo IH]; intros done acc Hacc Hm Hinv x; simpl.
  - rewrite app_nil_r, Hinv. unfold keys at 2. set_solver.
  - replace (done ++ (k, v) :: todo) with ((done ++ [(k, v)]) ++ todo) in *
      by (by rewrite <- app_assoc).
    assert ((k ∉ keys done) /\ (k ∉ keys todo)) as [Hkd Hkt].
    { unfold keys in *. rewrite !fmap_app in Hm. simpl in Hm.
      apply NoDup_app in Hm as (Hm1 & Hm2 & _).
      apply NoDup_app in Hm1 as (_ & Hm1 & _). set_solver. }
    apply IH; [| done |]; clear IH x.
    + unfold rename_item. case_decide; [|done].
      by apply NoDup_keys_delitem, NoDup_keys_setitem.
    + intros x. unfold keys at 2. rewrite !fmap_app, elem_of_app. simpl.
      rewrite list_elem_of_singleton.
      destruct (decide (f k = k)) as [Hfix|Hch].
      * rewrite rename_item_fixed by done. rewrite Hinv.
        unfold keys at 2. rewrite fmap_cons, elem_of_cons. simpl.
        rewrite Hfix. unfold keys. tauto.
      * rewrite rename_item_changed by done. simpl.
        rewrite keys_delitem_iff by (by apply NoDup_keys_setitem).
        rewrite keys_setitem_iff, Hinv.
        unfold keys at 2. rewrite fmap_cons, elem_of_cons. simpl.
        fold (keys done) (keys todo). split.
        -- intros [[[?|[?|?]]|?] ?]; tauto.
        -- intros [[Hx|Hx]|Hx].
           ++ split; [tauto|]. intros ->.
              apply list_elem_of_fmap in Hx as (k0 & -> & _).
              by rewrite f_idemp in Hch.
           ++ split; [tauto|]. congruence.
           ++ split; [tauto|]. by intros ->.
Qed.

Lemma rename_keys_key_set {V} (m : dict V) x :
  NoDup (keys m) -> x ∈ keys (rename_keys tr m) <-> x ∈ f <$> keys m.
Proof.
  intros Hm. apply (fold_rename_key_set m [] m); [done|done|].
  intros y. simpl. set_solver.
Qed.

Lemma translate_key_set m :
  NoDup (keys m) ->
  exists m', _translate_chars tr (DMap m) = DMap m' /\
             forall k, k ∈ keys m' <-> k ∈ f <$> keys m.
Proof.
  intros Hm. rewrite translate_DMap. eexists. split; [done|].
  intros k. rewrite keys_fmap_values. by apply rename_keys_key_set.
Qed.

Lemma fold_rename_getitem_kept {V} (post : dict V) :
  forall (acc : dict V) t v,
    f t = t ->
    (forall k2, k2 ∈ keys post -> f k2 = t -> f k2 = k2) ->
    getitem acc t = Some v ->
    getitem (fold_left (rename_item tr) post acc) t = Some v.
Proof.
  induction post as [|[k2 v2] post IH]; intros acc t v Ht Hpost Hacc; [done|].
  simpl. apply IH; [done| |].
  - intros k3 Hk3. apply Hpost. unfold keys. rewrite fmap_cons.
    by apply list_elem_of_further.
  - destruct (decide (f k2 = k2)) as [Hfix|Hch].
    + by rewrite rename_item_fixed.
    + rewrite rename_item_changed by done. simpl.
      assert (f k2 <> t) as Hne.
      { intros Heq. apply Hch, Hpost; [|done].
        unfold keys. rewrite fmap_cons. apply list_elem_of_here. }
      assert (t <> k2) as Hne2 by (by intros ->).
      rewrite getitem_delitem_other by done.
      rewrite getitem_setitem. by case_decide.
Qed.

Lemma rename_keys_last_wins {V} (pre post : dict V) k v :
  f k <> k ->
  (forall k2, k2 ∈ keys post -> f k2 = f k -> f k2 = k2) ->
  getitem (rename_keys tr (pre ++ (k, v) :: post)) (f k) = Some v.
Proof.
  intros Hch Hpost. unfold rename_keys, items.
  rewrite fold_left_app. simpl.
  apply fold_rename_getitem_kept; [apply f_idemp|done|].
  rewrite rename_item_changed by done. simpl.
  rewrite getitem_delitem_other by done.
  rewrite getitem_setitem. by case_decide.
Qed.

Lemma translate_last_wins pre post k v :
  f k <> k ->
  (forall k2, k2 ∈ keys post -> f k2 = f k -> f k2 = k2) ->
  exists m', _translate_chars tr (DMap (pre ++ (k, v) :: post)) = DMap m' /\
             getitem m' (f k) = Some (_translate_chars tr v).
Proof.
  intros Hch Hpost. eexists. split; [reflexivity|].
  rewrite fmap_app, fmap_cons. simpl.
  apply rename_keys_last_wins; [done|].
  intros k2. rewrite keys_fmap_values. apply Hpost.
Qed.
End Collisions.

(** X4.  The keys of the mapping a pass returns are the rewritten spellings
    of the keys it was given, no more and no fewer, also when several keys
    come to one spelling: every key of the result is the rewriting of a key
    of the input, and the rewriting of every key of the input is a key of the
    result. *)
Theorem result_keys_are_rewritten_keys m :
  NoDup (keys m) ->
  (exists m', escape_chars (DMap m) = DMap m' /\
              forall k, k ∈ keys m' <-> k ∈ esc_key <$> keys m) /\
  (exists m', unescape_chars (DMap m) = DMap m' /\
              forall k, k ∈ keys m' <-> k ∈ unesc_key <$> keys m).
Proof.
  intros Hm. split.
  - by apply (translate_key_set ESCAPE_TRANSLATION esc_key_idemp).
  - by apply (translate_key_set UNESCAPE_TRANSLATION unesc_key_idemp).
Qed.

Lemma result_keys_are_rewritten_keys_witness :
  NoDup (keys [([FULL_STOP], DNum 1); ([FULLWIDTH_FULL_STOP], DNum 2)]) /\
  exists m', escape_chars colliding_doc = DMap m' /\
             forall k, k ∈ keys m'
                       <-> k ∈ esc_key <$> [[FULL_STOP]; [FULLWIDTH_FULL_STOP]].
Proof.
  assert (forall ks : list ustring, bool_decide (NoDup ks) = true -> NoDup ks)
    as Hdec by (intros ks; apply bool_decide_eq_true).
  assert (NoDup (keys [([FULL_STOP], DNum 1); ([FULLWIDTH_FULL_STOP], DNum 2)]))
    as Hm by (by apply Hdec).
  split; [exact Hm|].
  exact (proj1 (result_keys_are_rewritten_keys _ Hm)).
Defined.

(** X5.  When several keys of one mapping come to one spelling, the value
    the result has under that spelling is the one of the last of them, in
    the order the mapping enumerates its entries, that the pass rewrites; a
    key that has the spelling already loses its value to any key rewritten
    to it, wherever it stands. *)
Theorem last_rewritten_key_wins tr pre post k v :
  tr = ESCAPE_TRANSLATION \/ tr = UNESCAPE_TRANSLATION ->
  translate_key tr k <> k ->
  (forall k2, k2 ∈ keys post -> translate_key tr k2 = translate_key tr k ->
              translate_key tr k2 = k2) ->
  exists m', _translate_chars tr (DMap (pre ++ (k, v) :: post)) = DMap m' /\
             getitem m' (translate_key tr k) = Some (_translate_chars tr v).
Proof.
  intros [-> | ->].
  - apply (translate_last_wins ESCAPE_TRANSLATION esc_key_idemp).
  - apply (translate_last_wins UNESCAPE_TRANSLATION unesc_key_idemp).
Qed.

Lemma last_rewritten_key_wins_witness :
  exists m', escape_chars colliding_doc = DMap m' /\
             getitem m' [FULLWIDTH_FULL_STOP] = Some (DNum 1).
Proof.
  apply (last_rewritten_key_wins ESCAPE_TRANSLATION []
           [([FULLWIDTH_FULL_STOP], DNum 2)] [FULL_STOP] (DNum 1)).
  - left. reflexivity.
  - vm_compute. discriminate.
  - intros k2 Hk2 _. apply list_elem_of_singleton in Hk2 as ->. reflexivity.
Defined.

Lemma translate_length tr m :
  (forall k, translate_key tr (translate_key tr k) = translate_key tr k) ->
  NoDup (keys m) ->
  exists m', _translate_chars tr (DMap m) = DMap m' /\
             length m' <= length m /\
             (length m' = length m <-> NoDup (translate_key tr <$> keys m)).
Proof.
  intros Hidem Hm. rewrite translate_DMap. eexists. split; [done|].
  rewrite length_fmap.
  destruct (rename_keys_image tr Hidem m Hm) as [Hnd _].
  pose proof (fun x => rename_keys_key_set tr Hidem m x Hm) as Hset.
  assert (keys (rename_keys tr m) ⊆+ translate_key tr <$> keys m) as Hsub.
  { apply NoDup_submseteq; [done|]. intros x. apply Hset. }
  assert (length (rename_keys tr m) = length (keys (rename_keys tr m))) as ->
    by (unfold keys; by rewrite length_fmap).
  assert (length m = length (translate_key tr <$> keys m)) as ->
    by (unfold keys; by rewrite !length_fmap).
  split; [by apply submseteq_length|]. split.
  - intros Hlen. apply submseteq_length_Permutation in Hsub; [|lia].
    by rewrite <- Hsub.
  - intros Hnd'. apply Permutation_length, NoDup_Permutation; [done..|].
    intros x. apply Hset.
Qed.

(** X25.  A pass never adds an entry to a mapping, and it drops entries
    exactly when keys collide: the mapping returned has as many entries as
    the one given if and only if no two keys of it are rewritten to one
    spelling. *)
Theorem entries_are_lost_iff_keys_collide m :
  NoDup (keys m) ->
  (exists m', escape_chars (DMap m) = DMap m' /\
              length m' <= length m /\
              (length m' = length m <-> NoDup (esc_key <$> keys m))) /\
  (exists m', unescape_chars (DMap m) = DMap m' /\
              length m' <= length m /\
              (length m' = length m <-> NoDup (unesc_key <$> keys m))).
Proof.
  intros Hm. split.
  - by apply (translate_length ESCAPE_TRANSLATION m esc_key_idemp).
  - by apply (translate_length UNESCAPE_TRANSLATION m unesc_key_idemp).
Qed.

Lemma entries_are_lost_iff_keys_collide_witness :
  exists m', escape_chars colliding_doc = DMap m' /\
             length m' <= 2 /\
             (length m' = 2
              <-> NoDup (esc_key <$> [[FULL_STOP]; [FULLWIDTH_FULL_STOP]])).
Proof.
  assert (forall ks : list ustring, bool_decide (NoDup ks) = true -> NoDup ks)
    as Hdec by (intros ks; apply bool_decide_eq_true).
  assert (NoDup (keys [([FULL_STOP], DNum 1); ([FULLWIDTH_FULL_STOP], DNum 2)]))
    as Hm by (by apply Hdec).
  exact (proj1 (entries_are_lost_iff_keys_collide _ Hm)).
Defined.

(** ** Escaping what was unescaped *)

Section RoundTrip.
Variables tr1 tr2 : list (char * char).
#[local] Abbreviation f1 := (translate_key tr1).
#[local] Abbreviation f2 := (translate_key tr2).
Hypothesis f1_idemp : forall k, f1 (f1 k) = f1 k.
Hypothesis f2_idemp : forall k, f2 (f2 k) = f2 k.
Variable clean : ustring -> Prop.
Hypothesis f2_f1 : forall k, clean k -> f2 (f1 k) = k.

Lemma f1_NoDup ks : Forall clean ks -> NoDup ks -> NoDup (f1 <$> ks).
Proof.
  rewrite Forall_forall. intros Hks. apply NoDup_fmap_2_strong.
  intros k1 k2 H1 H2 Heq.
  rewrite <- (f2_f1 k1), <- (f2_f1 k2) by auto. by rewrite Heq.
Qed.

Lemma translate_roundtrip D :
  wf D = true -> Forall clean (reachable_keys D) ->
  doc_equiv (_translate_chars tr2 (_translate_chars tr1 D)) D.
Proof.
  induction D as [| | | | |m IH] using doc_ind;
    try (intros; by apply equiv_other).
  intros Hwf Hfree.
  pose proof (wf_translate _ f2_idemp _ (wf_translate _ f1_idemp _ Hwf))
    as Hwf2.
  apply wf_DMap in Hwf as [Hk Hwf].
  apply Forall_reachable_keys_DMap in Hfree as [Hsub Hfree].
  destruct (translate_entries tr1 f1_idemp m Hk) as (m1 & E1 & Hm1);
    [by apply f1_NoDup|].
  assert (keys m1 ≡ₚ f1 <$> keys m) as Hk1.
  { rewrite <- (keys_fmap_entries f1 (_translate_chars tr1) m).
    unfold keys. by rewrite Hm1. }
  assert (f2 <$> keys m1 ≡ₚ keys m) as Hk1'.
  { rewrite Hk1, <- list_fmap_compose.
    rewrite <- (list_fmap_id (keys m)) at 2.
    erewrite Forall_fmap_ext_1; [done|].
    eapply Forall_impl; [exact Hsub|]. intros k. apply f2_f1. }
  destruct (translate_entries tr2 f2_idemp m1) as (m2 & E2 & Hm2).
  { rewrite Hk1. by apply f1_NoDup. }
  { by rewrite Hk1'. }
  rewrite E1, E2. apply equiv_map. intros k.
  assert (m2 ≡ₚ (fun kv => (f2 (f1 kv.1),
                             _translate_chars tr2 (_translate_chars tr1 kv.2)))
                <$> m) as Hp.
  { rewrite Hm2, Hm1, <- list_fmap_compose. done. }
  assert (NoDup (keys m2)) as Hk2.
  { rewrite E1, E2 in Hwf2. by apply wf_DMap in Hwf2 as [? _]. }
  rewrite (getitem_Permutation m2 _ k Hk2 Hp).
  clear -IH Hk Hwf Hsub Hfree f2_f1.
  induction m as [|[k0 v0] m IHm]; simpl; [constructor|].
  apply Forall_cons in IH as [IH0 IH]. apply Forall_cons in Hwf as [Hwf0 Hwf].
  apply Forall_cons in Hfree as [Hfree0 Hfree].
  unfold keys in *. rewrite fmap_cons in Hk, Hsub.
  apply NoDup_cons in Hk as [_ Hk]. apply Forall_cons in Hsub as [Hsub0 Hsub].
  simpl in *. rewrite (f2_f1 k0) by done.
  case_decide; [constructor; by apply IH0|by apply IHm].
Qed.
End RoundTrip.

Lemma esc_unesc_key k : has_reserved k = false -> esc_key (unesc_key k) = k.
Proof.
  unfold has_reserved.
  rewrite bool_decide_eq_false, <- Forall_Exists_neg, Forall_forall.
  intros Hk. unfold esc_key, unesc_key.
  rewrite !translate_key_fmap, <- list_fmap_compose.
  rewrite <- (list_fmap_id k) at 2. apply list_fmap_ext.
  intros i c Hc. simpl.
  assert (c ∉ UNESCAPED) as Hn by (eapply Hk, list_elem_of_lookup_2, Hc).
  apply not_reserved in Hn as [H1 H2]. clear Hk Hc. char_cases.
Qed.

(** X6.  The converse round trip.  For every well-formed document in which
    no key reachable through mapping nesting contains a full stop or a
    dollar sign (what a store that refuses those characters returns),
    escaping the unescaped document gives the same keys and the same value
    under each key, at every depth of mapping nesting. *)
Theorem reescape_restores_stored_document D :
  wf D = true -> reserved_free D = true ->
  doc_equiv (escape_chars (unescape_chars D)) D.
Proof.
  intros Hwf Hfree.
  apply (translate_roundtrip UNESCAPE_TRANSLATION ESCAPE_TRANSLATION
           unesc_key_idemp esc_key_idemp (fun k => has_reserved k = false));
    [apply esc_unesc_key|done|].
  unfold reserved_free in Hfree. rewrite forallb_Forall in Hfree.
  eapply Forall_impl; [exact Hfree|]. intros k. apply negb_true_iff.
Qed.

Lemma reescape_restores_stored_document_witness :
  wf stored_doc = true /\ reserved_free stored_doc = true /\
  doc_equiv (escape_chars (unescape_chars stored_doc)) stored_doc.
Proof.
  split; [reflexivity|]. split; [reflexivity|].
  exact (reescape_restores_stored_document stored_doc eq_refl eq_refl).
Defined.

(** ** One pass after the other, on any document without collisions *)

Section SecondPass.
Variables tr1 tr2 : list (char * char).
#[local] Abbreviation g1 := (translate_key tr1).
#[local] Abbreviation g2 := (translate_key tr2).
Hypothesis g1_idemp : forall k, g1 (g1 k) = g1 k.
Hypothesis g2_idemp : forall k, g2 (g2 k) = g2 k.
Hypothesis g2_g1 : forall k, g2 (g1 k) = g2 k.
Hypothesis g1_g2 : forall k, g1 (g2 k) = g1 k.

Lemma g2_NoDup ks : NoDup (g1 <$> ks) -> NoDup (g2 <$> ks).
Proof.
  intros Hnd. apply NoDup_fmap_2_strong; [|by eapply NoDup_fmap_1].
  intros k1 k2 H1 H2 Heq.
  assert (g1 k1 = g1 k2) as Heq1 by (by rewrite <- (g1_g2 k1), Heq, g1_g2).
  clear Heq. induction ks as [|k ks IH]; [by apply elem_of_nil in H1|].
  rewrite fmap_cons in Hnd. apply NoDup_cons in Hnd as [Hk Hnd].
  apply elem_of_cons in H1 as [->|H1]; apply elem_of_cons in H2 as [->|H2];
    [done| | |by apply IH].
  - exfalso. apply Hk. rewrite Heq1. by apply list_elem_of_fmap_2.
  - exfalso. apply Hk. rewrite <- Heq1. by apply list_elem_of_fmap_2.
Qed.

Lemma second_pass_absorbs_first D :
  wf D = true -> collision_free tr1 D = true ->
  doc_equiv (_translate_chars tr2 (_translate_chars tr1 D))
            (_translate_chars tr2 D).
Proof.
  induction D as [| | | | |m IH] using doc_ind;
    try (intros; by apply equiv_other).
  intros Hwf Hcf.
  pose proof (wf_translate _ g2_idemp _ (wf_translate _ g1_idemp _ Hwf))
    as Hwf2.
  pose proof (wf_translate _ g2_idemp _ Hwf) as Hwf3.
  apply wf_DMap in Hwf as [Hk Hwf].
  apply collision_free_DMap in Hcf as [Hnd1 Hcf].
  pose proof (g2_NoDup _ Hnd1) as Hnd2.
  destruct (translate_entries tr1 g1_idemp m Hk Hnd1) as (m1 & E1 & Hm1).
  assert (keys m1 ≡ₚ g1 <$> keys m) as Hk1.
  { rewrite <- (keys_fmap_entries g1 (_translate_chars tr1) m).
    unfold keys. by rewrite Hm1. }
  assert (g2 <$> keys m1 ≡ₚ g2 <$> keys m) as Hk1'.
  { rewrite Hk1, <- list_fmap_compose.
    assert ((g2 ∘ g1) <$> keys m = g2 <$> keys m) as ->; [|done].
    apply list_fmap_ext. intros _ k _. apply g2_g1. }
  destruct (translate_entries tr2 g2_idemp m1) as (m2 & E2 & Hm2).
  { rewrite Hk1. done. }
  { by rewrite Hk1'. }
  destruct (translate_entries tr2 g2_idemp m Hk Hnd2) as (m3 & E3 & Hm3).
  rewrite E1, E2, E3. apply equiv_map. intros k.
  assert (m2 ≡ₚ (fun kv => (g2 (g1 kv.1),
                             _translate_chars tr2 (_translate_chars tr1 kv.2)))
                <$> m) as Hp.
  { rewrite Hm2, Hm1, <- list_fmap_compose. done. }
  assert (NoDup (keys m2)) as Hk2.
  { rewrite E1, E2 in Hwf2. by apply wf_DMap in Hwf2 as [? _]. }
  assert (NoDup (keys m3)) as Hk3.
  { rewrite E3 in Hwf3. by apply wf_DMap in Hwf3 as [? _]. }
  rewrite (getitem_Permutation m2 _ k Hk2 Hp).
  rewrite (getitem_Permutation m3 _ k Hk3 Hm3).
  clear -IH Hwf Hcf g2_g1.
  induction m as [|[k0 v0] m IHm]; simpl; [constructor|].
  apply Forall_cons in IH as [IH0 IH]. apply Forall_cons in Hwf as [Hwf0 Hwf].
  apply Forall_cons in Hcf as [Hcf0 Hcf].
  simpl in *. rewrite (g2_g1 k0).
  case_decide; [constructor; by apply IH0|by apply IHm].
Qed.
End SecondPass.

Lemma unesc_esc_absorb k : unesc_key (esc_key k) = unesc_key k.
Proof.
  unfold esc_key, unesc_key. rewrite !translate_key_fmap, <- list_fmap_compose.
  apply list_fmap_ext. intros _ c _. simpl. char_cases.
Qed.

Lemma esc_unesc_absorb k : esc_key (unesc_key k) = esc_key k.
Proof.
  unfold esc_key, unesc_key. rewrite !translate_key_fmap, <- list_fmap_compose.
  apply list_fmap_ext. intros _ c _. simpl. char_cases.
Qed.

(** X26.  One pass after the other, without any condition on the
    characters of the keys.  For a well-formed document in which no two keys
    of one mapping are escaped to one spelling, unescaping the escaped
    document gives what unescaping the document itself gives: the same keys
    and the same value under each key, at every depth of mapping nesting.
    So the round trip alters a document exactly as one unescaping pass
    does.  The same holds with the two passes exchanged. *)
Theorem second_pass_absorbs_the_first D :
  wf D = true ->
  (collision_free ESCAPE_TRANSLATION D = true ->
   doc_equiv (unescape_chars (escape_chars D)) (unescape_chars D)) /\
  (collision_free UNESCAPE_TRANSLATION D = true ->
   doc_equiv (escape_chars (unescape_chars D)) (escape_chars D)).
Proof.
  intros Hwf. split; intros Hcf.
  - by apply (second_pass_absorbs_first ESCAPE_TRANSLATION UNESCAPE_TRANSLATION
                esc_key_idemp unesc_key_idemp unesc_esc_absorb
                esc_unesc_absorb).
  - by apply (second_pass_absorbs_first UNESCAPE_TRANSLATION ESCAPE_TRANSLATION
                unesc_key_idemp esc_key_idemp esc_unesc_absorb
                unesc_esc_absorb).
Qed.

Lemma second_pass_absorbs_the_first_witness :
  wf substitute_doc = true /\
  collision_free ESCAPE_TRANSLATION substitute_doc = true /\
  doc_equiv (unescape_chars (escape_chars substitute_doc))
            (unescape_chars substitute_doc).
Proof.
  split; [reflexivity|]. split; [reflexivity|].
  exact (proj1 (second_pass_absorbs_the_first substitute_doc eq_refl) eq_refl).
Defined.

(** ** Orders of enumeration *)

Lemma translate_ext tr1 tr2 :
  (forall k, translate_key tr1 k = translate_key tr2 k) ->
  forall D, _translate_chars tr1 D = _translate_chars tr2 D.
Proof.
  intros Hk.
  assert (forall V (todo acc : dict V),
            fold_left (rename_item tr1) todo acc
            = fold_left (rename_item tr2) todo acc) as Hfold.
  { intros V todo. induction todo as [|kv todo IH]; intros acc; [done|].
    simpl. rewrite IH. f_equal. unfold rename_item. by rewrite Hk. }
  intros D. induction D as [| | | | |m IH] using doc_ind; try done.
  simpl. f_equal. unfold rename_keys, items. rewrite Hfold.
  assert (((fun kv : ustring * doc => (kv.1, _translate_chars tr1 kv.2)) <$> m)
          = (fun kv : ustring * doc => (kv.1, _translate_chars tr2 kv.2)) <$> m)
    as ->; [|done].
  apply Forall_fmap_ext_1. eapply Forall_impl; [exact IH|].
  intros kv Hkv. simpl in *. by rewrite Hkv.
Qed.

(** X27.  The order in which a translation table enumerates its two entries
    does not matter: with either table taken in the other order a pass
    returns the same document, entry for entry. *)
Theorem table_order_is_immaterial D :
  _translate_chars (reverse ESCAPE_TRANSLATION) D = escape_chars D /\
  _translate_chars (reverse UNESCAPE_TRANSLATION) D = unescape_chars D.
Proof.
  split; apply translate_ext; intros k; apply translation_order.
Qed.

(** X28.  The order in which the mappings of a document enumerate their
    entries does not matter as long as no two keys of one mapping are
    rewritten to one spelling: two well-formed documents with the same keys
    and values at every depth, entries in any order, are taken by a pass to
    documents with the same keys and values at every depth. *)
Theorem entry_order_is_immaterial_without_collisions D1 D2 :
  wf D1 = true -> wf D2 = true -> doc_equiv D1 D2 ->
  (collision_free ESCAPE_TRANSLATION D1 = true ->
   doc_equiv (escape_chars D1) (escape_chars D2)) /\
  (collision_free UNESCAPE_TRANSLATION D1 = true ->
   doc_equiv (unescape_chars D1) (unescape_chars D2)).
Proof.
  intros Hwf1 Hwf2 Heq. split; intros Hcf.
  - by apply translate_order_independent; [apply esc_key_idemp|..].
  - by apply translate_order_independent; [apply unesc_key_idemp|..].
Qed.

Lemma entry_order_is_immaterial_without_collisions_witness :
  let D1 := DMap [([97; 46]%N, DNum 1); ([36]%N, DNum 2)] in
  let D2 := DMap [([36]%N, DNum 2); ([97; 46]%N, DNum 1)] in
  doc_equiv D1 D2 /\ doc_equiv (escape_chars D1) (escape_chars D2).
Proof.
  intros D1 D2.
  assert (doc_equiv D1 D2) as Heq.
  { apply equiv_map. intros k. simpl.
    repeat case_decide; simplify_eq; repeat constructor. }
  split; [exact Heq|].
  exact (proj1 (entry_order_is_immaterial_without_collisions D1 D2
                  eq_refl eq_refl Heq) eq_refl).
Defined.

End MongoEscapeMoreFacts.

(* ===================================================================== *)
(** * More properties of the loop of mongoescape.py *)
(* ===================================================================== *)

Module InPlaceMoreFacts.
Import MongoEscape InPlace MongoEscapeMore MongoEscapeFacts InPlaceFacts.

(** X7.  On a store that has a well-formed, tree-shaped document at the
    value given, each pass ends within one turn of the loop per entry of the
    mappings reachable through mapping nesting, raises nothing, returns the
    very value it was given, and leaves in the store the document the
    pass on documents computes. *)
Theorem pass_ends_on_tree_shaped_store fuel (h : heap) v d :
  represents h v d -> wf d = true -> turns d <= fuel ->
  (exists h', InPlace.escape_chars fuel v h = Returns (v, h') /\
              represents h' v (MongoEscape.escape_chars d)) /\
  (exists h', InPlace.unescape_chars fuel v h = Returns (v, h') /\
              represents h' v (MongoEscape.unescape_chars d)).
Proof.
  intros Hrep Hwf Hfuel. split.
  - by apply (in_place_represents ESCAPE_TRANSLATION esc_key_idemp).
  - by apply (in_place_represents UNESCAPE_TRANSLATION unesc_key_idemp).
Qed.

Lemma pass_ends_on_tree_shaped_store_witness :
  let t := (label sample_doc 0).1 in
  exists h', InPlace.escape_chars 3 (val_of t) (store_of t)
             = Returns (val_of t, h') /\
             represents h' (val_of t) (MongoEscape.escape_chars sample_doc).
Proof.
  intros t.
  apply (pass_ends_on_tree_shaped_store 3 (store_of t) (val_of t) sample_doc).
  - exists t. split; [reflexivity|]. split; [reflexivity|]. split.
    + unfold holds. vm_compute. repeat constructor.
    + assert (forall l : list loc, bool_decide (NoDup l) = true -> NoDup l)
        as Hdec by (intros l; apply bool_decide_eq_true).
      by apply Hdec.
  - reflexivity.
  - vm_compute. lia.
Defined.

Lemma rename_item_singleton {V} tr k (v : V) :
  rename_item tr [(k, v)] (k, v) = [(translate_key tr k, v)].
Proof.
  unfold rename_item. simpl. case_decide as Hch.
  - simpl. rewrite decide_False by done. simpl. by rewrite decide_True by done.
  - by rewrite Hch.
Qed.

Lemma rename_in_place_fixed tr (h : heap) k v r :
  translate_key tr k = k -> rename_in_place tr h (k, v, r) = Returns h.
Proof.
  intros Hk. unfold rename_in_place. by rewrite decide_False by naive_solver.
Qed.

Lemma translate_chars_dict fuel tr (h : heap) r d :
  h !! r = Some d ->
  InPlace._translate_chars fuel tr (VDict r) h
  = match work_loop fuel tr (work_items_of d r) h with
    | Returns h => Returns (VDict r, h)
    | KeyError k => KeyError k
    | Dangling r => Dangling r
    | OutOfFuel => OutOfFuel
    end.
Proof. intros Hd. unfold InPlace._translate_chars. by rewrite Hd. Qed.

Lemma nested_work_items_dict (h : heap) r d :
  h !! r = Some d -> nested_work_items h (VDict r) = Returns (work_items_of d r).
Proof. intros Hd. unfold nested_work_items. by rewrite Hd. Qed.

Lemma key_of_singleton {V} k (v : V) : k ∈ keys [(k, v)].
Proof. apply list_elem_of_here. Qed.

Lemma self_loop_never_ends fuel tr r :
  forall (h : heap) k,
    h !! r = Some [(k, VDict r)] ->
    work_loop fuel tr [(k, VDict r, r)] h = OutOfFuel.
Proof.
  induction fuel as [|fuel IH]; intros h k Hr; [done|].
  rewrite work_loop_cons.
  rewrite (rename_in_place_step tr h k (VDict r) r _ Hr (key_of_singleton _ _)).
  rewrite rename_item_singleton.
  rewrite (nested_work_items_dict _ r [(translate_key tr k, VDict r)])
    by apply lookup_insert_eq.
  apply IH. apply lookup_insert_eq.
Qed.

(** X8.  A [dict] whose only entry has the [dict] itself as its value makes
    either pass run for ever: whatever number of turns the loop is given,
    it has not emptied its work list. *)
Theorem self_containing_dict_never_returns fuel tr (h : heap) r k :
  h !! r = Some [(k, VDict r)] ->
  InPlace._translate_chars fuel tr (VDict r) h = OutOfFuel.
Proof.
  intros Hr. rewrite (translate_chars_dict fuel tr h r _ Hr).
  unfold work_items_of, items. rewrite fmap_cons, fmap_nil. cbn [fst snd].
  by rewrite self_loop_never_ends.
Qed.

Lemma self_containing_dict_never_returns_witness :
  InPlace.escape_chars 1000 (VDict 0) {[ 0 := [([97]%N, VDict 0)] ]}
  = OutOfFuel.
Proof.
  apply (self_containing_dict_never_returns 1000 ESCAPE_TRANSLATION
           {[ 0 := [([97]%N, VDict 0)] ]} 0 [97]%N).
  reflexivity.
Defined.

(** X9.  A [dict] that is the value of two entries is queued twice; when
    one of its keys has to be rewritten, the second visit finds the old key
    gone and [del] raises [KeyError] on it. *)
Theorem shared_dict_raises_key_error fuel tr (h : heap) r0 r1 k1 k2 k v :
  h !! r0 = Some [(k1, VDict r1); (k2, VDict r1)] ->
  h !! r1 = Some [(k, v)] ->
  translate_key tr k1 = k1 -> translate_key tr k2 = k2 ->
  translate_key tr k <> k ->
  is_dict v = false ->
  4 <= fuel ->
  InPlace._translate_chars fuel tr (VDict r0) h = KeyError k.
Proof.
  intros H0 H1 Hk1 Hk2 Hk Hv Hfuel.
  destruct fuel as [|[|[|[|fuel]]]]; try lia.
  rewrite (translate_chars_dict _ tr h r0 _ H0).
  unfold work_items_of, items. rewrite !fmap_cons, fmap_nil. cbn [fst snd].
  rewrite work_loop_cons, rename_in_place_fixed by done. cbn [fst snd].
  rewrite (nested_work_items_dict h r1 _ H1).
  unfold work_items_of, items. rewrite !fmap_cons, fmap_nil. cbn [fst snd app].
  rewrite work_loop_cons, rename_in_place_fixed by done. cbn [fst snd].
  rewrite (nested_work_items_dict h r1 _ H1).
  unfold work_items_of, items. rewrite !fmap_cons, fmap_nil. cbn [fst snd app].
  rewrite work_loop_cons.
  rewrite (rename_in_place_step tr h k v r1 _ H1 (key_of_singleton _ _)).
  rewrite rename_item_singleton.
  assert (forall h' : heap, nested_work_items h' v = Returns []) as Hnested
    by (intros h'; by destruct v).
  cbn [fst snd]. rewrite Hnested. simpl app.
  rewrite work_loop_cons. unfold rename_in_place.
  rewrite decide_True by done. rewrite lookup_insert_eq. simpl.
  rewrite !(decide_True (P := translate_key tr k = translate_key tr k))
    by done.
  rewrite decide_False; [done|].
  intros Hin. apply list_elem_of_singleton in Hin. by apply Hk.
Qed.

Lemma shared_dict_raises_key_error_witness :
  InPlace.escape_chars 4 (VDict 0)
    (<[ 0 := [([97]%N, VDict 1); ([98]%N, VDict 1)] ]>
       {[ 1 := [([FULL_STOP], VNum 1)] ]})
  = KeyError [FULL_STOP].
Proof.
  apply (shared_dict_raises_key_error 4 ESCAPE_TRANSLATION
           (<[ 0 := [([97]%N, VDict 1); ([98]%N, VDict 1)] ]>
              {[ 1 := [([FULL_STOP], VNum 1)] ]})
           0 1 [97]%N [98]%N [FULL_STOP] (VNum 1)).
  - reflexivity.
  - reflexivity.
  - reflexivity.
  - reflexivity.
  - vm_compute. discriminate.
  - reflexivity.
  - lia.
Defined.

Lemma in_place_unescape_escape_witness :
  let t := (label sample_doc 0).1 in
  exists h1 h2,
    InPlace.escape_chars 3 (val_of t) (store_of t) = Returns (val_of t, h1) /\
    InPlace.unescape_chars 3 (val_of t) h1 = Returns (val_of t, h2) /\
    represents h2 (val_of t)
      (MongoEscape.unescape_chars (MongoEscape.escape_chars sample_doc)).
Proof.
  intros t.
  apply (in_place_unescape_escape 3 (store_of t) (val_of t) sample_doc).
  - exists t. split; [reflexivity|]. split; [reflexivity|]. split.
    + unfold holds. vm_compute. repeat constructor.
    + assert (forall l : list loc, bool_decide (NoDup l) = true -> NoDup l)
        as Hdec by (intros l; apply bool_decide_eq_true).
      by apply Hdec.
  - reflexivity.
  - vm_compute. lia.
Defined.

(** X24.  A pass writes to the [dict] objects of the document and to no
    other: every other object of the store is after the pass what it was
    before, its keys unescaped or escaped as they were. *)
Theorem pass_leaves_other_dicts_alone fuel tr (h : heap) (t : ldoc) :
  holds h t -> NoDup (locs t) -> wf (erase t) = true ->
  turns (erase t) <= fuel ->
  exists h', InPlace._translate_chars fuel tr (val_of t) h
             = Returns (val_of t, h') /\
             forall r, r ∉ locs t -> h' !! r = h !! r.
Proof.
  intros Hh Hnd Hwf Hfuel.
  destruct t as [| | | | l|r m]; try (by exists h).
  unfold holds, locs in Hh, Hnd. rewrite nodes_LMap in Hh, Hnd.
  apply Forall_cons in Hh as [Hr Hh]. simpl in Hr, Hnd.
  apply NoDup_cons in Hnd as [Hrnd Hnd].
  pose proof Hwf as Hwf'. simpl in Hwf'.
  apply andb_true_iff in Hwf' as [Hk Hv]. apply bool_decide_eq_true in Hk.
  apply forallb_Forall in Hv. rewrite Forall_fmap in Hv.
  assert (loop_inv (children (LMap r m)) h) as Hinv.
  { split_and!; try done.
    - intros r' (a & -> & (r'' & m' & [= <- <-] & ->)%children_field)
        %list_elem_of_fmap. done.
    - intros r' (a & -> & (r'' & m' & [= <- <-] & ->)%children_field)
        %list_elem_of_fmap.
      exists ((fun kv => (kv.1, val_of kv.2)) <$> m).
      rewrite items_for_children_self. split; [done|].
      unfold keys in *. rewrite <- list_fmap_compose in Hk.
      rewrite <- list_fmap_compose. done.
    - simpl. by rewrite Forall_fmap. }
  destruct (work_loop_correct tr fuel (children (LMap r m)) h)
    as (h' & Hrun & [P1 P2]); [by rewrite weight_children|done|].
  exists h'. split.
  - simpl. rewrite Hr, conc_children, Hrun. done.
  - intros r' Hr'. unfold locs in Hr'. rewrite nodes_LMap, fmap_cons in Hr'.
    simpl in Hr'. apply not_elem_of_cons in Hr' as [Hne Hr'].
    rewrite P2 by done.
    rewrite items_for_children_other; [by destruct (h !! r')|].
    intros m' [= -> _]. done.
Qed.

Lemma pass_leaves_other_dicts_alone_witness :
  let t := (label sample_doc 0).1 in
  let other : dict value := [([FULL_STOP], VNull)] in
  exists h', InPlace.escape_chars 3 (val_of t) (<[99 := other]> (store_of t))
             = Returns (val_of t, h') /\
             forall r, r ∉ locs t -> h' !! r = <[99 := other]> (store_of t) !! r.
Proof.
  intros t other.
  apply (pass_leaves_other_dicts_alone 3 ESCAPE_TRANSLATION
           (<[99 := other]> (store_of t)) t).
  - unfold holds. vm_compute. repeat constructor.
  - assert (forall l : list loc, bool_decide (NoDup l) = true -> NoDup l)
      as Hdec by (intros l; apply bool_decide_eq_true).
    by apply Hdec.
  - reflexivity.
  - vm_compute. lia.
Defined.

End InPlaceMoreFacts.

(* ===================================================================== *)
(** * More properties of resource.py *)
(* ===================================================================== *)

Module ResourceMoreFacts.
Import Resource ResourceMore ResourceFacts.

(** ** Identifier resolution *)

(** X11.  Reference-or-id resolution asks the manager once.  A resource
    found is returned; when nothing is found [ResourceNotFoundError] is
    raised with a message that quotes the identifier; an error of the lookup
    is the error of the resolution (it is not turned into "not found", as
    an error of the id lookup is in name-or-id resolution). *)
Theorem ref_or_id_resolution (self : Self) (ref_or_id : pyval) (kw : kwargs)
    (t : trace) :
  let t1 := t ++ [EvBackend (GetByRefOrId ref_or_id kw)] in
  let resolve := ResourceCommand.get_resource_by_ref_or_id self ref_or_id kw in
  (forall i, get_by_ref_or_id (manager self) t ref_or_id kw = Ok (Some i) ->
             resolve t = (Ok i, t1)) /\
  (get_by_ref_or_id (manager self) t ref_or_id kw = Ok None ->
   resolve t = (Raise (ResourceNotFoundError (ref_not_found_message ref_or_id)),
                t1)) /\
  (forall e, get_by_ref_or_id (manager self) t ref_or_id kw = Raise e ->
             resolve t = (Raise e, t1)).
Proof.
  intros t1 resolve. subst t1 resolve.
  unfold ResourceCommand.get_resource_by_ref_or_id, ref_not_found_message.
  unfold_prog.
  split; [|split]; [intros i -> | intros -> | intros e ->]; done.
Qed.

Lemma ref_or_id_resolution_witness :
  let self := self_with failing_manager doc_without_id in
  let ref := PStr "core.alertA" in
  get_by_ref_or_id (manager self) [] ref ∅ = Raise (Foreign "ConnectionError")
  /\ ResourceCommand.get_resource_by_ref_or_id self ref ∅ []
     = (Raise (Foreign "ConnectionError"), [EvBackend (GetByRefOrId ref ∅)]).
Proof.
  intros self ref. split; [reflexivity|].
  destruct (ref_or_id_resolution self ref ∅ []) as (_ & _ & H).
  exact (H _ eq_refl).
Defined.

(** ** Files *)

(** X12.  When the file named on the command line is not there, create and
    update raise [Exception] with the message [File "<path>" does not
    exist.] right after the check: the file is not opened and the manager is
    not called, in update not even to resolve the identifier.
    [run_and_print] raises the same and renders nothing. *)
Theorem missing_file_stops_the_command (cls : Class) (self : Self)
    (args : Namespace) (kw : kwargs) (t : trace) :
  let f := ns_file args in
  let e := Exception (no_file_message f) in
  let t1 := t ++ [EvIsFile f] in
  isfile (host self) t f = false ->
  ResourceCreateCommand.run self args kw t = (Raise e, t1) /\
  ResourceUpdateCommand.run cls self args kw t = (Raise e, t1) /\
  ResourceCreateCommand.run_and_print self args kw t = (Raise e, t1) /\
  ResourceUpdateCommand.run_and_print cls self args kw t = (Raise e, t1).
Proof.
  intros f e t1 Hfile. subst f e t1.
  unfold ResourceCreateCommand.run_and_print,
    ResourceUpdateCommand.run_and_print, ResourceCreateCommand.run,
    ResourceUpdateCommand.run, no_file_message.
  unfold_prog. rewrite Hfile. done.
Qed.

Lemma missing_file_stops_the_command_witness :
  let self := sample_self doc_without_id in
  isfile (host self) [] "missing.json" = false /\
  ResourceUpdateCommand.run ResourceUpdateCommand.class self
    missing_file_args ∅ []
  = (Raise (Exception (no_file_message "missing.json")),
     [EvIsFile "missing.json"]).
Proof.
  intros self. split; [reflexivity|].
  destruct (missing_file_stops_the_command ResourceUpdateCommand.class self
              missing_file_args ∅ []) as (_ & H & _); [reflexivity|].
  exact H.
Defined.

(** ** Create and update *)

(** X13.  Create hands the manager the instance deserialized from the
    decoded content of the file, as it is, with the keyword arguments and
    the token; what the manager returns is what [run] returns, and its
    error is the error of [run], the file being closed either way. *)
Theorem create_submits_the_file_instance (self : Self) (args : Namespace)
    (kw : kwargs) (t : trace) (content : string) (data : MongoEscape.doc)
    (i : instance) :
  let f := ns_file args in
  let kw' := with_token args kw in
  let t3 := t ++ [EvIsFile f; EvOpen f; EvRead f] in
  isfile (host self) t f = true ->
  open (host self) (t ++ [EvIsFile f]) f = Ok tt ->
  read (host self) (t ++ [EvIsFile f; EvOpen f]) f = Ok content ->
  json_loads (host self) content = Ok data ->
  deserialize (resource self) data = Ok i ->
  ResourceCreateCommand.run self args kw t
  = (create (manager self) t3 i kw',
     t3 ++ [EvBackend (Create i kw'); EvClose f]).
Proof.
  intros f kw' t3 Hfile Hopen Hread Hjson Hdes. subst f kw' t3.
  unfold ResourceCreateCommand.run, with_token. unfold_prog.
  rewrite Hfile. simpl. rewrite <- !(assoc_L (++)) in *. simpl in *.
  rewrite Hopen, Hread, Hjson, Hdes. by rewrite <- !(assoc_L (++)).
Qed.

Lemma create_submits_the_file_instance_witness :
  let self := self_with failing_manager doc_without_id in
  let kw' : kwargs := {["token" := PStr "s3cret"]} in
  let i : instance := {["name" := PStr "renamed"]} in
  ResourceCreateCommand.run self sample_args ∅ []
  = (Raise (Foreign "ConnectionError"),
     [EvIsFile "alert.json"; EvOpen "alert.json"; EvRead "alert.json";
      EvBackend (Create i kw'); EvClose "alert.json"]).
Proof.
  intros self kw' i.
  refine (create_submits_the_file_instance self sample_args ∅ [] "..."
            doc_without_id i _ _ _ _ _); reflexivity.
Defined.

(** X14.  When the instance read from the file carries an id that is a true
    value and equals the id of the instance the identifier resolved to,
    update hands the manager the instance of the file unchanged, and returns
    what the manager returns. *)
Theorem update_with_matching_id (cls : Class) (self : Self) (args : Namespace)
    (kw : kwargs) (t t2 : trace) (instance modified : instance)
    (content : string) (data : MongoEscape.doc) (modified_id id : pyval) :
  let f := ns_file args in
  let kw' := with_token args kw in
  let identifier := getattr_pk args (pk_argument_name cls) in
  isfile (host self) t f = true ->
  get_resource cls self identifier kw' (t ++ [EvIsFile f])
    = (Ok instance, t2) ->
  open (host self) t2 f = Ok tt ->
  read (host self) (t2 ++ [EvOpen f]) f = Ok content ->
  json_loads (host self) content = Ok data ->
  deserialize (resource self) data = Ok modified ->
  modified !! "id" = Some modified_id -> truthy modified_id = true ->
  instance !! "id" = Some id -> py_ne modified_id id = false ->
  ResourceUpdateCommand.run cls self args kw t
  = (update (manager self) (t2 ++ [EvOpen f; EvRead f]) modified kw',
     t2 ++ [EvOpen f; EvRead f; EvBackend (Update modified kw'); EvClose f]).
Proof.
  intros f kw' identifier Hfile Hres Hopen Hread Hjson Hdes Hmid Htrue Hid Hne.
  subst f kw' identifier.
  unfold ResourceUpdateCommand.run, with_token in *. unfold_prog.
  rewrite Hfile. simpl. rewrite Hres, Hopen, Hread, Hjson, Hdes.
  unfold getattr. rewrite Hmid. simpl. rewrite Htrue. simpl.
  rewrite Hid. simpl. rewrite Hne. by rewrite <- !(assoc_L (++)).
Qed.

Lemma update_with_matching_id_witness :
  let self := sample_self doc_with_same_id in
  let kw' : kwargs := {["token" := PStr "s3cret"]} in
  let submitted : instance :=
    <["id" := PStr "507f"]> {["name" := PStr "renamed"]} in
  ResourceUpdateCommand.run ResourceUpdateCommand.class self sample_args ∅ []
  = (Ok submitted,
     [EvIsFile "alert.json"; EvBackend (GetByName (PStr "alertA") kw');
      EvOpen "alert.json"; EvRead "alert.json";
      EvBackend (Update submitted kw'); EvClose "alert.json"]).
Proof.
  intros self kw' submitted.
  refine (update_with_matching_id ResourceUpdateCommand.class self
            sample_args ∅ []
            [EvIsFile "alert.json"; EvBackend (GetByName (PStr "alertA") kw')]
            alertA submitted "..." doc_with_same_id
            (PStr "507f") (PStr "507f") _ _ _ _ _ _ _ _ _ _);
    reflexivity.
Defined.

(** X15.  When the identifier does not resolve, update raises the error of
    the resolution and never opens the file.  [run_and_print] of update
    does not catch it, [ResourceNotFoundError] included: unlike get and
    delete, update of a resource that does not exist ends with that error and
    prints nothing. *)
Theorem update_of_unresolved_identifier_raises (cls : Class) (self : Self)
    (args : Namespace) (kw : kwargs) (t t2 : trace) (e : exn) :
  let f := ns_file args in
  let kw' := with_token args kw in
  let identifier := getattr_pk args (pk_argument_name cls) in
  isfile (host self) t f = true ->
  get_resource cls self identifier kw' (t ++ [EvIsFile f]) = (Raise e, t2) ->
  ResourceUpdateCommand.run cls self args kw t = (Raise e, t2) /\
  ResourceUpdateCommand.run_and_print cls self args kw t = (Raise e, t2).
Proof.
  intros f kw' identifier Hfile Hres. subst f kw' identifier.
  unfold ResourceUpdateCommand.run_and_print, ResourceUpdateCommand.run,
    with_token in *.
  unfold_prog. rewrite Hfile. simpl. by rewrite Hres.
Qed.

Lemma update_of_unresolved_identifier_raises_witness :
  let self := sample_self doc_without_id in
  let name := PStr "nonexistent" in
  ResourceUpdateCommand.run_and_print ResourceUpdateCommand.class self
    unknown_resource_args ∅ []
  = (Raise (ResourceNotFoundError (not_found_message name)),
     [EvIsFile "alert.json"; EvBackend (GetByName name ∅);
      EvBackend (GetById name ∅)]).
Proof.
  intros self name.
  refine (proj2 (update_of_unresolved_identifier_raises
                   ResourceUpdateCommand.class self unknown_resource_args ∅ []
                   _ _ _ _)); reflexivity.
Defined.

(** ** What [run_and_print] makes of [run] *)

(** X16.  When [run] of the get command returns an instance,
    [run_and_print] hands it to [print_output] as a property-value table with
    the attributes of the command line and the display order of the class.
    The [try] covers the rendering too: a [ResourceNotFoundError] raised by
    [print_output] is reported as the resource not being found; any other
    error of the rendering is raised. *)
Theorem get_renders_the_instance (order : list string) (cls : Class)
    (self : Self) (args : Namespace) (kw : kwargs) (t t' : trace)
    (i : instance) :
  let r := get_rendering order args i in
  let line := not_found_line self (getattr_pk args (pk_argument_name cls)) in
  ResourceGetCommand.run cls self args kw t = (Ok i, t') ->
  ResourceGetCommand.run_and_print_with order cls self args kw t
  = match print_output (host self) t' r with
    | Raise (ResourceNotFoundError _) =>
        (Ok tt, t' ++ [EvOutput r; EvPrint line])
    | res => (res, t' ++ [EvOutput r])
    end.
Proof.
  intros r line Hrun. subst r line.
  unfold ResourceGetCommand.run_and_print_with, get_rendering,
    not_found_line, ResourceCommand.print_not_found.
  unfold_prog. rewrite Hrun.
  destruct (print_output _ _ _) as [[]|[]]; try done.
  by rewrite <- (assoc_L (++)).
Qed.

Lemma get_renders_the_instance_witness :
  let self := sample_self doc_without_id in
  let kw' : kwargs := {["token" := PStr "s3cret"]} in
  ContentPackResourceGetCommand.run_and_print self sample_args ∅ []
  = (Ok tt,
     [EvBackend (GetByRefOrId (PStr "core.alertA") kw');
      EvOutput (get_rendering ["id"; "pack"; "name"; "description"]
                  sample_args alertA)]).
Proof.
  intros self kw'.
  refine (get_renders_the_instance ContentPackResourceGetCommand.attribute_display_order
            ContentPackResourceGetCommand.class self sample_args ∅ []
            [EvBackend (GetByRefOrId (PStr "core.alertA") kw')] alertA _).
  reflexivity.
Defined.

(** X17.  When the identifier resolves, delete calls the manager's delete
    with the instance found and the keyword arguments with the token.  On
    success [run_and_print] prints nothing.  The [try] covers the deletion:
    a [ResourceNotFoundError] raised by the manager's delete is reported as
    the resource not being found, and the command ends normally; any other
    error of the deletion is raised. *)
Theorem delete_outcomes (cls : Class) (self : Self) (args : Namespace)
    (kw : kwargs) (t t2 : trace) (i : instance) :
  let kw' := with_token args kw in
  let identifier := getattr_pk args (pk_argument_name cls) in
  let t3 := t2 ++ [EvBackend (Delete i kw')] in
  let line := not_found_line self identifier in
  get_resource cls self identifier kw' t = (Ok i, t2) ->
  ResourceDeleteCommand.run cls self args kw t
  = (delete (manager self) t2 i kw', t3) /\
  ResourceDeleteCommand.run_and_print cls self args kw t
  = match delete (manager self) t2 i kw' with
    | Raise (ResourceNotFoundError _) => (Ok tt, t3 ++ [EvPrint line])
    | res => (res, t3)
    end.
Proof.
  intros kw' identifier t3 line Hres. subst kw' identifier t3 line.
  unfold ResourceDeleteCommand.run_and_print, ResourceDeleteCommand.run,
    not_found_line, ResourceCommand.print_not_found, with_token in *.
  unfold_prog. rewrite Hres. split; [done|].
  by destruct (delete _ _ _ _) as [[]|[]].
Qed.

Lemma delete_outcomes_witness :
  let self := self_with racing_manager doc_without_id in
  let kw' : kwargs := {["token" := PStr "s3cret"]} in
  ResourceDeleteCommand.run_and_print ResourceDeleteCommand.class self
    sample_args ∅ []
  = (Ok tt,
     [EvBackend (GetByName (PStr "alertA") kw');
      EvBackend (Delete alertA kw');
      EvPrint (not_found_line self (PStr "alertA"))]).
Proof.
  intros self kw'.
  refine (proj2 (delete_outcomes ResourceDeleteCommand.class self sample_args
                   ∅ [] [EvBackend (GetByName (PStr "alertA") kw')] alertA _)).
  reflexivity.
Defined.

(** X18.  When [run] of a list, create or update command returns,
    [run_and_print] hands the result to [print_output] once, and returns or
    raises what [print_output] does: the list commands render the instances
    as a multi-column table with the attributes and the widths of the
    command line; create and update render the instance as a property-value
    table with all its attributes. *)
Theorem successful_run_is_rendered_once (cls : Class) (self : Self)
    (args : Namespace) (kw : kwargs) (t t' : trace) :
  (forall l,
     ResourceListCommand.run self args kw t = (Ok l, t') ->
     ResourceListCommand.run_and_print self args kw t
     = (print_output (host self) t' (list_rendering args l),
        t' ++ [EvOutput (list_rendering args l)])) /\
  (forall l,
     ContentPackResourceListCommand.run self args kw t = (Ok l, t') ->
     ContentPackResourceListCommand.run_and_print self args kw t
     = (print_output (host self) t' (list_rendering args l),
        t' ++ [EvOutput (list_rendering args l)])) /\
  (forall i,
     ResourceCreateCommand.run self args kw t = (Ok i, t') ->
     ResourceCreateCommand.run_and_print self args kw t
     = (print_output (host self) t' (write_rendering args i),
        t' ++ [EvOutput (write_rendering args i)])) /\
  (forall i,
     ResourceUpdateCommand.run cls self args kw t = (Ok i, t') ->
     ResourceUpdateCommand.run_and_print cls self args kw t
     = (print_output (host self) t' (write_rendering args i),
        t' ++ [EvOutput (write_rendering args i)])).
Proof.
  unfold ResourceListCommand.run_and_print,
    ContentPackResourceListCommand.run_and_print,
    ResourceListCommand.run_and_print_with,
    ResourceCreateCommand.run_and_print, ResourceUpdateCommand.run_and_print,
    self_print_output, ask, bind.
  repeat split; intros x Hrun; by rewrite Hrun.
Qed.

Lemma successful_run_is_rendered_once_witness :
  let self := sample_self doc_without_id in
  ResourceListCommand.run_and_print self empty_token_args ∅ []
  = (Ok tt,
     [EvBackend (GetAll ∅);
      EvOutput {| r_subject := [alertA]; r_table := MultiColumnTable;
                  r_attributes := ["name"]; r_widths := Some [10%Z];
                  r_json := true; r_attribute_display_order := None |}]).
Proof.
  intros self.
  destruct (successful_run_is_rendered_once ResourceUpdateCommand.class self
              empty_token_args ∅ [] [EvBackend (GetAll ∅)]) as (H & _).
  exact (H [alertA] eq_refl).
Defined.

(** X19.  An error of [run] is the error of [run_and_print], and nothing is
    printed or rendered after it: any error in the list, create and update
    commands, and any error but [ResourceNotFoundError] in the get and
    delete commands. *)
Theorem run_errors_propagate (order : list string) (cls : Class) (self : Self)
    (args : Namespace) (kw : kwargs) (t t' : trace) (e : exn) :
  (ResourceListCommand.run self args kw t = (Raise e, t') ->
   ResourceListCommand.run_and_print self args kw t = (Raise e, t')) /\
  (ContentPackResourceListCommand.run self args kw t = (Raise e, t') ->
   ContentPackResourceListCommand.run_and_print self args kw t
   = (Raise e, t')) /\
  (ResourceCreateCommand.run self args kw t = (Raise e, t') ->
   ResourceCreateCommand.run_and_print self args kw t = (Raise e, t')) /\
  (ResourceUpdateCommand.run cls self args kw t = (Raise e, t') ->
   ResourceUpdateCommand.run_and_print cls self args kw t = (Raise e, t')) /\
  (is_not_found e = false ->
   (ResourceGetCommand.run cls self args kw t = (Raise e, t') ->
    ResourceGetCommand.run_and_print_with order cls self args kw t
    = (Raise e, t')) /\
   (ResourceDeleteCommand.run cls self args kw t = (Raise e, t') ->
    ResourceDeleteCommand.run_and_print cls self args kw t = (Raise e, t'))).
Proof.
  unfold ResourceListCommand.run_and_print,
    ContentPackResourceListCommand.run_and_print,
    ResourceListCommand.run_and_print_with,
    ResourceCreateCommand.run_and_print, ResourceUpdateCommand.run_and_print,
    ResourceGetCommand.run_and_print_with, ResourceDeleteCommand.run_and_print,
    try_except, self_print_output, ask, bind.
  split_and!; try (intros Hrun; by rewrite Hrun).
  intros He. split; intros Hrun; rewrite Hrun; by destruct e.
Qed.

Lemma run_errors_propagate_witness :
  let self := self_with failing_manager doc_without_id in
  let kw' : kwargs := {["token" := PStr "s3cret"]} in
  ResourceGetCommand.run_and_print self sample_args ∅ []
  = (Raise (Foreign "ConnectionError"),
     [EvBackend (GetByName (PStr "alertA") kw')]).
Proof.
  intros self kw'.
  destruct (run_errors_propagate ResourceGetCommand.attribute_display_order
              ResourceGetCommand.class self sample_args ∅ []
              [EvBackend (GetByName (PStr "alertA") kw')]
              (Foreign "ConnectionError")) as (_ & _ & _ & _ & H).
  destruct (H eq_refl) as [Hget _]. exact (Hget eq_refl).
Defined.

(** ** The calls made on the manager *)

Lemma calls_since_refl P t : calls_since P t t.
Proof. exists []. split; [by rewrite app_nil_r|constructor]. Qed.

Lemma calls_since_snoc P t r e :
  calls_since P t r -> (forall c, e = EvBackend c -> P c) ->
  calls_since P t (r ++ [e]).
Proof.
  intros (evs & -> & Hevs) He. exists (evs ++ [e]).
  split; [by rewrite (assoc_L (++))|].
  unfold backend_calls in *. rewrite omap_app. apply Forall_app. split; [done|].
  destruct e; simpl; try constructor; [|constructor]. by apply He.
Qed.

Lemma calls_since_trans P t r r' :
  calls_since P t r -> calls_since P r r' -> calls_since P t r'.
Proof.
  intros (evs & -> & Hevs) (evs' & -> & Hevs'). exists (evs ++ evs').
  split; [by rewrite (assoc_L (++))|].
  unfold backend_calls in *. rewrite omap_app. by apply Forall_app.
Qed.

Ltac calls_since_steps :=
  repeat first
    [ assumption
    | apply calls_since_refl
    | apply calls_since_snoc; [|by intros ? [= <-]] ].

Lemma resolution_calls (P : call -> Prop) (cls : Class) (self : Self)
    (identifier : pyval) (kw : kwargs) (t : trace) :
  resolves_as_declared cls ->
  (forall c, is_lookup c = true -> call_kwargs c = kw -> P c) ->
  calls_since P t (get_resource cls self identifier kw t).2.
Proof.
  intros [-> | ->] HP.
  - unfold ResourceCommand.get_resource,
      ResourceCommand.get_resource_by_name_or_id.
    unfold_prog. repeat case_match; simplify_eq; simpl;
      repeat first [ apply calls_since_refl
                   | apply calls_since_snoc; [|intros ? [= <-]; by apply HP] ].
  - unfold ResourceCommand.get_resource_by_ref_or_id.
    unfold_prog. repeat case_match; simplify_eq; simpl;
      repeat first [ apply calls_since_refl
                   | apply calls_since_snoc; [|intros ? [= <-]; by apply HP] ].
Qed.

(** X20.  The token of the command line reaches the manager.  In the list,
    get, create, update and delete commands, every call made on the manager
    during [run] (the lookups that resolve the identifier too) is made with
    the keyword arguments [run] was given, to which the token of the command
    line is added under [token], in the place of one given already, when it
    is a true value; a token that is absent or empty leaves the keyword
    arguments as they are. *)
Theorem manager_calls_carry_the_token (cls : Class) (self : Self)
    (args : Namespace) (kw : kwargs) (t : trace) :
  resolves_as_declared cls ->
  let kw' := with_token args kw in
  let carried := calls_since (fun c => call_kwargs c = kw') t in
  (carried (ResourceListCommand.run self args kw t).2 /\
   carried (ResourceGetCommand.run cls self args kw t).2 /\
   carried (ResourceCreateCommand.run self args kw t).2 /\
   carried (ResourceUpdateCommand.run cls self args kw t).2 /\
   carried (ResourceDeleteCommand.run cls self args kw t).2) /\
  (truthy (ns_token args) = true ->
   kw' !! "token" = Some (ns_token args) /\
   forall k, k <> "token" -> kw' !! k = kw !! k) /\
  (truthy (ns_token args) = false -> kw' = kw).
Proof.
  intros Hcls kw' carried. subst carried.
  assert (forall t0, calls_since (fun c => call_kwargs c = kw') t0
            (get_resource cls self (getattr_pk args (pk_argument_name cls))
               kw' t0).2) as Hres.
  { intros t0. by apply resolution_calls. }
  split; [|split].
  - split_and!.
    + unfold ResourceListCommand.run. unfold_prog. simpl.
      calls_since_steps.
    + unfold ResourceGetCommand.run. unfold_prog. apply Hres.
    + unfold ResourceCreateCommand.run. unfold_prog. fold (with_token args kw).
      fold kw'. repeat case_match; simplify_eq; simpl; calls_since_steps.
    + unfold ResourceUpdateCommand.run. unfold_prog. fold (with_token args kw).
      fold kw'.
      destruct (isfile _ _ _); simpl; [|calls_since_steps].
      specialize (Hres (t ++ [EvIsFile (ns_file args)])).
      destruct (get_resource _ _ _ _ _) as [r t2]. simpl in Hres.
      assert (calls_since (fun c => call_kwargs c = kw') t t2) as Ht2.
      { eapply calls_since_trans; [|exact Hres]. calls_since_steps. }
      repeat case_match; simplify_eq; simpl; calls_since_steps.
    + unfold ResourceDeleteCommand.run. unfold_prog. fold (with_token args kw).
      fold kw'. specialize (Hres t).
      destruct (get_resource _ _ _ _ _) as [[i|e] t2]; simpl in *;
        calls_since_steps.
  - intros Htok. subst kw'. unfold with_token. rewrite Htok.
    split; [apply lookup_insert_eq|]. intros k Hk. by apply lookup_insert_ne.
  - intros Htok. subst kw'. unfold with_token. by rewrite Htok.
Qed.

Lemma manager_calls_carry_the_token_witness :
  let self := sample_self doc_without_id in
  resolves_as_declared ResourceDeleteCommand.class /\
  calls_since (fun c => call_kwargs c = {["token" := PStr "s3cret"]}) []
    (ResourceDeleteCommand.run ResourceDeleteCommand.class self
       sample_args ∅ []).2.
Proof.
  intros self.
  assert (resolves_as_declared ResourceDeleteCommand.class) as Hcls
    by (left; reflexivity).
  split; [exact Hcls|].
  destruct (manager_calls_carry_the_token ResourceDeleteCommand.class
              self sample_args ∅ [] Hcls) as ((_ & _ & _ & _ & H) & _).
  exact H.
Defined.

(** ** The file is closed *)

(** X21.  Once the file has been opened, create and update close it before
    they end, whatever happens in between: reading, decoding,
    deserializing, comparing the ids or the call on the manager may fail,
    and the closing of the file is still the last thing the command does,
    after nothing but the reading and, at most, one call on the manager.
    When the opening itself fails its error is raised and there is nothing
    to close. *)
Theorem opened_file_is_closed (cls : Class) (self : Self) (args : Namespace)
    (kw : kwargs) (t t2 : trace) (instance : instance) :
  let f := ns_file args in
  let kw' := with_token args kw in
  let identifier := getattr_pk args (pk_argument_name cls) in
  let inside (body : trace) :=
    body = [EvRead f] \/ exists c, body = [EvRead f; EvBackend c] in
  isfile (host self) t f = true ->
  ((open (host self) (t ++ [EvIsFile f]) f = Ok tt ->
    exists body,
      (ResourceCreateCommand.run self args kw t).2
      = t ++ [EvIsFile f; EvOpen f] ++ body ++ [EvClose f] /\ inside body) /\
   (forall e, open (host self) (t ++ [EvIsFile f]) f = Raise e ->
      ResourceCreateCommand.run self args kw t
      = (Raise e, t ++ [EvIsFile f; EvOpen f]))) /\
  (get_resource cls self identifier kw' (t ++ [EvIsFile f])
     = (Ok instance, t2) ->
   (open (host self) t2 f = Ok tt ->
    exists body,
      (ResourceUpdateCommand.run cls self args kw t).2
      = t2 ++ [EvOpen f] ++ body ++ [EvClose f] /\ inside body) /\
   (forall e, open (host self) t2 f = Raise e ->
      ResourceUpdateCommand.run cls self args kw t
      = (Raise e, t2 ++ [EvOpen f]))).
Proof.
  intros f kw' identifier inside Hfile. subst f kw' identifier inside.
  split; [split|].
  - intros Hopen. unfold ResourceCreateCommand.run. unfold_prog.
    rewrite Hfile. simpl. rewrite Hopen.
    repeat case_match; simplify_eq; simpl; rewrite <- ?(assoc_L (++)); simpl;
      first [ exists [EvRead (ns_file args)]; split; [reflexivity|]; by left
            | eexists [EvRead (ns_file args); EvBackend _];
              split; [reflexivity|]; right; by eexists ].
  - intros e Hopen. unfold ResourceCreateCommand.run. unfold_prog.
    rewrite Hfile. simpl. rewrite Hopen. by rewrite <- (assoc_L (++)).
  - intros Hres. split.
    + intros Hopen. unfold ResourceUpdateCommand.run, with_token in *.
      unfold_prog. rewrite Hfile. simpl. rewrite Hres, Hopen.
      repeat case_match; simplify_eq; simpl; rewrite <- ?(assoc_L (++)); simpl;
        first [ exists [EvRead (ns_file args)]; split; [reflexivity|]; by left
              | eexists [EvRead (ns_file args); EvBackend _];
                split; [reflexivity|]; right; by eexists ].
    + intros e Hopen. unfold ResourceUpdateCommand.run, with_token in *.
      unfold_prog. rewrite Hfile. simpl. by rewrite Hres, Hopen.
Qed.

Lemma opened_file_is_closed_witness :
  let self := self_with failing_manager doc_without_id in
  let kw' : kwargs := {["token" := PStr "s3cret"]} in
  exists body,
    (ResourceCreateCommand.run self sample_args ∅ []).2
    = [EvIsFile "alert.json"; EvOpen "alert.json"] ++ body
      ++ [EvClose "alert.json"] /\
    (body = [EvRead "alert.json"] \/
     exists c, body = [EvRead "alert.json"; EvBackend c]).
Proof.
  intros self kw'.
  destruct (opened_file_is_closed ResourceUpdateCommand.class self sample_args
              ∅ [] [] ∅) as [[H _] _]; [reflexivity|].
  exact (H eq_refl).
Defined.

(** ** Commands of resources that belong to a pack *)

(** X22.  Of the pack-scoped commands only get resolves by reference: it
    asks the manager once, by reference or id.  The pack-scoped update and
    delete commands take the identifier from [ref_or_id] but resolve it as
    the plain commands do: the first call on the manager is the lookup by
    name with that identifier, and no call by reference or id is ever
    made. *)
Theorem pack_scoped_update_and_delete_resolve_by_name (self : Self)
    (args : Namespace) (kw : kwargs) (t : trace) :
  let f := ns_file args in
  let kw' := with_token args kw in
  let identifier := ns_ref_or_id args in
  let by_name_first (t0 r : trace) :=
    exists rest,
      r = t0 ++ EvBackend (GetByName identifier kw') :: rest /\
      Forall (fun c => is_get_by_ref_or_id c = false) (backend_calls rest) in
  by_name_first t
    (ResourceDeleteCommand.run ContentPackResourceDeleteCommand.class
       self args kw t).2 /\
  (isfile (host self) t f = true ->
   by_name_first (t ++ [EvIsFile f])
     (ResourceUpdateCommand.run ContentPackResourceUpdateCommand.class
        self args kw t).2) /\
  (ContentPackResourceGetCommand.run self args kw t).2
  = t ++ [EvBackend (GetByRefOrId identifier kw')].
Proof.
  intros f kw' identifier by_name_first.
  subst f kw' identifier by_name_first. split; [|split].
  - unfold ResourceDeleteCommand.run, ContentPackResourceDeleteCommand.class,
      ResourceCommand.get_resource,
      ResourceCommand.get_resource_by_name_or_id, with_token.
    unfold_prog. simpl.
    repeat case_match; simplify_eq; simpl; rewrite <- ?(assoc_L (++)); simpl;
      (eexists; split; [reflexivity|]); simpl; repeat constructor.
  - intros Hfile.
    unfold ResourceUpdateCommand.run, ContentPackResourceUpdateCommand.class,
      ResourceCommand.get_resource,
      ResourceCommand.get_resource_by_name_or_id, with_token.
    unfold_prog. simpl. rewrite Hfile. simpl.
    repeat case_match; simplify_eq; simpl; eexists;
      rewrite <- ?(assoc_L (++)); simpl;
      (split; [reflexivity|]); simpl; repeat constructor.
  - unfold ContentPackResourceGetCommand.run, ResourceGetCommand.run,
      ContentPackResourceGetCommand.class,
      ResourceCommand.get_resource_by_ref_or_id, with_token.
    unfold_prog. simpl. by repeat case_match.
Qed.

Lemma pack_scoped_update_and_delete_resolve_by_name_witness :
  let self := sample_self doc_without_id in
  let kw' : kwargs := {["token" := PStr "s3cret"]} in
  isfile (host self) [] "alert.json" = true /\
  exists rest,
    (ResourceUpdateCommand.run ContentPackResourceUpdateCommand.class
       self sample_args ∅ []).2
    = [EvIsFile "alert.json"]
      ++ EvBackend (GetByName (PStr "core.alertA") kw') :: rest /\
    Forall (fun c => is_get_by_ref_or_id c = false) (backend_calls rest).
Proof.
  intros self kw'. split; [reflexivity|].
  destruct (pack_scoped_update_and_delete_resolve_by_name self sample_args
              ∅ []) as (_ & H & _).
  exact (H eq_refl).
Defined.

End ResourceMoreFacts.

(* ===================================================================== *)
(** * Properties of ResourceBranch *)
(* ===================================================================== *)

Module ResourceBranchFacts.
Import Resource ResourceMore ResourceMore.ResourceBranch.

Lemma lookup_if_not_in key k cls (m : gmap string command_class) :
  if_not_in k cls m !! key
  = match m !! key with
    | Some x => Some x
    | None => if decide (key = k) then Some cls else None
    end.
Proof.
  unfold if_not_in. destruct (m !! k) eqn:E.
  - destruct (m !! key) eqn:E'; [done|]. case_decide; [congruence|done].
  - destruct (decide (key = k)) as [->|].
    + by rewrite lookup_insert_eq, E.
    + rewrite lookup_insert_ne by done. by destruct (m !! key).
Qed.

Lemma lookup_instantiate k cs sc sc' key :
  instantiate k cs sc = Some sc' ->
  sc' !! key = if decide (key = k) then New <$> cs !! k else sc !! key.
Proof.
  unfold instantiate. destruct (cs !! k) as [c|]; [|done].
  simpl. intros [= <-]. case_decide as Hk.
  - subst. by rewrite lookup_insert_eq.
  - by rewrite lookup_insert_ne.
Qed.

(** X23.  The constructor of a branch always succeeds in looking its
    command classes up.  It writes to the dictionary it was given: a
    subcommand the caller named keeps the caller's class, each of [list],
    [get], [create], [update] and [delete] the caller did not name gets the
    class of this file, and nothing else changes.  It registers an object of
    the class found under [list] and under [get]; under [create], [update]
    and [delete] it does so only when the branch is not read-only, and
    otherwise leaves them as they were, whatever classes the caller named
    for them. *)
Theorem branch_registers_commands (read_only : bool)
    (commands : gmap string command_class)
    (self_commands : gmap string command) :
  exists commands' self_commands',
    __init__ read_only commands self_commands
    = Some (commands', self_commands') /\
    (forall key,
       commands' !! key
       = match commands !! key with
         | Some cls => Some cls
         | None => default_class key
         end) /\
    (forall key,
       self_commands' !! key
       = if bool_decide (key ∈ ["list"; "get"])
            || (negb read_only && writes key)
         then New <$> commands' !! key
         else self_commands !! key).
Proof.
  unfold __init__.
  set (cs := if_not_in "delete" _ _).
  assert (forall key,
            cs !! key = match commands !! key with
                        | Some cls => Some cls
                        | None => default_class key
                        end) as Hcs.
  { intros key. subst cs. rewrite !lookup_if_not_in. unfold default_class.
    destruct (commands !! key); [done|].
    repeat case_decide; simplify_eq; done. }
  assert (forall key, is_Some (default_class key) -> is_Some (cs !! key))
    as Hsome.
  { intros key Hd. rewrite Hcs. by destruct (commands !! key). }
  destruct (Hsome "list") as [c1 H1]; [by eexists|].
  destruct (Hsome "get") as [c2 H2]; [by eexists|].
  destruct (Hsome "create") as [c3 H3]; [by eexists|].
  destruct (Hsome "update") as [c4 H4]; [by eexists|].
  destruct (Hsome "delete") as [c5 H5]; [by eexists|].
  unfold instantiate. rewrite H1. simpl. rewrite H2. simpl.
  destruct read_only; simpl.
  - eexists _, _. split; [reflexivity|]. split; [exact Hcs|].
    intros key. unfold writes. cbn [negb andb]. rewrite orb_false_r.
    case_bool_decide as Hk.
    + apply elem_of_cons in Hk as [->|Hk].
      * rewrite lookup_insert_ne by done. by rewrite lookup_insert_eq, H1.
      * apply list_elem_of_singleton in Hk as ->.
        by rewrite lookup_insert_eq, H2.
    + rewrite !lookup_insert_ne; [done|set_solver..].
  - rewrite H3. simpl. rewrite H4. simpl. rewrite H5. simpl.
    eexists _, _. split; [reflexivity|]. split; [exact Hcs|].
    intros key. unfold writes. cbn [negb andb].
    destruct (decide (key = "delete")) as [->|];
      [by rewrite lookup_insert_eq, H5|rewrite lookup_insert_ne by done].
    destruct (decide (key = "update")) as [->|];
      [by rewrite lookup_insert_eq, H4|rewrite lookup_insert_ne by done].
    destruct (decide (key = "create")) as [->|];
      [by rewrite lookup_insert_eq, H3|rewrite lookup_insert_ne by done].
    destruct (decide (key = "get")) as [->|];
      [by rewrite lookup_insert_eq, H2|rewrite lookup_insert_ne by done].
    destruct (decide (key = "list")) as [->|];
      [by rewrite lookup_insert_eq, H1|rewrite lookup_insert_ne by done].
    rewrite !bool_decide_eq_false_2; [done|set_solver..].
Qed.

End ResourceBranchFacts.
